(** * LOFI: a grid dungeon crawler (Position, Map, GameState, MapView, MiniMap)

    Shallow embedding of the game model of the C++ port of LoFiWanderings
    and the properties of its coordinate algebra, map storage, movement
    rules and renderers.

    Conventions of the embedding:
    - a C++ [int] is a [Z] kept in the signed 32-bit range; arithmetic that
      can leave the range is written with its two's-complement wrap-around
      ([wrap]); [%] and [/] truncate toward zero ([Z.rem], [Z.quot]);
    - a heap array is a [list]; every subscript is guarded: an index outside
      the array stops the computation with [Fault (OutOfRange i len)], which
      stands for the undefined behaviour of the C++ access; the store one
      past the end of a cell that the mockup makes is also given as the
      machine performs it ([wr3_unchecked], [ByStore]);
    - a nullable pointer is an [option];
    - drawing is a log of commands sent to the target surface. *)

From Stdlib Require Import ZArith Lia Bool.
From stdpp Require Import base list numbers strings pretty.

Local Open Scope Z_scope.

(** ** Machine integers *)

Definition INT_MIN : Z := - 2 ^ 31.
Definition INT_MAX : Z := 2 ^ 31 - 1.

Definition int_range (z : Z) : Prop := INT_MIN <= z <= INT_MAX.

(** Two's-complement normalisation of a mathematical result into [int]. *)
Definition wrap (z : Z) : Z := (z + 2 ^ 31) mod 2 ^ 32 - 2 ^ 31.

Definition iadd (a b : Z) : Z := wrap (a + b).
Definition isub (a b : Z) : Z := wrap (a - b).
Definition imul (a b : Z) : Z := wrap (a * b).
(** [a % b] for a non-zero constant divisor. *)
Definition irem (a b : Z) : Z := Z.rem a b.

(** Implicit conversions performed when a value is stored in an
    [unsigned int] parameter or in the fields of an [SDL_Rect]
    ([Sint16 x, y; Uint16 w, h]). *)
Definition to_unsigned (z : Z) : Z := z mod 2 ^ 32.
Definition to_sint16 (z : Z) : Z := (z + 2 ^ 15) mod 2 ^ 16 - 2 ^ 15.
Definition to_uint16 (z : Z) : Z := z mod 2 ^ 16.

(** ** Faults and the error monad *)

Inductive fault : Type :=
  | OutOfRange (index : Z) (len : nat)
  | NullPointer
  | BadArrayLength (n : Z)
  | DivideByZero.

Inductive result (A : Type) : Type :=
  | Ok (a : A)
  | Fault (f : fault).
Arguments Ok {A} a.
Arguments Fault {A} f.

#[export] Instance result_ret : MRet result := fun A a => Ok a.
#[export] Instance result_bind : MBind result := fun A B f r =>
  match r with
  | Ok a => f a
  | Fault e => Fault e
  end.

Definition deref {A} (p : option A) : result A :=
  match p with
  | Some a => Ok a
  | None => Fault NullPointer
  end.

Definition idiv (a b : Z) : result Z :=
  if b =? 0 then Fault DivideByZero else Ok (wrap (Z.quot a b)).

(** ** Guarded arrays *)

(** [a[i]] as an rvalue. *)
Definition idx {A} (a : list A) (i : Z) : result A :=
  if (0 <=? i) && (i <? Z.of_nat (length a))
  then match a !! Z.to_nat i with
       | Some v => Ok v
       | None => Fault (OutOfRange i (length a))
       end
  else Fault (OutOfRange i (length a)).

(** [a[i] = v]. *)
Definition upd {A} (a : list A) (i : Z) (v : A) : result (list A) :=
  if (0 <=? i) && (i <? Z.of_nat (length a))
  then Ok (<[Z.to_nat i := v]> a)
  else Fault (OutOfRange i (length a)).

(** [new T[n]]: [n] elements of indeterminate content [junk]. *)
Definition new_array {A} (junk : A) (n : Z) : result (list A) :=
  if n <? 0 then Fault (BadArrayLength n) else Ok (replicate (Z.to_nat n) junk).

(** The three-level tables [T*** t], addressed [t[row][column][face]]. *)
Abbreviation table A := (list (list (list A))) (only parsing).

Definition rd3 {A} (t : table A) (row column face : Z) : result A :=
  r ← idx t row; c ← idx r column; idx c face.

Definition wr3 {A} (t : table A) (row column face : Z) (v : A)
  : result (table A) :=
  r ← idx t row;
  c ← idx r column;
  c' ← upd c face v;
  r' ← upd r column c';
  upd t row r'.

(** ** Counted loops *)

(** [n] iterations of [body], the counter starting at [i] and moving by
    [step] after each iteration. *)
Fixpoint iter_loop {S} (n : nat) (i step : Z) (body : Z -> S -> result S)
    (s : S) : result S :=
  match n with
  | O => Ok s
  | Datatypes.S n' => s' ← body i s; iter_loop n' (i + step) step body s'
  end.

(** [for (i = lo; i < hi; i++) body]. *)
Definition for_up {S} (lo hi : Z) (body : Z -> S -> result S) (s : S)
  : result S :=
  iter_loop (Z.to_nat (hi - lo)) lo 1 body s.

(** [for (i = hi; i > lo; i--) body]. *)
Definition for_down {S} (hi lo : Z) (body : Z -> S -> result S) (s : S)
  : result S :=
  iter_loop (Z.to_nat (hi - lo)) hi (-1) body s.

(** ** Position (Position.h, Position.cpp) *)

Record Position : Type := mkPosition { x_ : Z; y_ : Z; facing_ : Z }.

Definition GetLeftFacingOfThis (p : Position) : Position :=
  mkPosition (x_ p) (y_ p) (irem (iadd (facing_ p) 3) 4).

Definition GetRightFacingOfThis (p : Position) : Position :=
  mkPosition (x_ p) (y_ p) (irem (iadd (facing_ p) 1) 4).

Definition GetPositionLeftOfThis (p : Position) (steps : Z) : Position :=
  let '(xOffset, yOffset) :=
    match facing_ p with
    | 0 => (imul (-1) steps, 0)
    | 1 => (0, imul (-1) steps)
    | 2 => (steps, 0)
    | 3 => (0, steps)
    | _ => (0, 0)
    end in
  mkPosition (iadd (x_ p) xOffset) (iadd (y_ p) yOffset) (facing_ p).

Definition GetPositionRightOfThis (p : Position) (steps : Z) : Position :=
  let '(xOffset, yOffset) :=
    match facing_ p with
    | 0 => (steps, 0)
    | 1 => (0, steps)
    | 2 => (imul (-1) steps, 0)
    | 3 => (0, imul (-1) steps)
    | _ => (0, 0)
    end in
  mkPosition (iadd (x_ p) xOffset) (iadd (y_ p) yOffset) (facing_ p).

Definition GetPositionAheadOfThis (p : Position) (steps : Z) : Position :=
  let '(xOffset, yOffset) :=
    match facing_ p with
    | 0 => (0, imul (-1) steps)
    | 1 => (steps, 0)
    | 2 => (0, steps)
    | 3 => (imul (-1) steps, 0)
    | _ => (0, 0)
    end in
  mkPosition (iadd (x_ p) xOffset) (iadd (y_ p) yOffset) (facing_ p).

Definition GetPositionBehindThis (p : Position) (steps : Z) : Position :=
  let '(xOffset, yOffset) :=
    match facing_ p with
    | 0 => (0, steps)
    | 1 => (imul (-1) steps, 0)
    | 2 => (0, imul (-1) steps)
    | 3 => (steps, 0)
    | _ => (0, 0)
    end in
  mkPosition (iadd (x_ p) xOffset) (iadd (y_ p) yOffset) (facing_ p).

(** [dst->Copy(source)]: field-wise assignment; the result is the new
    content of [dst]. *)
Definition Copy (dst source : Position) : Position :=
  mkPosition (x_ source) (y_ source) (facing_ source).

Definition InBounds (p : Position) (left top right bottom : Z)
    (inclusive : bool) : bool :=
  if negb inclusive
  then (left <? x_ p) && (top <? y_ p) && (x_ p <? right) && (y_ p <? bottom)
  else (left <=? x_ p) && (top <=? y_ p) && (x_ p <=? right)
       && (y_ p <=? bottom).

(** ** Map (Map.h, Map.cpp) *)

Definition PLAYER_FACING_NORTH : Z := 0.
Definition PLAYER_FACING_SOUTH : Z := 2.
Definition PLAYER_FACING_EAST : Z := 1.
Definition PLAYER_FACING_WEST : Z := 3.

Definition WALL_FACING_EAST : Z := 1.
Definition WALL_FACING_WEST : Z := 3.
Definition WALL_FACING_NORTH : Z := 4.
Definition WALL_FACING_SOUTH : Z := 2.

Definition WALL_TYPE_BRICK : Z := 1.
Definition WALL_TYPE_STONE : Z := 2.
Definition WALL_TYPE_WOOD : Z := 3.
Definition WALL_TYPE_METAL : Z := 4.

Record Map : Type := mkMap {
  width_ : Z;
  height_ : Z;
  walls_ : option (table Z);
  passibility_ : option (table bool);
  startingPoints_ : option (list Position)
}.

(** [Map::Map()]. *)
Definition Map_ctor : Map := mkMap 0 0 None None None.

Definition GetWallForCoordinate (m : Map) (position : Position) : result Z :=
  if ((0 <=? x_ position) && (x_ position <? width_ m))
     && ((0 <=? y_ position) && (y_ position <? height_ m))
  then t ← deref (walls_ m);
       rd3 t (y_ position) (x_ position) (facing_ position)
  else Ok 0.

Definition CanPassWallForCoordinate (m : Map) (position : Position)
  : result bool :=
  if ((0 <=? x_ position) && (x_ position <? width_ m))
     && ((0 <=? y_ position) && (y_ position <? height_ m))
  then t ← deref (passibility_ m);
       rd3 t (y_ position) (x_ position) (facing_ position)
  else Ok false.

Definition GetStartingPoint (m : Map) (which : Z) : result Position :=
  match startingPoints_ m with
  | Some sp => if which <? 1 then idx sp which else Ok (mkPosition 0 0 0)
  | None => Ok (mkPosition 0 0 0)
  end.

(** Content of freshly allocated [int] and [bool] storage before it is
    initialised; chosen different from what STEP #6 of [ClearMap] stores. *)
Definition uninit_int : Z := -1.
Definition uninit_bool : bool := false.

(** STEP #1 / #3 of [ClearMap]: visit every row and cell pointer of the old
    table, under the current [height_] and [width_], to free it. *)
Definition release_table {A} (h w : Z) (t : table A) : result unit :=
  for_up 0 h (fun row _ =>
    r ← idx t row;
    for_up 0 w (fun column _ => _ ← idx r column; Ok ()) ()) ().

(** STEP #2 / #4 of [ClearMap]: [h] rows of [w] cells of 4 faces. *)
Definition alloc_table {A} (junk : A) (h w : Z) : result (table A) :=
  t0 ← new_array [] h;
  for_up 0 h (fun row t =>
    r0 ← new_array [] w;
    r ← for_up 0 w (fun column r =>
          c ← new_array junk 4; upd r column c) r0;
    upd t row r) t0.

(** STEP #6 of [ClearMap], the body of the column loop. *)
Definition init_cell (m : Map) (row column : Z)
    (s : table Z * table bool) : result (table Z * table bool) :=
  '(w, p) ← for_up 0 4 (fun depth '(w, p) =>
     w' ← wr3 w row column depth 0;
     p' ← wr3 p row column depth true;
     Ok (w', p')) s;
  p ← wr3 p row column 3 (if 0 =? column then false else true);
  p ← wr3 p row column 0 (if 0 =? row then false else true);
  p ← wr3 p row column 1
        (if isub (width_ m) 1 =? column then false else true);
  p ← wr3 p row column 2
        (if isub (height_ m) 1 =? row then false else true);
  Ok (w, p).

Definition ClearMap (m : Map) : result Map :=
  (* STEP #1 *)
  _ ← match walls_ m with
      | Some t => release_table (height_ m) (width_ m) t
      | None => Ok ()
      end;
  (* STEP #2 *)
  w ← alloc_table uninit_int (height_ m) (width_ m);
  (* STEP #3 *)
  _ ← match passibility_ m with
      | Some t => release_table (height_ m) (width_ m) t
      | None => Ok ()
      end;
  (* STEP #4 *)
  p ← alloc_table uninit_bool (height_ m) (width_ m);
  (* STEP #5 *)
  _ ← match startingPoints_ m with
      | Some sp => _ ← idx sp 0; Ok ()
      | None => Ok ()
      end;
  (* STEP #6 *)
  '(w, p) ← for_up 0 (height_ m) (fun row =>
               for_up 0 (width_ m) (fun column => init_cell m row column))
             (w, p);
  Ok (mkMap (width_ m) (height_ m) (Some w) (Some p) None).

Definition MakeNormalWall (m : Map) (position : Position) (wallID : Z)
  : result Map :=
  w ← deref (walls_ m);
  w ← wr3 w (y_ position) (x_ position) (facing_ position) wallID;
  p ← deref (passibility_ m);
  p ← wr3 p (y_ position) (x_ position) (facing_ position) false;
  let positionAhead :=
    Copy (mkPosition 0 0 0) (GetPositionAheadOfThis position 1) in
  if InBounds positionAhead 0 0 (width_ m) (height_ m) true
  then
    let newFacing := irem (iadd (facing_ position) 2) 4 in
    w ← wr3 w (y_ positionAhead) (x_ positionAhead) newFacing wallID;
    p ← wr3 p (y_ positionAhead) (x_ positionAhead) newFacing false;
    Ok (mkMap (width_ m) (height_ m) (Some w) (Some p) (startingPoints_ m))
  else
    Ok (mkMap (width_ m) (height_ m) (Some w) (Some p) (startingPoints_ m)).

Definition RemoveWall (m : Map) (position : Position) : result Map :=
  w ← deref (walls_ m);
  w ← wr3 w (y_ position) (x_ position) (facing_ position) 0;
  p ← deref (passibility_ m);
  p ← wr3 p (y_ position) (x_ position) (facing_ position) true;
  let positionAhead :=
    Copy (mkPosition 0 0 0) (GetPositionAheadOfThis position 1) in
  if InBounds positionAhead 0 0 (width_ m) (height_ m) true
  then
    let newFacing := irem (iadd (facing_ position) 2) 4 in
    w ← wr3 w (y_ positionAhead) (x_ positionAhead) newFacing 0;
    p ← wr3 p (y_ positionAhead) (x_ positionAhead) newFacing true;
    Ok (mkMap (width_ m) (height_ m) (Some w) (Some p) (startingPoints_ m))
  else
    Ok (mkMap (width_ m) (height_ m) (Some w) (Some p) (startingPoints_ m)).

Definition MakeFirstMockup (m : Map) : result Map :=
  (* a 10x10 map *)
  let m := mkMap 10 10 (walls_ m) (passibility_ m) (startingPoints_ m) in
  m ← ClearMap m;
  let m := mkMap (width_ m) (height_ m) (walls_ m) (passibility_ m)
             (Some [mkPosition 1 1 PLAYER_FACING_EAST]) in
  (* build walls all around the map border *)
  m ← for_up 0 (height_ m) (fun row m =>
        m ← MakeNormalWall m (mkPosition 0 row WALL_FACING_EAST)
              WALL_TYPE_STONE;
        MakeNormalWall m (mkPosition (isub (width_ m) 1) row WALL_FACING_WEST)
          WALL_TYPE_STONE) m;
  m ← for_up 0 (width_ m) (fun column m =>
        m ← MakeNormalWall m (mkPosition column 0 WALL_FACING_SOUTH)
              WALL_TYPE_STONE;
        MakeNormalWall m
          (mkPosition column (isub (height_ m) 1) WALL_FACING_NORTH)
          WALL_TYPE_STONE) m;
  (* create a corridor in the west edge of the map *)
  m ← for_up 2 (isub (width_ m) 2) (fun column m =>
        m ← MakeNormalWall m (mkPosition column 1 WALL_FACING_SOUTH)
              WALL_TYPE_STONE;
        MakeNormalWall m
          (mkPosition column (isub (height_ m) 2) WALL_FACING_SOUTH)
          WALL_TYPE_STONE) m;
  m ← for_up 2 (isub (height_ m) 1) (fun row m =>
        m ← MakeNormalWall m (mkPosition 1 row WALL_FACING_EAST)
              WALL_TYPE_STONE;
        MakeNormalWall m (mkPosition (isub (width_ m) 2) row WALL_FACING_WEST)
          WALL_TYPE_STONE) m;
  (* remove a wall half-way down the west inner wall *)
  RemoveWall m (mkPosition 2 (Z.quot (height_ m) 2) WALL_FACING_WEST).

Definition MakeMockup (m : Map) : result Map := MakeFirstMockup m.

Definition IsVisited (m : Map) (column row : Z) : bool := false.

Definition GetWidth (m : Map) : Z := width_ m.
Definition GetHeight (m : Map) : Z := height_ m.

(** ** GameState (GameState.h, GameState.cpp) *)

Record GameState : Type := mkGameState {
  currentMap_ : option Map;
  playerPosition_ : Position
}.

(** [GameState::GameState()]. *)
Definition GameState_ctor : GameState := mkGameState None (mkPosition 0 0 0).

Definition StartNewGame (gs : GameState) : result GameState :=
  m ← MakeMockup Map_ctor;
  start ← GetStartingPoint m 0;
  Ok (mkGameState (Some m) (Copy (playerPosition_ gs) start)).

Definition MovePlayerForward (gs : GameState) : result (bool * GameState) :=
  m ← deref (currentMap_ gs);
  pass ← CanPassWallForCoordinate m (playerPosition_ gs);
  if (pass : bool)
  then Ok (true, mkGameState (currentMap_ gs)
                   (Copy (playerPosition_ gs)
                      (GetPositionAheadOfThis (playerPosition_ gs) 1)))
  else Ok (false, gs).

Definition MovePlayerBack (gs : GameState) : result (bool * GameState) :=
  let tempPosition :=
    Copy (mkPosition 0 0 0)
      (GetLeftFacingOfThis (GetLeftFacingOfThis (playerPosition_ gs))) in
  m ← deref (currentMap_ gs);
  pass ← CanPassWallForCoordinate m tempPosition;
  if (pass : bool)
  then Ok (true, mkGameState (currentMap_ gs)
                   (Copy (playerPosition_ gs)
                      (GetPositionBehindThis (playerPosition_ gs) 1)))
  else Ok (false, gs).

Definition MovePlayerLeft (gs : GameState) : result (bool * GameState) :=
  let tempPosition :=
    Copy (mkPosition 0 0 0) (GetLeftFacingOfThis (playerPosition_ gs)) in
  m ← deref (currentMap_ gs);
  pass ← CanPassWallForCoordinate m tempPosition;
  if (pass : bool)
  then Ok (true, mkGameState (currentMap_ gs)
                   (Copy (playerPosition_ gs)
                      (GetPositionLeftOfThis (playerPosition_ gs) 1)))
  else Ok (false, gs).

Definition MovePlayerRight (gs : GameState) : result (bool * GameState) :=
  let tempPosition :=
    Copy (mkPosition 0 0 0) (GetRightFacingOfThis (playerPosition_ gs)) in
  m ← deref (currentMap_ gs);
  pass ← CanPassWallForCoordinate m tempPosition;
  if (pass : bool)
  then Ok (true, mkGameState (currentMap_ gs)
                   (Copy (playerPosition_ gs)
                      (GetPositionRightOfThis (playerPosition_ gs) 1)))
  else Ok (false, gs).

Definition TurnPlayerLeft (gs : GameState) : GameState :=
  mkGameState (currentMap_ gs)
    (Copy (playerPosition_ gs) (GetLeftFacingOfThis (playerPosition_ gs))).

Definition TurnPlayerRight (gs : GameState) : GameState :=
  mkGameState (currentMap_ gs)
    (Copy (playerPosition_ gs) (GetRightFacingOfThis (playerPosition_ gs))).

(** ** Drawing surface (the SDL calls the renderers make) *)

(** A loaded image, known by the file it was decoded from. *)
Inductive SDL_Surface : Type := Image (path : string).

Record SDL_Rect : Type := mkRect { rx : Z; ry : Z; rw : Z; rh : Z }.

Inductive Color : Type := RGB (r g b : Z).

Definition SDL_MapRGB (r g b : Z) : Color := RGB r g b.

(** What a target surface receives: [SDL_FillRect] (a null rectangle fills
    the whole surface) and [SDL_BlitSurface] of a whole image. *)
Inductive DrawCmd : Type :=
  | FillRect (rect : option SDL_Rect) (color : Color)
  | Blit (source : SDL_Surface) (x y : Z).

Definition SDL_FillRect (target : list DrawCmd) (rect : option SDL_Rect)
    (color : Color) : list DrawCmd :=
  target ++ [FillRect rect color].

(** [Engine::BlitSprite(source, target, destX, destY)]. *)
Definition BlitSprite (source : option SDL_Surface) (target : list DrawCmd)
    (destX destY : Z) : list DrawCmd :=
  match source with
  | None => target
  | Some s => target ++ [Blit s (to_sint16 destX) (to_sint16 destY)]
  end.

(** ** WallSpriteSet (WallSpriteSet.h, WallSpriteSet.cpp) *)

Record WallSpriteSet : Type := mkWallSpriteSet {
  frontImages_ : list (option SDL_Surface);
  leftImages_ : list (option SDL_Surface);
  rightImages_ : list (option SDL_Surface);
  visibleDepth_ : Z
}.

(** [sprintf(buffer, "%s<tag>%d.png", rootPath, index)] into
    [char buffer[0x100]]. *)
Definition sprintf_path (rootPath tag : string) (index : Z) : result string :=
  let s := rootPath +:+ tag +:+ pretty index +:+ ".png" in
  if Z.of_nat (String.length s) <? 256
  then Ok s
  else Fault (OutOfRange 256 256).

(** [WallSpriteSet::WallSpriteSet(rootPath)]; [load] is
    [Engine::LoadImageResource], which answers null for a file it cannot
    decode. *)
Definition WallSpriteSet_ctor (load : string -> option SDL_Surface)
    (rootPath : string) : result WallSpriteSet :=
  let visibleDepth := 3 in
  front ← new_array None visibleDepth;
  left ← new_array None visibleDepth;
  right ← new_array None visibleDepth;
  '(front, left, right) ←
    for_up 0 visibleDepth (fun index '(front, left, right) =>
      buffer ← sprintf_path rootPath "f" index;
      front ← upd front index (load buffer);
      buffer ← sprintf_path rootPath "l" index;
      left ← upd left index (load buffer);
      buffer ← sprintf_path rootPath "r" index;
      right ← upd right index (load buffer);
      Ok (front, left, right)) (front, left, right);
  Ok (mkWallSpriteSet front left right visibleDepth).

Definition GetFrontImage (s : WallSpriteSet) (range : Z)
  : result (option SDL_Surface) :=
  if range >? visibleDepth_ s then Ok None else idx (frontImages_ s) range.

Definition GetLeftImage (s : WallSpriteSet) (range : Z)
  : result (option SDL_Surface) :=
  if range >? visibleDepth_ s then Ok None else idx (leftImages_ s) range.

Definition GetRightImage (s : WallSpriteSet) (range : Z)
  : result (option SDL_Surface) :=
  if range >? visibleDepth_ s then Ok None else idx (rightImages_ s) range.

(** ** ArtManager (ArtManager.h, ArtManager.cpp) *)

Record ArtManager : Type := mkArtManager {
  allArtLoadedSuccessfully_ : bool;
  allWallSprites_ : list WallSpriteSet
}.

Definition LoadArt (load : string -> option SDL_Surface) (a : ArtManager)
  : result (bool * ArtManager) :=
  s1 ← WallSpriteSet_ctor load "resources/first_wall/";
  s2 ← WallSpriteSet_ctor load "resources/stone_wall/";
  s3 ← WallSpriteSet_ctor load "resources/wood_wall/";
  s4 ← WallSpriteSet_ctor load "resources/metal_wall/";
  Ok (true, mkArtManager (allArtLoadedSuccessfully_ a)
              (allWallSprites_ a ++ [s1] ++ [s2] ++ [s3] ++ [s4])).

Definition ArtManager_ctor (load : string -> option SDL_Surface)
  : result ArtManager :=
  '(loaded, a) ← LoadArt load (mkArtManager false []);
  Ok (mkArtManager loaded (allWallSprites_ a)).

(** The argument is an [int] wall number received as [unsigned int]. *)
Definition GetWallSetNumber (a : ArtManager) (which : Z)
  : option WallSpriteSet :=
  let which := to_unsigned which in
  if (0 <? which) && (which <=? Z.of_nat (length (allWallSprites_ a)))
  then allWallSprites_ a !! Z.to_nat (which - 1)
  else None.

(** The offset tables hold whole numbers; the single-precision products are
    exact for the lateral offsets -1, 0 and 1 the renderer uses, so the
    value converted back to [int] is the one computed here. *)
Definition GetXOffsetCenter (range offset : Z) : Z :=
  (if 0 =? range then 6 + offset * 63
   else if 1 =? range then 17 + offset * 41
   else if 2 =? range then 23 + offset * 29
   else 0) * 4.

Definition GetXOffsetLeft (range offset : Z) : Z :=
  (if 0 =? range then 0 else if 1 =? range then 6
   else if 2 =? range then 17 else 0) * 4.

Definition GetXOffsetRight (range offset : Z) : Z :=
  (if 0 =? range then 69 else if 1 =? range then 58
   else if 2 =? range then 52 else 0) * 4.

Definition GetYOffsetCenter (range offset : Z) : Z :=
  (if 0 =? range then 8 else if 1 =? range then 23
   else if 2 =? range then 32 else 0) * 4.

Definition GetYOffsetLeft (range offset : Z) : Z :=
  (if 0 =? range then 0 else if 1 =? range then 8
   else if 2 =? range then 23 else 0) * 4.

Definition GetYOffsetRight (range offset : Z) : Z :=
  (if 0 =? range then 0 else if 1 =? range then 8
   else if 2 =? range then 23 else 0) * 4.

(** ** MapView (MapView.h, MapView.cpp) *)

Record MapView : Type := mkMapView {
  artManager_ : ArtManager;
  viewWidth_ : Z;
  viewHeight_ : Z
}.

Definition MapView_ctor (artManager : ArtManager) : MapView :=
  mkMapView artManager 300 400.

(** [static_cast<int>(0.k f * static_cast<float>(v))] for k = 6 and 4: the
    single-precision products for [viewHeight_ = 400] are 240.00002 and
    160.0, truncated to the values this quotient gives. *)
Definition scale_tenths (k v : Z) : Z := Z.quot (k * v) 10.

Definition DrawSky (v : MapView) (target : list DrawCmd) : list DrawCmd :=
  let skyRect :=
    mkRect 0 0 (to_uint16 (viewWidth_ v))
      (to_uint16 (scale_tenths 6 (viewHeight_ v))) in
  SDL_FillRect target (Some skyRect) (SDL_MapRGB 77 130 229).

Definition DrawGround (v : MapView) (target : list DrawCmd) : list DrawCmd :=
  let groundRect :=
    mkRect 0 (to_sint16 (scale_tenths 6 (viewHeight_ v)))
      (to_uint16 (viewWidth_ v))
      (to_uint16 (scale_tenths 4 (viewHeight_ v))) in
  SDL_FillRect target (Some groundRect) (SDL_MapRGB 16 80 30).

Definition DrawLeftWall (v : MapView) (currentMap : Map)
    (currentPosition : Position) (range offset : Z) (target : list DrawCmd)
  : result (list DrawCmd) :=
  nextWallNumber ←
    GetWallForCoordinate currentMap (GetLeftFacingOfThis currentPosition);
  match GetWallSetNumber (artManager_ v) nextWallNumber with
  | Some nextSet =>
      nextImage ← GetLeftImage nextSet range;
      match nextImage with
      | Some image =>
          Ok (BlitSprite (Some image) target (GetXOffsetLeft range offset)
                (GetYOffsetLeft range offset))
      | None => Ok target
      end
  | None => Ok target
  end.

Definition DrawRightWall (v : MapView) (currentMap : Map)
    (currentPosition : Position) (range offset : Z) (target : list DrawCmd)
  : result (list DrawCmd) :=
  nextWallNumber ←
    GetWallForCoordinate currentMap (GetRightFacingOfThis currentPosition);
  match GetWallSetNumber (artManager_ v) nextWallNumber with
  | Some nextSet =>
      nextImage ← GetRightImage nextSet range;
      match nextImage with
      | Some image =>
          Ok (BlitSprite (Some image) target (GetXOffsetRight range offset)
                (GetYOffsetRight range offset))
      | None => Ok target
      end
  | None => Ok target
  end.

Definition DrawStraightWall (v : MapView) (currentMap : Map)
    (currentPosition : Position) (range offset : Z) (target : list DrawCmd)
  : result (list DrawCmd) :=
  nextWallNumber ← GetWallForCoordinate currentMap currentPosition;
  match GetWallSetNumber (artManager_ v) nextWallNumber with
  | Some nextSet =>
      nextImage ← GetFrontImage nextSet range;
      match nextImage with
      | Some image =>
          Ok (BlitSprite (Some image) target (GetXOffsetCenter range offset)
                (GetYOffsetCenter range offset))
      | None => Ok target
      end
  | None => Ok target
  end.

Definition DrawDistRank (v : MapView) (currentMap : Map)
    (currentPosition : Position) (range offset : Z) (target : list DrawCmd)
  : result (list DrawCmd) :=
  let basePoint :=
    Copy (mkPosition 0 0 0) (GetPositionAheadOfThis currentPosition range) in
  (* draw to the left *)
  target ← for_up (imul (-1) offset) 0 (fun index target =>
    let pointToDraw :=
      Copy (mkPosition 0 0 0)
        (GetPositionLeftOfThis basePoint (imul (-1) index)) in
    DrawStraightWall v currentMap pointToDraw range index target) target;
  (* draw to the right *)
  target ← for_down offset 0 (fun index target =>
    let pointToDraw :=
      Copy (mkPosition 0 0 0) (GetPositionRightOfThis basePoint index) in
    DrawStraightWall v currentMap pointToDraw range index target) target;
  (* draw dead center *)
  target ← DrawLeftWall v currentMap basePoint range 0 target;
  target ← DrawRightWall v currentMap basePoint range 0 target;
  DrawStraightWall v currentMap basePoint range 0 target.

Definition RenderMap (v : MapView) (target : list DrawCmd) (currentMap : Map)
    (currentPosition : Position) : result (list DrawCmd) :=
  let target := DrawSky v target in
  let target := DrawGround v target in
  target ← DrawDistRank v currentMap currentPosition 2 1 target;
  target ← DrawDistRank v currentMap currentPosition 1 1 target;
  DrawDistRank v currentMap currentPosition 0 1 target.

(** ** MiniMap (MiniMap.h, MiniMap.cpp) *)

(** The mini-map surface is known by the commands drawn on it. *)
Record MiniMap : Type := mkMiniMap {
  mm_currentMap_ : option Map;
  miniMapSurface_ : option (list DrawCmd);
  mm_width_ : Z;
  mm_height_ : Z
}.

Definition playerCellColor : Color := SDL_MapRGB 255 255 0.
Definition notVisitedCellColor : Color := SDL_MapRGB 32 32 32.
Definition visitedCellColor : Color := SDL_MapRGB 0 128 0.

(** The rectangle computed for a cell. *)
Definition cell_box (mapCellWidth mapCellHeight column row : Z) : SDL_Rect :=
  let x := to_sint16 (imul column mapCellWidth) in
  let y := to_sint16 (imul row mapCellHeight) in
  mkRect x y (to_uint16 (iadd x mapCellWidth))
    (to_uint16 (iadd y mapCellHeight)).

(** The branch [RecreateMiniMapSurface] takes to colour a cell. *)
Definition cell_color (currentMap : Map) (playerX playerZ column row : Z)
  : Color :=
  if IsVisited currentMap column row
  then if (row =? playerZ) && (column =? playerX)
       then playerCellColor
       else visitedCellColor
  else notVisitedCellColor.

(** [created] says whether [SDL_CreateRGBSurface] succeeds when the surface
    does not exist yet; [gs] is the game state reached through the global
    engine instance. *)
Definition RecreateMiniMapSurface (created : bool) (gs : GameState)
    (mm : MiniMap) : result MiniMap :=
  let surface :=
    match miniMapSurface_ mm with
    | Some s => Some s
    | None => if created then Some [] else None
    end in
  match surface with
  | None => Ok mm
  | Some s =>
      currentMap ← deref (mm_currentMap_ mm);
      let mapWidth := GetWidth currentMap in
      let mapHeight := GetHeight currentMap in
      mapCellWidth ← idiv (mm_width_ mm) mapWidth;
      mapCellHeight ← idiv (mm_height_ mm) mapHeight;
      let playerZ := y_ (playerPosition_ gs) in
      let playerX := x_ (playerPosition_ gs) in
      (* clear mini-map *)
      let s := SDL_FillRect s None (SDL_MapRGB 0 0 0) in
      (* draw cells *)
      s ← for_up 0 mapHeight (fun row =>
            for_up 0 mapWidth (fun column s =>
              let box := cell_box mapCellWidth mapCellHeight column row in
              Ok (SDL_FillRect s (Some box)
                    (cell_color currentMap playerX playerZ column row)))) s;
      Ok (mkMiniMap (mm_currentMap_ mm) (Some s) (mm_width_ mm)
            (mm_height_ mm))
  end.

Definition SetMap (sourceMap : option Map) (mm : MiniMap) : MiniMap :=
  mkMiniMap sourceMap (miniMapSurface_ mm) (mm_width_ mm) (mm_height_ mm).

Definition MiniMap_ctor (created : bool) (gs : GameState)
    (sourceMap : option Map) (width height : Z) : result MiniMap :=
  let width := if width <=? 0 then 1 else width in
  let height := if height <=? 0 then 1 else height in
  RecreateMiniMapSurface created gs
    (SetMap sourceMap (mkMiniMap None None width height)).

Definition Update (created : bool) (gs : GameState) (mm : MiniMap)
  : result MiniMap :=
  RecreateMiniMapSurface created gs mm.

(** ** Further operations of the same classes *)

(** [ArtManager::DidArtLoadSuccessfully]. *)
Definition DidArtLoadSuccessfully (a : ArtManager) : bool :=
  allArtLoadedSuccessfully_ a.

(** The classes as the single-file build of the game has them.  Its
    [Map::MakeNormalWall] tests the neighbouring cell against the grid
    itself instead of calling [InBounds]. *)
Module SingleFile.

Definition MakeNormalWall (m : Map) (position : Position) (wallID : Z)
  : result Map :=
  w ← deref (walls_ m);
  w ← wr3 w (y_ position) (x_ position) (facing_ position) wallID;
  p ← deref (passibility_ m);
  p ← wr3 p (y_ position) (x_ position) (facing_ position) false;
  let positionAhead := GetPositionAheadOfThis position 1 in
  if ((0 <=? x_ positionAhead) && (x_ positionAhead <? width_ m))
     && ((0 <=? y_ positionAhead) && (y_ positionAhead <? height_ m))
  then
    let newFacing := irem (iadd (facing_ position) 2) 4 in
    w ← wr3 w (y_ positionAhead) (x_ positionAhead) newFacing wallID;
    p ← wr3 p (y_ positionAhead) (x_ positionAhead) newFacing false;
    Ok (mkMap (width_ m) (height_ m) (Some w) (Some p) (startingPoints_ m))
  else
    Ok (mkMap (width_ m) (height_ m) (Some w) (Some p) (startingPoints_ m)).

End SingleFile.

(** ** The face stores as the machine performs them *)

(** [t[row][column][face] = v] without the guard on the face.  C++ checks no
    index.  Rows and cells are reached through pointers of the table, and an
    index outside them is a fault as in [wr3].  The cell is [new T[4]]:
    element 4 lies one past its last face, outside the table; the store
    there is made, and every face of every cell of the table is as it
    was.  This describes the executions in which that element is storage of
    no other object of the game. *)
Definition wr3_unchecked {A} (t : table A) (row column face : Z) (v : A)
  : result (table A) :=
  r ← idx t row;
  c ← idx r column;
  if face =? Z.of_nat (length c) then Ok t else wr3 t row column face v.

(** [MakeNormalWall], [RemoveWall], [MakeFirstMockup] and [StartNewGame]
    once more, line by line as above, with the stores whose face index is
    the [facing_] of a caller's position left open: [store] is what such a
    store does to a table. *)
Module ByStore.
Section Store.

Variable store :
  forall A : Type, table A -> Z -> Z -> Z -> A -> result (table A).

Definition MakeNormalWall (m : Map) (position : Position) (wallID : Z)
  : result Map :=
  w ← deref (walls_ m);
  w ← store Z w (y_ position) (x_ position) (facing_ position) wallID;
  p ← deref (passibility_ m);
  p ← store bool p (y_ position) (x_ position) (facing_ position) false;
  let positionAhead :=
    Copy (mkPosition 0 0 0) (GetPositionAheadOfThis position 1) in
  if InBounds positionAhead 0 0 (width_ m) (height_ m) true
  then
    let newFacing := irem (iadd (facing_ position) 2) 4 in
    w ← store Z w (y_ positionAhead) (x_ positionAhead) newFacing wallID;
    p ← store bool p (y_ positionAhead) (x_ positionAhead) newFacing false;
    Ok (mkMap (width_ m) (height_ m) (Some w) (Some p) (startingPoints_ m))
  else
    Ok (mkMap (width_ m) (height_ m) (Some w) (Some p) (startingPoints_ m)).

Definition RemoveWall (m : Map) (position : Position) : result Map :=
  w ← deref (walls_ m);
  w ← store Z w (y_ position) (x_ position) (facing_ position) 0;
  p ← deref (passibility_ m);
  p ← store bool p (y_ position) (x_ position) (facing_ position) true;
  let positionAhead :=
    Copy (mkPosition 0 0 0) (GetPositionAheadOfThis position 1) in
  if InBounds positionAhead 0 0 (width_ m) (height_ m) true
  then
    let newFacing := irem (iadd (facing_ position) 2) 4 in
    w ← store Z w (y_ positionAhead) (x_ positionAhead) newFacing 0;
    p ← store bool p (y_ positionAhead) (x_ positionAhead) newFacing true;
    Ok (mkMap (width_ m) (height_ m) (Some w) (Some p) (startingPoints_ m))
  else
    Ok (mkMap (width_ m) (height_ m) (Some w) (Some p) (startingPoints_ m)).

Definition MakeFirstMockup (m : Map) : result Map :=
  (* a 10x10 map *)
  let m := mkMap 10 10 (walls_ m) (passibility_ m) (startingPoints_ m) in
  m ← ClearMap m;
  let m := mkMap (width_ m) (height_ m) (walls_ m) (passibility_ m)
             (Some [mkPosition 1 1 PLAYER_FACING_EAST]) in
  (* build walls all around the map border *)
  m ← for_up 0 (height_ m) (fun row m =>
        m ← MakeNormalWall m (mkPosition 0 row WALL_FACING_EAST)
              WALL_TYPE_STONE;
        MakeNormalWall m (mkPosition (isub (width_ m) 1) row WALL_FACING_WEST)
          WALL_TYPE_STONE) m;
  m ← for_up 0 (width_ m) (fun column m =>
        m ← MakeNormalWall m (mkPosition column 0 WALL_FACING_SOUTH)
              WALL_TYPE_STONE;
        MakeNormalWall m
          (mkPosition column (isub (height_ m) 1) WALL_FACING_NORTH)
          WALL_TYPE_STONE) m;
  (* create a corridor in the west edge of the map *)
  m ← for_up 2 (isub (width_ m) 2) (fun column m =>
        m ← MakeNormalWall m (mkPosition column 1 WALL_FACING_SOUTH)
              WALL_TYPE_STONE;
        MakeNormalWall m
          (mkPosition column (isub (height_ m) 2) WALL_FACING_SOUTH)
          WALL_TYPE_STONE) m;
  m ← for_up 2 (isub (height_ m) 1) (fun row m =>
        m ← MakeNormalWall m (mkPosition 1 row WALL_FACING_EAST)
              WALL_TYPE_STONE;
        MakeNormalWall m (mkPosition (isub (width_ m) 2) row WALL_FACING_WEST)
          WALL_TYPE_STONE) m;
  (* remove a wall half-way down the west inner wall *)
  RemoveWall m (mkPosition 2 (Z.quot (height_ m) 2) WALL_FACING_WEST).

Definition MakeMockup (m : Map) : result Map := MakeFirstMockup m.

Definition StartNewGame (gs : GameState) : result GameState :=
  m ← MakeMockup Map_ctor;
  start ← GetStartingPoint m 0;
  Ok (mkGameState (Some m) (Copy (playerPosition_ gs) start)).

End Store.
End ByStore.

(** ** BitmapFont (BitmapFont.h and its implementation) *)

(** [BITFNT_MAX_STRING_LENGTH]. *)
Definition BITFNT_MAX_STRING_LENGTH : Z := 1024.

Record BitmapFont : Type := mkBitmapFont {
  fontImage_ : option SDL_Surface;
  letterWidth_ : Z;
  letterHeight_ : Z;
  spacing_ : Z
}.

(** [BitmapFont::Load(filePath, letterWidth, letterHeight, spacing)]: the
    answer and the font afterwards. *)
Definition Load (load : string -> option SDL_Surface) (font : BitmapFont)
    (filePath : string) (letterWidth letterHeight spacing : Z)
  : bool * BitmapFont :=
  match load filePath with
  | None => (false, mkBitmapFont None (letterWidth_ font)
                      (letterHeight_ font) (spacing_ font))
  | Some image => (true, mkBitmapFont (Some image) letterWidth letterHeight
                           spacing)
  end.

(** What [Engine::Blit(source, target, srcX, srcY, destX, destY, width,
    height)] sends to the target: a rectangle of the source and where it
    goes. *)
Record RectBlit : Type := mkRectBlit {
  blit_source : SDL_Surface;
  blit_rect : SDL_Rect;
  blit_destX : Z;
  blit_destY : Z
}.

Definition Blit_rect (source : option SDL_Surface) (target : list RectBlit)
    (srcX srcY destX destY width height : Z) : list RectBlit :=
  match source with
  | None => target
  | Some s =>
      target ++ [mkRectBlit s
                   (mkRect (to_sint16 srcX) (to_sint16 srcY)
                      (to_uint16 width) (to_uint16 height))
                   (to_sint16 destX) (to_sint16 destY)]
  end.

(** [strlen]: the characters before the first terminator. *)
Fixpoint until_nul (buffer : list Z) : list Z :=
  match buffer with
  | [] => []
  | c :: rest => if c =? 0 then [] else c :: until_nul rest
  end.

(** The characters [Print] walks over: what [vsnprintf] wrote into
    [textBuffer] for a buffer size of [BITFNT_MAX_STRING_LENGTH - 1] (one
    byte of which is the terminator), up to [strlen].  [formatted] is the
    expansion of the format, one [char] value per element. *)
Definition textBuffer_of (formatted : list Z) : list Z :=
  until_nul (take (Z.to_nat (BITFNT_MAX_STRING_LENGTH - 1 - 1)) formatted).

(** The body of the loop of [Print]: the cursor and the destination after
    one character. *)
Definition print_char (font : BitmapFont) (originX : Z)
    (st : Z * Z * list RectBlit) (c : Z) : Z * Z * list RectBlit :=
  let '(cursorX, cursorY, destination) := st in
  let tabSize :=
    iadd (imul 8 (letterWidth_ font)) (imul 7 (spacing_ font)) in
  if c =? 10 then
    (originX, iadd (iadd cursorY (letterHeight_ font)) (spacing_ font),
     destination)
  else if c =? 9 then
    (iadd cursorX tabSize, cursorY, destination)
  else
    let letter := c in
    let letterX := imul (Z.quot letter 16) (letterWidth_ font) in
    let letterY := imul (Z.rem letter 16) (letterHeight_ font) in
    (iadd (iadd cursorX (letterWidth_ font)) (spacing_ font), cursorY,
     Blit_rect (fontImage_ font) destination letterX letterY cursorX cursorY
       (letterWidth_ font) (letterHeight_ font)).

(** [BitmapFont::Print(destination, x, y, text, ...)]. *)
Definition Print (font : BitmapFont) (destination : list RectBlit)
    (x y : Z) (formatted : list Z) : list RectBlit :=
  match fontImage_ font with
  | None => destination
  | Some _ =>
      snd (fold_left (print_char font x) (textBuffer_of formatted)
             (x, y, destination))
  end.

(** * Representation invariants and vocabulary of the statements *)

(** The tables are [h] rows of [w] cells of four faces. *)
Definition shaped {A} (h w : Z) (t : table A) : Prop :=
  Z.of_nat (length t) = h
  /\ Forall (fun r => Z.of_nat (length r) = w
                      /\ Forall (fun c => length c = 4%nat) r) t.

Definition shapeb {A} (h w : Z) (t : table A) : bool :=
  (Z.of_nat (length t) =? h)
  && forallb (fun r => (Z.of_nat (length r) =? w)
                       && forallb (fun c => Nat.eqb (length c) 4) r) t.

(** A built map: dimensions that fit an [int] and both tables allocated
    for them, as [ClearMap] leaves them. *)
Definition wf_map (m : Map) : Prop :=
  0 <= width_ m <= INT_MAX /\ 0 <= height_ m <= INT_MAX
  /\ exists w p, walls_ m = Some w /\ passibility_ m = Some p
       /\ shaped (height_ m) (width_ m) w
       /\ shaped (height_ m) (width_ m) p.

Definition wf_mapb (m : Map) : bool :=
  (0 <=? width_ m) && (width_ m <=? INT_MAX)
  && (0 <=? height_ m) && (height_ m <=? INT_MAX)
  && match walls_ m with
     | Some w => shapeb (height_ m) (width_ m) w
     | None => false
     end
  && match passibility_ m with
     | Some p => shapeb (height_ m) (width_ m) p
     | None => false
     end.

(** A position names a cell of the grid. *)
Definition in_grid (m : Map) (p : Position) : Prop :=
  0 <= x_ p < width_ m /\ 0 <= y_ p < height_ m.

(** The unit displacement of each facing: North is up the rows. *)
Definition facing_dx (f : Z) : Z :=
  match f with 1 => 1 | 3 => -1 | _ => 0 end.
Definition facing_dy (f : Z) : Z :=
  match f with 0 => -1 | 2 => 1 | _ => 0 end.

(** The outward-facing border faces of a [w] x [h] grid. *)
Definition is_border_face (w h x y f : Z) : bool :=
  ((f =? 3) && (x =? 0)) || ((f =? 0) && (y =? 0))
  || ((f =? 1) && (x =? w - 1)) || ((f =? 2) && (y =? h - 1)).

(** What [ClearMap] may be called on: dimensions that fit an [int], and
    old tables (if any) allocated for these same dimensions, since STEP #1
    and #3 walk them under the current [height_] and [width_]. *)
Definition table_reclaimable {A} (h w : Z) (o : option (table A)) : Prop :=
  match o with
  | None => True
  | Some t => shaped h w t
  end.

Definition clearable (m : Map) : Prop :=
  0 <= width_ m <= INT_MAX /\ 0 <= height_ m <= INT_MAX
  /\ table_reclaimable (height_ m) (width_ m) (walls_ m)
  /\ table_reclaimable (height_ m) (width_ m) (passibility_ m)
  /\ match startingPoints_ m with
     | Some [] => False
     | _ => True
     end.

(** A sprite set as the constructor leaves it: three arrays of
    [visibleDepth_] = 3 slots. *)
Definition wf_set (s : WallSpriteSet) : Prop :=
  visibleDepth_ s = 3
  /\ length (frontImages_ s) = 3%nat
  /\ length (leftImages_ s) = 3%nat
  /\ length (rightImages_ s) = 3%nat.

(** The file name the constructor asks the loader for. *)
Definition image_path (rootPath tag : string) (index : Z) : string :=
  rootPath +:+ tag +:+ pretty index +:+ ".png".

(** Two loaders: every file decodes, and no file decodes. *)
Definition load_all (path : string) : option SDL_Surface := Some (Image path).
Definition load_none (path : string) : option SDL_Surface := None.

(** The sprite set built when every image failed to load. *)
Definition failed_set : WallSpriteSet :=
  Eval vm_compute in
    match WallSpriteSet_ctor load_none "resources/first_wall/" with
    | Ok s => s
    | Fault _ => mkWallSpriteSet [] [] [] 0
    end.




(** An art catalog whose sprite sets are as their constructor leaves them. *)
Definition wf_art (a : ArtManager) : Prop := Forall wf_set (allWallSprites_ a).



(** The catalog loaded when no image file can be decoded. *)
Definition failed_art : ArtManager :=
  Eval vm_compute in
    match ArtManager_ctor load_none with
    | Ok a => a
    | Fault _ => mkArtManager false []
    end.

(** A cleared 3 x 3 map, used to instantiate the statements. *)
Definition demo_map : Map :=
  Eval vm_compute in
    match ClearMap (mkMap 3 3 None None None) with
    | Ok m => m
    | Fault _ => Map_ctor
    end.

(** The colouring rule of the mini-map as the specification words it:
    the player first, then visited, then unvisited. *)
Definition spec_cell_color (currentMap : Map)
    (playerX playerZ column row : Z) : Color :=
  if (row =? playerZ) && (column =? playerX) then playerCellColor
  else if IsVisited currentMap column row then visitedCellColor
  else notVisitedCellColor.

(** The surface a mini-map draws on: the one it has, or the one created. *)
Definition surface_ready (created : bool) (mm : MiniMap)
    (s : list DrawCmd) : Prop :=
  miniMapSurface_ mm = Some s
  \/ (miniMapSurface_ mm = None /\ created = true /\ s = []).

(** A game on the cleared 3 x 3 map with the player in the middle cell,
    and the 140 x 140 mini-map of the engine over it. *)
Definition demo_gs : GameState :=
  mkGameState (Some demo_map) (mkPosition 1 1 PLAYER_FACING_EAST).

Definition demo_minimap : MiniMap := mkMiniMap (Some demo_map) None 140 140.

(** ** Vocabulary of the further properties *)

Definition same_face (a b : Position) : bool :=
  (x_ a =? x_ b) && (y_ a =? y_ b) && (facing_ a =? facing_ b).

(** The face on the other side of the wall a position looks at. *)
Definition opposite (p : Position) : Position :=
  mkPosition (x_ (GetPositionAheadOfThis p 1))
    (y_ (GetPositionAheadOfThis p 1)) ((facing_ p + 2) mod 4).

(** The faces [MakeNormalWall] and [RemoveWall] store to when called at
    [p]. *)
Definition touched (p q : Position) : bool :=
  same_face p q || same_face (opposite p) q.

Definition valid_facing (p : Position) : Prop := 0 <= facing_ p < 4.

(** No passage through an outward-facing border face. *)
Definition border_closed (m : Map) : Prop :=
  forall p, in_grid m p -> valid_facing p ->
    is_border_face (width_ m) (height_ m) (x_ p) (y_ p) (facing_ p) = true ->
    CanPassWallForCoordinate m p = Ok false.

(** A face between two grid cells is passable from both sides or from
    neither. *)
Definition pass_symmetric (m : Map) : Prop :=
  forall p, in_grid m p -> valid_facing p ->
    in_grid m (GetPositionAheadOfThis p 1) ->
    CanPassWallForCoordinate m p = CanPassWallForCoordinate m (opposite p).

(** [MakeNormalWall] and [RemoveWall] are the same sequence of stores with
    different values: [wallValue] in [walls_], [passValue] in
    [passibility_]. *)
Definition store_wall (m : Map) (position : Position) (wallValue : Z)
    (passValue : bool) : result Map :=
  w ← deref (walls_ m);
  w ← wr3 w (y_ position) (x_ position) (facing_ position) wallValue;
  p ← deref (passibility_ m);
  p ← wr3 p (y_ position) (x_ position) (facing_ position) passValue;
  let positionAhead :=
    Copy (mkPosition 0 0 0) (GetPositionAheadOfThis position 1) in
  if InBounds positionAhead 0 0 (width_ m) (height_ m) true
  then
    let newFacing := irem (iadd (facing_ position) 2) 4 in
    w ← wr3 w (y_ positionAhead) (x_ positionAhead) newFacing wallValue;
    p ← wr3 p (y_ positionAhead) (x_ positionAhead) newFacing passValue;
    Ok (mkMap (width_ m) (height_ m) (Some w) (Some p) (startingPoints_ m))
  else
    Ok (mkMap (width_ m) (height_ m) (Some w) (Some p) (startingPoints_ m)).

(** The cleared 3 x 3 map with one stone wall east of the middle cell. *)
Definition demo_walled : Map :=
  Eval vm_compute in
    match MakeNormalWall demo_map (mkPosition 1 1 WALL_FACING_EAST)
            WALL_TYPE_STONE with
    | Ok m => m
    | Fault _ => Map_ctor
    end.

(** A drawing step that only appends to its target, the same commands
    whatever the target holds. *)
Definition appender (f : list DrawCmd -> result (list DrawCmd)) : Prop :=
  forall target, f target = (cmds ← f []; Ok (target ++ cmds)).

(** The catalog loaded when every image file decodes, and the frame drawn
    for the player of the demo game facing the stone wall. *)
Definition demo_art : ArtManager :=
  Eval vm_compute in
    match ArtManager_ctor load_all with
    | Ok a => a
    | Fault _ => mkArtManager false []
    end.

Definition demo_frame : list DrawCmd :=
  Eval vm_compute in
    match RenderMap (MapView_ctor demo_art) [] demo_walled
            (mkPosition 1 1 PLAYER_FACING_EAST) with
    | Ok cmds => cmds
    | Fault _ => []
    end.

(** A character [Print] draws: not the terminator, a tab or a newline. *)
Definition printable (c : Z) : Prop := c <> 0 /\ c <> 9 /\ c <> 10.

(** The blit of the letter [c] of a font at a place of the destination: the
    cell of the font image in column [c / 16] and row [c % 16]. *)
Definition glyph (font : BitmapFont) (image : SDL_Surface) (c : Z)
    (destX destY : Z) : RectBlit :=
  mkRectBlit image
    (mkRect (to_sint16 (Z.quot c 16 * letterWidth_ font))
       (to_sint16 (Z.rem c 16 * letterHeight_ font))
       (to_uint16 (letterWidth_ font)) (to_uint16 (letterHeight_ font)))
    (to_sint16 destX) (to_sint16 destY).

(** A font of 8 x 8 letters set one pixel apart. *)
Definition demo_font : BitmapFont :=
  mkBitmapFont (Some (Image "font.png")) 8 8 1.

(** * Properties *)

(** ** Machine integers *)

Lemma wrap_id (z : Z) : int_range z -> wrap z = z.
Proof.
  unfold int_range, INT_MIN, INT_MAX, wrap. intros H.
  rewrite Z.mod_small; lia.
Qed.

Lemma wrap_mod (z : Z) : wrap z mod 2 ^ 32 = z mod 2 ^ 32.
Proof.
  unfold wrap. rewrite Zminus_mod_idemp_l. f_equal. lia.
Qed.

Lemma wrap_congr (a b : Z) : a mod 2 ^ 32 = b mod 2 ^ 32 -> wrap a = wrap b.
Proof.
  intros H. unfold wrap.
  rewrite (Zplus_mod a), (Zplus_mod b), H. reflexivity.
Qed.

Lemma wrap_add_l (a b : Z) : wrap (wrap a + b) = wrap (a + b).
Proof.
  apply wrap_congr.
  rewrite <- Zplus_mod_idemp_l, wrap_mod, Zplus_mod_idemp_l. reflexivity.
Qed.

Lemma wrap_add_r (a b : Z) : wrap (a + wrap b) = wrap (a + b).
Proof. rewrite (Z.add_comm a), wrap_add_l. f_equal. lia. Qed.

Lemma wrap_range (z : Z) : int_range (wrap z).
Proof.
  unfold int_range, INT_MIN, INT_MAX, wrap.
  pose proof (Z.mod_pos_bound (z + 2 ^ 31) (2 ^ 32)). lia.
Qed.

(** Stepping by [a] and then by [b] with [a + b = 0] is the identity on an
    [int] coordinate, whatever wrap-around happens in between. *)
Lemma iadd_cancel (x a b : Z) :
  int_range x -> (a + b) mod 2 ^ 32 = 0 -> iadd (iadd x a) b = x.
Proof.
  intros Hx Hab. unfold iadd. rewrite wrap_add_l.
  rewrite <- (wrap_id x) at 2 by assumption.
  apply wrap_congr.
  replace (x + a + b) with (x + (a + b)) by lia.
  rewrite Zplus_mod, Hab, Z.add_0_r, Z.mod_mod by lia. reflexivity.
Qed.

Lemma imul_neg1_cancel_l (n : Z) : (imul (-1) n + n) mod 2 ^ 32 = 0.
Proof.
  unfold imul. rewrite <- Zplus_mod_idemp_l, wrap_mod, Zplus_mod_idemp_l.
  replace (-1 * n + n) with 0 by lia. reflexivity.
Qed.

Lemma imul_neg1_cancel_r (n : Z) : (n + imul (-1) n) mod 2 ^ 32 = 0.
Proof. rewrite Z.add_comm. apply imul_neg1_cancel_l. Qed.

(** ** Position: the coordinate algebra *)

Lemma facing_cases (f : Z) : 0 <= f < 4 -> f = 0 \/ f = 1 \/ f = 2 \/ f = 3.
Proof. lia. Qed.

Lemma GetPositionAheadOfThis_facing (p : Position) (n : Z) :
  facing_ (GetPositionAheadOfThis p n) = facing_ p.
Proof.
  unfold GetPositionAheadOfThis.
  destruct (facing_ p) as [|[[?|?|]|[?|?|]|]|?]; reflexivity.
Qed.

Lemma GetPositionBehindThis_facing (p : Position) (n : Z) :
  facing_ (GetPositionBehindThis p n) = facing_ p.
Proof.
  unfold GetPositionBehindThis.
  destruct (facing_ p) as [|[[?|?|]|[?|?|]|]|?]; reflexivity.
Qed.

(** C5: for the four facings, turning left then right gives back the
    facing (indeed the position), four left turns give back the facing, and
    both rotations keep (x, y). *)
Theorem rotations_inverse_and_cyclic (p : Position) :
  0 <= facing_ p < 4 ->
  facing_ (GetRightFacingOfThis (GetLeftFacingOfThis p)) = facing_ p
  /\ GetRightFacingOfThis (GetLeftFacingOfThis p) = p
  /\ facing_ (GetLeftFacingOfThis (GetLeftFacingOfThis
                (GetLeftFacingOfThis (GetLeftFacingOfThis p)))) = facing_ p
  /\ x_ (GetLeftFacingOfThis p) = x_ p /\ y_ (GetLeftFacingOfThis p) = y_ p
  /\ x_ (GetRightFacingOfThis p) = x_ p /\ y_ (GetRightFacingOfThis p) = y_ p.
Proof.
  destruct p as [x y f]. simpl. intros Hf.
  destruct (facing_cases f Hf) as [-> | [-> | [-> | ->]]];
    vm_compute; repeat split; reflexivity.
Qed.

Lemma rotations_inverse_and_cyclic_witness :
  0 <= facing_ (mkPosition 5 7 3) < 4
  /\ facing_ (GetRightFacingOfThis (GetLeftFacingOfThis (mkPosition 5 7 3)))
     = 3.
Proof.
  split; [simpl; lia |].
  apply (rotations_inverse_and_cyclic (mkPosition 5 7 3)). simpl. lia.
Defined.

(** Outside the four facings the rotations still land in 0..3, so they do
    not give back a facing of 4 (the value of [WALL_FACING_NORTH]). *)
Example rotation_of_wall_facing_north :
  facing_ (GetRightFacingOfThis
             (GetLeftFacingOfThis (mkPosition 0 9 WALL_FACING_NORTH))) = 0.
Proof. reflexivity. Qed.

(** C6: for every facing value and every step count, stepping ahead and
    then behind by the same count gives back (x, y), and both steps keep
    the facing. *)
Theorem ahead_behind_inverse (p : Position) (n : Z) :
  int_range (x_ p) -> int_range (y_ p) ->
  x_ (GetPositionBehindThis (GetPositionAheadOfThis p n) n) = x_ p
  /\ y_ (GetPositionBehindThis (GetPositionAheadOfThis p n) n) = y_ p
  /\ facing_ (GetPositionAheadOfThis p n) = facing_ p
  /\ facing_ (GetPositionBehindThis p n) = facing_ p.
Proof.
  intros Hx Hy.
  split; [| split; [| split]];
    [ | | apply GetPositionAheadOfThis_facing
        | apply GetPositionBehindThis_facing ].
  all: destruct p as [x y f]; simpl in Hx, Hy;
    unfold GetPositionBehindThis, GetPositionAheadOfThis;
    destruct f as [|[[?|?|]|[?|?|]|]|?]; simpl;
    apply iadd_cancel; auto using imul_neg1_cancel_l, imul_neg1_cancel_r.
Qed.

Lemma ahead_behind_inverse_witness :
  int_range (x_ (mkPosition 4 2 3)) /\ int_range (y_ (mkPosition 4 2 3))
  /\ x_ (GetPositionBehindThis
           (GetPositionAheadOfThis (mkPosition 4 2 3) 6) 6) = 4.
Proof.
  assert (Hx : int_range (x_ (mkPosition 4 2 3)))
    by (vm_compute; split; discriminate).
  assert (Hy : int_range (y_ (mkPosition 4 2 3)))
    by (vm_compute; split; discriminate).
  split; [exact Hx | split; [exact Hy |]].
  apply (ahead_behind_inverse (mkPosition 4 2 3) 6 Hx Hy).
Defined.

(** ** Guarded arrays and tables *)

Lemma bind_Ok {A B} (r : result A) (f : A -> result B) (b : B) :
  r ≫= f = Ok b <-> exists a, r = Ok a /\ f a = Ok b.
Proof.
  destruct r as [a | e]; simpl; split.
  - intros H. exists a. auto.
  - intros (a' & Ha & Hb). inversion Ha. subst. exact Hb.
  - discriminate.
  - intros (a' & Ha & _). discriminate.
Qed.

Lemma idx_lookup {A} (a : list A) (i : Z) (v : A) :
  0 <= i -> a !! Z.to_nat i = Some v -> idx a i = Ok v.
Proof.
  intros Hi Hv. unfold idx.
  pose proof (lookup_lt_Some _ _ _ Hv) as Hlt.
  replace (0 <=? i) with true by (symmetry; apply Z.leb_le; lia).
  replace (i <? Z.of_nat (length a)) with true
    by (symmetry; apply Z.ltb_lt; lia).
  simpl. rewrite Hv. reflexivity.
Qed.

Lemma idx_Ok_inv {A} (a : list A) (i : Z) (v : A) :
  idx a i = Ok v ->
  0 <= i < Z.of_nat (length a) /\ a !! Z.to_nat i = Some v.
Proof.
  unfold idx. intros H.
  destruct (0 <=? i) eqn:H0; [| discriminate].
  destruct (i <? Z.of_nat (length a)) eqn:H1; [| discriminate].
  simpl in H. apply Z.leb_le in H0. apply Z.ltb_lt in H1.
  destruct (a !! Z.to_nat i) eqn:Hl; [| discriminate].
  inversion H. subst. auto.
Qed.

Lemma idx_in_range {A} (a : list A) (i : Z) :
  0 <= i < Z.of_nat (length a) -> exists v, idx a i = Ok v.
Proof.
  intros Hi.
  destruct (lookup_lt_is_Some_2 a (Z.to_nat i)) as [v Hv]; [lia |].
  exists v. apply idx_lookup; [lia | assumption].
Qed.

Lemma idx_out_of_range {A} (a : list A) (i : Z) :
  ~ 0 <= i < Z.of_nat (length a) -> idx a i = Fault (OutOfRange i (length a)).
Proof.
  intros Hi. unfold idx.
  destruct (0 <=? i) eqn:H0; [| reflexivity].
  destruct (i <? Z.of_nat (length a)) eqn:H1; [| reflexivity].
  apply Z.leb_le in H0. apply Z.ltb_lt in H1. lia.
Qed.

Lemma upd_in_range {A} (a : list A) (i : Z) (v : A) :
  0 <= i < Z.of_nat (length a) -> upd a i v = Ok (<[Z.to_nat i := v]> a).
Proof.
  intros Hi. unfold upd.
  replace (0 <=? i) with true by (symmetry; apply Z.leb_le; lia).
  replace (i <? Z.of_nat (length a)) with true
    by (symmetry; apply Z.ltb_lt; lia).
  reflexivity.
Qed.

Lemma upd_out_of_range {A} (a : list A) (i : Z) (v : A) :
  ~ 0 <= i < Z.of_nat (length a) ->
  upd a i v = Fault (OutOfRange i (length a)).
Proof.
  intros Hi. unfold upd.
  destruct (0 <=? i) eqn:H0; [| reflexivity].
  destruct (i <? Z.of_nat (length a)) eqn:H1; [| reflexivity].
  apply Z.leb_le in H0. apply Z.ltb_lt in H1. lia.
Qed.

(** Reading an array after an in-range store. *)
Lemma idx_insert {A} (a : list A) (i j : Z) (v : A) :
  0 <= i < Z.of_nat (length a) ->
  idx (<[Z.to_nat i := v]> a) j = if i =? j then Ok v else idx a j.
Proof.
  intros Hi. destruct (i =? j) eqn:Hij.
  - apply Z.eqb_eq in Hij. subst j. apply idx_lookup; [lia |].
    apply list_lookup_insert_eq. lia.
  - apply Z.eqb_neq in Hij. unfold idx. rewrite length_insert.
    destruct ((0 <=? j) && (j <? Z.of_nat (length a))) eqn:Hj;
      [| reflexivity].
    apply andb_prop in Hj as [Hj0 Hj1]. apply Z.leb_le in Hj0.
    rewrite list_lookup_insert_ne by lia. reflexivity.
Qed.

Lemma shaped_cell {A} (h w : Z) (t : table A) (y x : Z) :
  shaped h w t -> 0 <= y < h -> 0 <= x < w ->
  exists r c, idx t y = Ok r /\ idx r x = Ok c
              /\ Z.of_nat (length r) = w /\ length c = 4%nat.
Proof.
  intros [Hlen Hrows] Hy Hx.
  destruct (idx_in_range t y) as [r Hr]; [lia |].
  pose proof (idx_Ok_inv _ _ _ Hr) as [_ Hr'].
  pose proof (Forall_lookup_1 _ _ _ _ Hrows Hr') as [Hw Hcells].
  destruct (idx_in_range r x) as [c Hc]; [lia |].
  pose proof (idx_Ok_inv _ _ _ Hc) as [_ Hc'].
  pose proof (Forall_lookup_1 _ _ _ _ Hcells Hc') as H4.
  exists r, c. auto.
Qed.

(** A store through the three levels, with all indices in range: it
    succeeds, keeps the shape, and changes the addressed slot only. *)
Lemma wr3_ok {A} (h w : Z) (t : table A) (y x f : Z) (v : A) :
  shaped h w t -> 0 <= y < h -> 0 <= x < w -> 0 <= f < 4 ->
  exists t', wr3 t y x f v = Ok t' /\ shaped h w t'
    /\ forall y' x' f',
         rd3 t' y' x' f'
         = if (y =? y') && (x =? x') && (f =? f') then Ok v
           else rd3 t y' x' f'.
Proof.
  intros Hs Hy Hx Hf.
  destruct (shaped_cell h w t y x Hs Hy Hx) as (r & c & Hr & Hc & Hw & H4).
  destruct Hs as [Hlen Hrows].
  pose proof (idx_Ok_inv _ _ _ Hr) as [_ Hr'].
  pose proof (Forall_lookup_1 _ _ _ _ Hrows Hr') as [_ Hcells].
  exists (<[Z.to_nat y := <[Z.to_nat x := <[Z.to_nat f := v]> c]> r]> t).
  split; [| split].
  - unfold wr3. rewrite Hr. simpl. rewrite Hc. simpl.
    rewrite upd_in_range by lia. simpl.
    rewrite upd_in_range by lia. simpl.
    apply upd_in_range. lia.
  - split; [rewrite length_insert; assumption |].
    apply Forall_insert; [assumption |].
    split; [rewrite length_insert; assumption |].
    apply Forall_insert; [assumption |].
    rewrite length_insert. assumption.
  - intros y' x' f'. unfold rd3.
    rewrite idx_insert by lia.
    destruct (y =? y') eqn:Hyy; simpl; [| reflexivity].
    apply Z.eqb_eq in Hyy. subst y'. rewrite Hr. simpl.
    rewrite idx_insert by lia.
    destruct (x =? x') eqn:Hxx; simpl; [| reflexivity].
    apply Z.eqb_eq in Hxx. subst x'. rewrite Hc. simpl.
    rewrite idx_insert by lia. reflexivity.
Qed.

(** Reads and stores with the row and column in range and the face index
    outside [0, 4) leave the four-element face array. *)
Lemma rd3_face_fault {A} (h w : Z) (t : table A) (y x f : Z) :
  shaped h w t -> 0 <= y < h -> 0 <= x < w -> ~ 0 <= f < 4 ->
  rd3 t y x f = Fault (OutOfRange f 4).
Proof.
  intros Hs Hy Hx Hf.
  destruct (shaped_cell h w t y x Hs Hy Hx) as (r & c & Hr & Hc & Hw & H4).
  unfold rd3. rewrite Hr. simpl. rewrite Hc. simpl.
  rewrite idx_out_of_range by lia. rewrite H4. reflexivity.
Qed.

Lemma wr3_face_fault {A} (h w : Z) (t : table A) (y x f : Z) (v : A) :
  shaped h w t -> 0 <= y < h -> 0 <= x < w -> ~ 0 <= f < 4 ->
  wr3 t y x f v = Fault (OutOfRange f 4).
Proof.
  intros Hs Hy Hx Hf.
  destruct (shaped_cell h w t y x Hs Hy Hx) as (r & c & Hr & Hc & Hw & H4).
  unfold wr3. rewrite Hr. simpl. rewrite Hc. simpl.
  rewrite upd_out_of_range by lia. rewrite H4. reflexivity.
Qed.

Lemma rd3_ok {A} (h w : Z) (t : table A) (y x f : Z) :
  shaped h w t -> 0 <= y < h -> 0 <= x < w -> 0 <= f < 4 ->
  exists v, rd3 t y x f = Ok v.
Proof.
  intros Hs Hy Hx Hf.
  destruct (shaped_cell h w t y x Hs Hy Hx) as (r & c & Hr & Hc & Hw & H4).
  destruct (idx_in_range c f) as [v Hv]; [lia |].
  exists v. unfold rd3. rewrite Hr. simpl. rewrite Hc. simpl. exact Hv.
Qed.

(** ** Counted loops *)

Lemma iter_loop_inv {S} (P : Z -> S -> Prop) (body : Z -> S -> result S)
    (n : nat) (i : Z) (s : S) :
  P i s ->
  (forall j s, i <= j < i + Z.of_nat n -> P j s ->
     exists s', body j s = Ok s' /\ P (j + 1) s') ->
  exists s', iter_loop n i 1 body s = Ok s' /\ P (i + Z.of_nat n) s'.
Proof.
  revert i s. induction n as [| n IH]; intros i s HP Hbody.
  - exists s. simpl. rewrite Z.add_0_r. auto.
  - destruct (Hbody i s) as (s1 & Hs1 & HP1); [lia | assumption |].
    destruct (IH (i + 1) s1 HP1) as (s2 & Hs2 & HP2).
    + intros j s' Hj. apply Hbody. lia.
    + exists s2. simpl. rewrite Hs1. simpl. split; [exact Hs2 |].
      replace (i + Z.of_nat (Datatypes.S n)) with (i + 1 + Z.of_nat n) by lia.
      exact HP2.
Qed.

Lemma for_up_inv {S} (P : Z -> S -> Prop) (body : Z -> S -> result S)
    (lo hi : Z) (s : S) :
  lo <= hi -> P lo s ->
  (forall j s, lo <= j < hi -> P j s ->
     exists s', body j s = Ok s' /\ P (j + 1) s') ->
  exists s', for_up lo hi body s = Ok s' /\ P hi s'.
Proof.
  intros Hle HP Hbody. unfold for_up.
  destruct (iter_loop_inv P body (Z.to_nat (hi - lo)) lo s HP)
    as (s' & Hs' & HP').
  - intros j s0 Hj. apply Hbody. lia.
  - exists s'. split; [exact Hs' |].
    replace (lo + Z.of_nat (Z.to_nat (hi - lo))) with hi in HP' by lia.
    exact HP'.
Qed.

(** ** Built maps *)

Lemma shapeb_sound {A} (h w : Z) (t : table A) :
  shapeb h w t = true -> shaped h w t.
Proof.
  unfold shapeb, shaped. intros H.
  apply andb_prop in H as [Hlen Hrows]. apply Z.eqb_eq in Hlen.
  split; [exact Hlen |].
  apply Forall_forall. intros r Hr.
  rewrite forallb_forall in Hrows.
  apply list_elem_of_In in Hr. specialize (Hrows r Hr).
  apply andb_prop in Hrows as [Hw Hcells]. apply Z.eqb_eq in Hw.
  split; [exact Hw |].
  apply Forall_forall. intros c Hc.
  rewrite forallb_forall in Hcells.
  apply list_elem_of_In in Hc. specialize (Hcells c Hc).
  apply Nat.eqb_eq in Hcells. exact Hcells.
Qed.

Lemma wf_mapb_sound (m : Map) : wf_mapb m = true -> wf_map m.
Proof.
  unfold wf_mapb, wf_map. intros H.
  repeat (apply andb_prop in H as [H ?]).
  destruct (walls_ m) as [w |]; [| discriminate].
  destruct (passibility_ m) as [p |]; [| discriminate].
  repeat match goal with
         | Hb : (_ <=? _) = true |- _ => apply Z.leb_le in Hb
         end.
  repeat split; try lia.
  exists w, p. auto using shapeb_sound.
Qed.

Lemma demo_map_built : ClearMap (mkMap 3 3 None None None) = Ok demo_map.
Proof. reflexivity. Qed.

Lemma demo_map_wf : wf_map demo_map.
Proof. apply wf_mapb_sound. reflexivity. Qed.

Lemma grid_guard (m : Map) (p : Position) :
  in_grid m p ->
  ((0 <=? x_ p) && (x_ p <? width_ m))
  && ((0 <=? y_ p) && (y_ p <? height_ m)) = true.
Proof.
  intros [Hx Hy].
  repeat (apply andb_true_intro; split);
    try (apply Z.leb_le; lia); apply Z.ltb_lt; lia.
Qed.

Lemma grid_guard_false (m : Map) (p : Position) :
  ~ in_grid m p ->
  ((0 <=? x_ p) && (x_ p <? width_ m))
  && ((0 <=? y_ p) && (y_ p <? height_ m)) = false.
Proof.
  intros Hout. apply not_true_is_false. intros H. apply Hout.
  repeat (apply andb_prop in H as [H ?]).
  repeat match goal with
         | Hb : (_ <=? _) = true |- _ => apply Z.leb_le in Hb
         | Hb : (_ <? _) = true |- _ => apply Z.ltb_lt in Hb
         end.
  unfold in_grid. lia.
Qed.

Lemma GetWallForCoordinate_in_grid (m : Map) (p : Position) (w : table Z) :
  in_grid m p -> walls_ m = Some w ->
  GetWallForCoordinate m p = rd3 w (y_ p) (x_ p) (facing_ p).
Proof.
  intros Hin Hw. unfold GetWallForCoordinate.
  rewrite grid_guard by assumption. rewrite Hw. reflexivity.
Qed.

Lemma CanPassWallForCoordinate_in_grid (m : Map) (p : Position)
    (t : table bool) :
  in_grid m p -> passibility_ m = Some t ->
  CanPassWallForCoordinate m p = rd3 t (y_ p) (x_ p) (facing_ p).
Proof.
  intros Hin Hw. unfold CanPassWallForCoordinate.
  rewrite grid_guard by assumption. rewrite Hw. reflexivity.
Qed.

Lemma GetWallForCoordinate_outside (m : Map) (p : Position) :
  ~ in_grid m p -> GetWallForCoordinate m p = Ok 0.
Proof.
  intros Hout. unfold GetWallForCoordinate.
  rewrite grid_guard_false by assumption. reflexivity.
Qed.

Lemma CanPassWallForCoordinate_outside (m : Map) (p : Position) :
  ~ in_grid m p -> CanPassWallForCoordinate m p = Ok false.
Proof.
  intros Hout. unfold CanPassWallForCoordinate.
  rewrite grid_guard_false by assumption. reflexivity.
Qed.

(** One step ahead, away from the ends of the [int] range. *)
Lemma ahead_one (x y f : Z) :
  0 <= f < 4 -> INT_MIN < x < INT_MAX -> INT_MIN < y < INT_MAX ->
  GetPositionAheadOfThis (mkPosition x y f) 1
  = mkPosition (x + facing_dx f) (y + facing_dy f) f.
Proof.
  intros Hf Hx Hy. unfold INT_MIN, INT_MAX in *.
  destruct (facing_cases f Hf) as [-> | [-> | [-> | ->]]];
    unfold GetPositionAheadOfThis, iadd, imul; simpl facing_; cbv iota beta;
    simpl x_; simpl y_; simpl facing_dx; simpl facing_dy;
    change (wrap (-1 * 1)) with (-1);
    rewrite !wrap_id by (unfold int_range, INT_MIN, INT_MAX; lia);
    reflexivity.
Qed.

Lemma opposite_face (f : Z) :
  0 <= f < 4 -> irem (iadd f 2) 4 = (f + 2) mod 4 /\ 0 <= (f + 2) mod 4 < 4.
Proof.
  intros Hf.
  destruct (facing_cases f Hf) as [-> | [-> | [-> | ->]]];
    vm_compute; repeat split; congruence.
Qed.

(** ** Map: walls are bilateral *)

(** C2: placing a wall at a face of a grid cell whose neighbour ahead is
    also a grid cell succeeds, and afterwards the wall id is reported and
    passage is refused both at that face and at the neighbour's opposite
    face, (facing + 2) mod 4.  The wall id may be any value, in particular a
    nonzero one. *)
Theorem MakeNormalWall_bilateral (m : Map) (p : Position) (wallID : Z) :
  wf_map m -> in_grid m p -> 0 <= facing_ p < 4 ->
  in_grid m (GetPositionAheadOfThis p 1) ->
  exists m',
    MakeNormalWall m p wallID = Ok m'
    /\ wf_map m'
    /\ GetWallForCoordinate m' p = Ok wallID
    /\ CanPassWallForCoordinate m' p = Ok false
    /\ GetWallForCoordinate m'
         (mkPosition (x_ (GetPositionAheadOfThis p 1))
            (y_ (GetPositionAheadOfThis p 1)) ((facing_ p + 2) mod 4))
       = Ok wallID
    /\ CanPassWallForCoordinate m'
         (mkPosition (x_ (GetPositionAheadOfThis p 1))
            (y_ (GetPositionAheadOfThis p 1)) ((facing_ p + 2) mod 4))
       = Ok false.
Proof.
  intros (Hw & Hh & w & t & Hwalls & Hpass & Hsw & Hst) Hin Hf Hq.
  destruct p as [x y f]. simpl in Hf.
  pose proof Hin as [Hx Hy]. simpl in Hx, Hy.
  assert (Hahead : GetPositionAheadOfThis (mkPosition x y f) 1
                   = mkPosition (x + facing_dx f) (y + facing_dy f) f).
  { apply ahead_one; unfold INT_MIN, INT_MAX in *; lia. }
  rewrite Hahead in *. simpl x_; simpl y_; simpl facing_.
  pose proof Hq as [Hqx Hqy]. simpl in Hqx, Hqy.
  destruct (opposite_face f Hf) as [Hopp Hoppr].
  destruct (wr3_ok _ _ w y x f wallID Hsw Hy Hx Hf) as (w1 & Hw1 & Hsw1 & Hr1).
  destruct (wr3_ok _ _ t y x f false Hst Hy Hx Hf) as (t1 & Ht1 & Hst1 & Hq1).
  destruct (wr3_ok _ _ w1 (y + facing_dy f) (x + facing_dx f)
              ((f + 2) mod 4) wallID Hsw1 Hqy Hqx Hoppr)
    as (w2 & Hw2 & Hsw2 & Hr2).
  destruct (wr3_ok _ _ t1 (y + facing_dy f) (x + facing_dx f)
              ((f + 2) mod 4) false Hst1 Hqy Hqx Hoppr)
    as (t2 & Ht2 & Hst2 & Hq2).
  set (m' := mkMap (width_ m) (height_ m) (Some w2) (Some t2)
               (startingPoints_ m)).
  assert (Hin' : in_grid m' (mkPosition x y f)) by exact Hin.
  assert (Hq' : in_grid m'
                  (mkPosition (x + facing_dx f) (y + facing_dy f)
                     ((f + 2) mod 4))) by exact Hq.
  exists m'. split; [| split; [| split; [| split; [| split]]]].
  - unfold MakeNormalWall. rewrite Hwalls, Hpass. simpl deref.
    simpl x_; simpl y_; simpl facing_. cbn [mbind result_bind].
    rewrite Hw1. cbn [mbind result_bind]. rewrite Ht1.
    cbn [mbind result_bind]. rewrite Hahead. unfold Copy, InBounds.
    simpl x_; simpl y_; simpl facing_. cbn [negb].
    replace ((0 <=? x + facing_dx f) && (0 <=? y + facing_dy f)
             && (x + facing_dx f <=? width_ m)
             && (y + facing_dy f <=? height_ m)) with true.
    2: { symmetry. repeat (apply andb_true_intro; split);
           apply Z.leb_le; lia. }
    rewrite Hopp, Hw2. cbn [mbind result_bind]. rewrite Ht2. reflexivity.
  - unfold wf_map, m'. simpl. split; [lia | split; [lia |]].
    exists w2, t2. auto.
  - rewrite (GetWallForCoordinate_in_grid m' _ w2 Hin' eq_refl).
    simpl x_; simpl y_; simpl facing_. rewrite Hr2, Hr1, !Z.eqb_refl.
    simpl. destruct (_ && _); reflexivity.
  - rewrite (CanPassWallForCoordinate_in_grid m' _ t2 Hin' eq_refl).
    simpl x_; simpl y_; simpl facing_. rewrite Hq2, Hq1, !Z.eqb_refl.
    simpl. destruct (_ && _); reflexivity.
  - rewrite (GetWallForCoordinate_in_grid m' _ w2 Hq' eq_refl).
    simpl x_; simpl y_; simpl facing_. rewrite Hr2, !Z.eqb_refl.
    reflexivity.
  - rewrite (CanPassWallForCoordinate_in_grid m' _ t2 Hq' eq_refl).
    simpl x_; simpl y_; simpl facing_. rewrite Hq2, !Z.eqb_refl.
    reflexivity.
Qed.

Lemma MakeNormalWall_bilateral_witness :
  wf_map demo_map
  /\ in_grid demo_map (mkPosition 1 1 1)
  /\ 0 <= facing_ (mkPosition 1 1 1) < 4
  /\ in_grid demo_map (GetPositionAheadOfThis (mkPosition 1 1 1) 1)
  /\ exists m',
       MakeNormalWall demo_map (mkPosition 1 1 1) WALL_TYPE_STONE = Ok m'
       /\ wf_map m'
       /\ GetWallForCoordinate m' (mkPosition 1 1 1) = Ok WALL_TYPE_STONE
       /\ CanPassWallForCoordinate m' (mkPosition 1 1 1) = Ok false
       /\ GetWallForCoordinate m' (mkPosition 2 1 3) = Ok WALL_TYPE_STONE
       /\ CanPassWallForCoordinate m' (mkPosition 2 1 3) = Ok false.
Proof.
  assert (H1 : in_grid demo_map (mkPosition 1 1 1))
    by (unfold in_grid; simpl; lia).
  assert (H2 : 0 <= facing_ (mkPosition 1 1 1) < 4) by (simpl; lia).
  assert (H3 : in_grid demo_map
                 (GetPositionAheadOfThis (mkPosition 1 1 1) 1))
    by (change (in_grid demo_map (mkPosition 2 1 1));
        unfold in_grid; simpl; lia).
  split; [exact demo_map_wf |].
  split; [exact H1 |]. split; [exact H2 |]. split; [exact H3 |].
  exact (MakeNormalWall_bilateral demo_map (mkPosition 1 1 1)
           WALL_TYPE_STONE demo_map_wf H1 H2 H3).
Defined.

(** At the last column the neighbour ahead is outside the grid, yet the
    inclusive test [InBounds(0, 0, width_, height_)] lets the second store
    through: it leaves the row array. *)
Example MakeNormalWall_east_edge :
  MakeNormalWall demo_map (mkPosition 2 1 WALL_FACING_EAST) WALL_TYPE_STONE
  = Fault (OutOfRange 3 3).
Proof. reflexivity. Qed.

(** ** GameState: movement is gated by passability *)

Lemma grid_guard_inv (m : Map) (p : Position) :
  ((0 <=? x_ p) && (x_ p <? width_ m))
  && ((0 <=? y_ p) && (y_ p <? height_ m)) = true ->
  in_grid m p.
Proof.
  intros H.
  assert (Hd : in_grid m p ∨ ~ in_grid m p) by (unfold in_grid; lia).
  destruct Hd as [Hin | Hout]; [exact Hin |].
  rewrite grid_guard_false in H by assumption. discriminate.
Qed.

Lemma CanPassWallForCoordinate_true_inv (m : Map) (p : Position) :
  wf_map m -> CanPassWallForCoordinate m p = Ok true ->
  in_grid m p /\ 0 <= facing_ p < 4.
Proof.
  intros (Hw & Hh & w & t & Hwalls & Hpass & Hsw & Hst) Hcan.
  unfold CanPassWallForCoordinate in Hcan.
  destruct (((0 <=? x_ p) && (x_ p <? width_ m))
            && ((0 <=? y_ p) && (y_ p <? height_ m))) eqn:G;
    [| discriminate].
  apply grid_guard_inv in G. split; [exact G |].
  rewrite Hpass in Hcan. simpl in Hcan.
  assert (Hd : 0 <= facing_ p < 4 ∨ ~ 0 <= facing_ p < 4) by lia.
  destruct Hd as [Hf | Hf]; [exact Hf |].
  destruct G as [Gx Gy].
  rewrite (rd3_face_fault _ _ t _ _ _ Hst Gy Gx Hf) in Hcan. discriminate.
Qed.

Lemma CanPassWallForCoordinate_total (m : Map) (p : Position) :
  wf_map m -> 0 <= facing_ p < 4 ->
  exists b, CanPassWallForCoordinate m p = Ok b.
Proof.
  intros (Hw & Hh & w & t & Hwalls & Hpass & Hsw & Hst) Hf.
  assert (Hd : in_grid m p ∨ ~ in_grid m p) by (unfold in_grid; lia).
  destruct Hd as [Hin | Hout].
  - rewrite (CanPassWallForCoordinate_in_grid m p t Hin Hpass).
    destruct Hin as [Hx Hy]. eapply rd3_ok; eauto.
  - exists false. apply CanPassWallForCoordinate_outside. exact Hout.
Qed.

Lemma GetWallForCoordinate_total (m : Map) (p : Position) :
  wf_map m -> 0 <= facing_ p < 4 ->
  exists v, GetWallForCoordinate m p = Ok v.
Proof.
  intros (Hw & Hh & w & t & Hwalls & Hpass & Hsw & Hst) Hf.
  assert (Hd : in_grid m p ∨ ~ in_grid m p) by (unfold in_grid; lia).
  destruct Hd as [Hin | Hout].
  - rewrite (GetWallForCoordinate_in_grid m p w Hin Hwalls).
    destruct Hin as [Hx Hy]. eapply rd3_ok; eauto.
  - exists 0. apply GetWallForCoordinate_outside. exact Hout.
Qed.

(** C1: with a built map, [MovePlayerForward] answers true and moves the
    player one step along the axis of the facing, which it keeps, when the
    face the player stands against is passable at the call; it answers
    false and changes nothing when that face is not passable.  For each of
    the four facings the passability query has an answer. *)
Theorem MovePlayerForward_gated (gs : GameState) (m : Map) :
  currentMap_ gs = Some m -> wf_map m ->
  (CanPassWallForCoordinate m (playerPosition_ gs) = Ok true ->
   exists gs',
     MovePlayerForward gs = Ok (true, gs')
     /\ currentMap_ gs' = Some m
     /\ playerPosition_ gs' = GetPositionAheadOfThis (playerPosition_ gs) 1
     /\ facing_ (playerPosition_ gs') = facing_ (playerPosition_ gs)
     /\ x_ (playerPosition_ gs')
        = x_ (playerPosition_ gs) + facing_dx (facing_ (playerPosition_ gs))
     /\ y_ (playerPosition_ gs')
        = y_ (playerPosition_ gs) + facing_dy (facing_ (playerPosition_ gs))
     /\ Z.abs (facing_dx (facing_ (playerPosition_ gs)))
        + Z.abs (facing_dy (facing_ (playerPosition_ gs))) = 1)
  /\ (CanPassWallForCoordinate m (playerPosition_ gs) = Ok false ->
      MovePlayerForward gs = Ok (false, gs))
  /\ (0 <= facing_ (playerPosition_ gs) < 4 ->
      exists b, CanPassWallForCoordinate m (playerPosition_ gs) = Ok b).
Proof.
  intros Hmap Hwf. split; [| split].
  - intros Hcan.
    destruct (CanPassWallForCoordinate_true_inv m _ Hwf Hcan) as [Hin Hf].
    destruct gs as [cm [x y f]]. simpl in *. subst cm.
    destruct Hin as [Hx Hy]. simpl in Hx, Hy.
    destruct Hwf as (Hw & Hh & _).
    assert (Hahead : GetPositionAheadOfThis (mkPosition x y f) 1
                     = mkPosition (x + facing_dx f) (y + facing_dy f) f).
    { apply ahead_one; unfold INT_MIN, INT_MAX in *; lia. }
    eexists. split.
    + unfold MovePlayerForward. simpl. rewrite Hcan. simpl. reflexivity.
    + simpl. rewrite Hahead. simpl. repeat split.
      destruct (facing_cases f Hf) as [-> | [-> | [-> | ->]]]; reflexivity.
  - intros Hcan. unfold MovePlayerForward. rewrite Hmap. simpl.
    rewrite Hcan. reflexivity.
  - intros Hf. apply CanPassWallForCoordinate_total; assumption.
Qed.

Lemma MovePlayerForward_gated_witness :
  currentMap_ (mkGameState (Some demo_map) (mkPosition 0 1 1))
  = Some demo_map
  /\ wf_map demo_map
  /\ MovePlayerForward (mkGameState (Some demo_map) (mkPosition 0 1 3))
     = Ok (false, mkGameState (Some demo_map) (mkPosition 0 1 3))
  /\ exists gs',
       MovePlayerForward (mkGameState (Some demo_map) (mkPosition 0 1 1))
       = Ok (true, gs')
       /\ playerPosition_ gs' = mkPosition 1 1 1.
Proof.
  split; [reflexivity |]. split; [exact demo_map_wf |]. split.
  - apply (MovePlayerForward_gated
             (mkGameState (Some demo_map) (mkPosition 0 1 3)) demo_map
             eq_refl demo_map_wf).
    reflexivity.
  - destruct (MovePlayerForward_gated
                (mkGameState (Some demo_map) (mkPosition 0 1 1)) demo_map
                eq_refl demo_map_wf) as [Hmove _].
    destruct (Hmove eq_refl) as (gs' & Hgo & _ & Hpos & _).
    exists gs'. split; [exact Hgo | exact Hpos].
Defined.

(** ** Map: the facing is an unchecked index into the four faces *)

Lemma MakeNormalWall_face_fault (m : Map) (p : Position) (wallID : Z) :
  wf_map m -> in_grid m p -> ~ 0 <= facing_ p < 4 ->
  MakeNormalWall m p wallID = Fault (OutOfRange (facing_ p) 4).
Proof.
  intros (Hw & Hh & w & t & Hwalls & Hpass & Hsw & Hst) [Hx Hy] Hf.
  unfold MakeNormalWall. rewrite Hwalls, Hpass. simpl.
  rewrite (wr3_face_fault _ _ w _ _ _ wallID Hsw Hy Hx Hf). reflexivity.
Qed.

Lemma RemoveWall_face_fault (m : Map) (p : Position) :
  wf_map m -> in_grid m p -> ~ 0 <= facing_ p < 4 ->
  RemoveWall m p = Fault (OutOfRange (facing_ p) 4).
Proof.
  intros (Hw & Hh & w & t & Hwalls & Hpass & Hsw & Hst) [Hx Hy] Hf.
  unfold RemoveWall. rewrite Hwalls, Hpass. simpl.
  rewrite (wr3_face_fault _ _ w _ _ _ 0 Hsw Hy Hx Hf). reflexivity.
Qed.

Lemma MakeMockup_faults : MakeMockup Map_ctor = Fault (OutOfRange 4 4).
Proof. vm_compute. reflexivity. Qed.

(** The run of [MakeFirstMockup] up to its first fault: the map is
    cleared, the starting point set, the row loop and the first store of the
    column loop complete, and the next call, with [WALL_FACING_NORTH],
    faults. *)
Remark MakeFirstMockup_first_fault :
  exists m0,
    (m ← ClearMap (mkMap 10 10 None None None);
     let m := mkMap (width_ m) (height_ m) (walls_ m) (passibility_ m)
                (Some [mkPosition 1 1 PLAYER_FACING_EAST]) in
     m ← for_up 0 (height_ m) (fun row m =>
           m ← MakeNormalWall m (mkPosition 0 row WALL_FACING_EAST)
                 WALL_TYPE_STONE;
           MakeNormalWall m
             (mkPosition (isub (width_ m) 1) row WALL_FACING_WEST)
             WALL_TYPE_STONE) m;
     MakeNormalWall m (mkPosition 0 0 WALL_FACING_SOUTH) WALL_TYPE_STONE)
    = Ok m0
    /\ wf_map m0
    /\ MakeNormalWall m0
         (mkPosition 0 (isub (height_ m0) 1) WALL_FACING_NORTH)
         WALL_TYPE_STONE
       = Fault (OutOfRange 4 4).
Proof.
  eexists. split; [vm_compute; reflexivity |].
  split; [apply wf_mapb_sound; vm_compute; reflexivity |].
  vm_compute. reflexivity.
Qed.

(** C10: the face tables are addressed with the facing of the position as
    it comes.  In a built map, at a grid cell, a facing among 0..3 makes
    every read and store of a face succeed; any other facing makes the
    reads and the first store of [MakeNormalWall] and [RemoveWall] leave the
    four-element face array.  [WALL_FACING_NORTH] is 4, the mockup passes it
    to [MakeNormalWall] for the last row, and building the mockup stops
    there at index 4 of a four-element array. *)
Theorem face_index_unchecked (m : Map) (p : Position) :
  wf_map m -> in_grid m p ->
  (0 <= facing_ p < 4 ->
   (exists v, GetWallForCoordinate m p = Ok v)
   /\ (exists b, CanPassWallForCoordinate m p = Ok b)
   /\ (forall w v, walls_ m = Some w ->
         exists w', wr3 w (y_ p) (x_ p) (facing_ p) v = Ok w')
   /\ (forall t b, passibility_ m = Some t ->
         exists t', wr3 t (y_ p) (x_ p) (facing_ p) b = Ok t'))
  /\ (~ 0 <= facing_ p < 4 ->
      GetWallForCoordinate m p = Fault (OutOfRange (facing_ p) 4)
      /\ CanPassWallForCoordinate m p = Fault (OutOfRange (facing_ p) 4)
      /\ (forall wallID,
            MakeNormalWall m p wallID = Fault (OutOfRange (facing_ p) 4))
      /\ RemoveWall m p = Fault (OutOfRange (facing_ p) 4))
  /\ WALL_FACING_NORTH = 4
  /\ (width_ m = 10 -> height_ m = 10 ->
      MakeNormalWall m
        (mkPosition (x_ p) (isub (height_ m) 1) WALL_FACING_NORTH)
        WALL_TYPE_STONE
      = Fault (OutOfRange 4 4))
  /\ MakeMockup Map_ctor = Fault (OutOfRange 4 4).
Proof.
  intros Hwf Hin.
  pose proof Hwf as (Hw & Hh & w & t & Hwalls & Hpass & Hsw & Hst).
  pose proof Hin as [Hx Hy].
  split; [| split; [| split; [| split]]].
  - intros Hf. split; [| split; [| split]].
    + apply GetWallForCoordinate_total; assumption.
    + apply CanPassWallForCoordinate_total; assumption.
    + intros w0 v Hw0. rewrite Hwalls in Hw0. inversion Hw0. subst w0.
      destruct (wr3_ok _ _ w _ _ _ v Hsw Hy Hx Hf) as (w' & Hw' & _).
      exists w'. exact Hw'.
    + intros t0 b Ht0. rewrite Hpass in Ht0. inversion Ht0. subst t0.
      destruct (wr3_ok _ _ t _ _ _ b Hst Hy Hx Hf) as (t' & Ht' & _).
      exists t'. exact Ht'.
  - intros Hf. split; [| split; [| split]].
    + rewrite (GetWallForCoordinate_in_grid m p w Hin Hwalls).
      apply (rd3_face_fault _ _ w _ _ _ Hsw Hy Hx Hf).
    + rewrite (CanPassWallForCoordinate_in_grid m p t Hin Hpass).
      apply (rd3_face_fault _ _ t _ _ _ Hst Hy Hx Hf).
    + intros wallID. apply MakeNormalWall_face_fault; assumption.
    + apply RemoveWall_face_fault; assumption.
  - reflexivity.
  - intros Hw10 Hh10.
    apply (MakeNormalWall_face_fault m
             (mkPosition (x_ p) (isub (height_ m) 1) WALL_FACING_NORTH)).
    + exact Hwf.
    + split; simpl; [exact Hx |]. rewrite Hh10.
      change (isub 10 1) with 9. lia.
    + simpl. unfold WALL_FACING_NORTH. lia.
  - exact MakeMockup_faults.
Qed.

Lemma face_index_unchecked_witness :
  wf_map demo_map
  /\ in_grid demo_map (mkPosition 0 2 WALL_FACING_NORTH)
  /\ MakeNormalWall demo_map (mkPosition 0 2 WALL_FACING_NORTH)
       WALL_TYPE_STONE
     = Fault (OutOfRange 4 4).
Proof.
  assert (Hin : in_grid demo_map (mkPosition 0 2 WALL_FACING_NORTH))
    by (unfold in_grid; simpl; lia).
  split; [exact demo_map_wf |]. split; [exact Hin |].
  destruct (face_index_unchecked demo_map
              (mkPosition 0 2 WALL_FACING_NORTH) demo_map_wf Hin)
    as (_ & Hbad & _).
  apply Hbad. simpl. unfold WALL_FACING_NORTH. lia.
Defined.

(** ** GameState: starting a new game *)

Lemma GetStartingPoint_fallback (m : Map) (which : Z) :
  1 <= which \/ startingPoints_ m = None ->
  GetStartingPoint m which = Ok (mkPosition 0 0 PLAYER_FACING_NORTH).
Proof.
  unfold GetStartingPoint. intros [Hwhich | Hnone].
  - destruct (startingPoints_ m); [| reflexivity].
    replace (which <? 1) with false by (symmetry; apply Z.ltb_ge; lia).
    reflexivity.
  - rewrite Hnone. reflexivity.
Qed.

Lemma GetStartingPoint_first (m : Map) (p : Position) (rest : list Position) :
  startingPoints_ m = Some (p :: rest) -> GetStartingPoint m 0 = Ok p.
Proof. unfold GetStartingPoint. intros ->. reflexivity. Qed.

(** With every index guarded, [StartNewGame] stops in the mockup, at the
    store to element 4 of a four-element cell. *)
Lemma StartNewGame_faults (gs : GameState) :
  StartNewGame gs = Fault (OutOfRange 4 4).
Proof. unfold StartNewGame. rewrite MakeMockup_faults. reflexivity. Qed.

(** The operations over [store] are the guarded ones when [store] is the
    guarded store. *)
Lemma ByStore_guarded (gs : GameState) (m : Map) (p : Position) (wallID : Z) :
  ByStore.MakeNormalWall (@wr3) m p wallID = MakeNormalWall m p wallID
  /\ ByStore.RemoveWall (@wr3) m p = RemoveWall m p
  /\ ByStore.MakeFirstMockup (@wr3) m = MakeFirstMockup m
  /\ ByStore.StartNewGame (@wr3) gs = StartNewGame gs.
Proof. repeat split; reflexivity. Qed.

(** The unchecked store is the guarded one wherever that one completes, and
    differs from it only at element 4 of a cell. *)
Lemma wr3_unchecked_agrees {A} (t t' : table A) (row column face : Z)
    (v : A) :
  wr3 t row column face v = Ok t' ->
  wr3_unchecked t row column face v = Ok t'.
Proof.
  unfold wr3_unchecked. intros H. pose proof H as H0. unfold wr3 in H0.
  destruct (idx t row) as [r |]; cbn [mbind result_bind] in *;
    [| discriminate].
  destruct (idx r column) as [c |]; cbn [mbind result_bind] in *;
    [| discriminate].
  destruct (Z.eqb_spec face (Z.of_nat (length c))) as [-> |]; [| exact H].
  unfold upd in H0.
  replace (Z.of_nat (length c) <? Z.of_nat (length c)) with false in H0
    by (symmetry; apply Z.ltb_irrefl).
  rewrite andb_false_r in H0. discriminate.
Qed.

Lemma wr3_unchecked_past_end {A} (t : table A) (row column : Z) (v : A)
    (r : list (list A)) (c : list A) :
  idx t row = Ok r -> idx r column = Ok c ->
  wr3_unchecked t row column (Z.of_nat (length c)) v = Ok t.
Proof.
  intros Hr Hc. unfold wr3_unchecked. rewrite Hr. cbn [mbind result_bind].
  rewrite Hc. cbn [mbind result_bind]. rewrite Z.eqb_refl. reflexivity.
Qed.

Lemma iter_loop_preserves {S} (P : S -> Prop) (body : Z -> S -> result S)
    (n : nat) (i step : Z) (s s' : S) :
  (forall j s0 s1, body j s0 = Ok s1 -> P s0 -> P s1) ->
  iter_loop n i step body s = Ok s' -> P s -> P s'.
Proof.
  intros Hbody. revert i s. induction n as [| n IH]; intros i s Hrun HP.
  - cbn in Hrun. congruence.
  - cbn [iter_loop] in Hrun.
    destruct (body i s) as [s1 |] eqn:Hstep; cbn [mbind result_bind] in Hrun;
      [| discriminate].
    exact (IH _ _ Hrun (Hbody _ _ _ Hstep HP)).
Qed.

Ltac bind_cases H :=
  repeat match type of H with
         | mbind _ ?c = Ok _ =>
             destruct c eqn:?; cbn [mbind result_bind] in H;
             [| discriminate H]
         | (let _ := _ in _) = Ok _ => cbv zeta in H
         | (if ?b then _ else _) = Ok _ => destruct b
         end.

(** Whatever [store] does to the two tables, a wall operation that
    completes leaves the list of starting points as it was. *)
Lemma ByStore_MakeNormalWall_keeps_start
    (store : forall A : Type, table A -> Z -> Z -> Z -> A -> result (table A))
    (m m' : Map) (p : Position) (wallID : Z) :
  ByStore.MakeNormalWall store m p wallID = Ok m' ->
  startingPoints_ m' = startingPoints_ m.
Proof.
  intros H. unfold ByStore.MakeNormalWall in H. bind_cases H;
    injection H as <-; reflexivity.
Qed.

Lemma ByStore_RemoveWall_keeps_start
    (store : forall A : Type, table A -> Z -> Z -> Z -> A -> result (table A))
    (m m' : Map) (p : Position) :
  ByStore.RemoveWall store m p = Ok m' ->
  startingPoints_ m' = startingPoints_ m.
Proof.
  intros H. unfold ByStore.RemoveWall in H. bind_cases H;
    injection H as <-; reflexivity.
Qed.

Lemma ByStore_border_loop
    (store : forall A : Type, table A -> Z -> Z -> Z -> A -> result (table A))
    (p1 p2 : Z -> Map -> Position) (lo hi : Z) (s s' : Map) :
  for_up lo hi (fun j m =>
      m ← ByStore.MakeNormalWall store m (p1 j m) WALL_TYPE_STONE;
      ByStore.MakeNormalWall store m (p2 j m) WALL_TYPE_STONE) s = Ok s' ->
  startingPoints_ s' = startingPoints_ s.
Proof.
  unfold for_up. intros Hloop.
  apply (iter_loop_preserves
           (fun m => startingPoints_ m = startingPoints_ s)) in Hloop;
    [exact Hloop | | reflexivity].
  intros j s0 s1 Hrun HP.
  destruct (ByStore.MakeNormalWall store s0 _ _) as [s2 |] eqn:H1;
    cbn [mbind result_bind] in Hrun; [| discriminate].
  apply ByStore_MakeNormalWall_keeps_start in H1, Hrun. congruence.
Qed.

Lemma ByStore_mockup_start
    (store : forall A : Type, table A -> Z -> Z -> Z -> A -> result (table A))
    (m0 m : Map) :
  ByStore.MakeFirstMockup store m0 = Ok m ->
  startingPoints_ m = Some [mkPosition 1 1 PLAYER_FACING_EAST].
Proof.
  intros H. unfold ByStore.MakeFirstMockup in H. cbv zeta in H.
  destruct (ClearMap _) as [m1 |]; cbn [mbind result_bind] in H;
    [| discriminate].
  destruct (for_up 0 _ _ _) as [m2 |] eqn:H2 in H;
    cbn [mbind result_bind] in H; [| discriminate].
  destruct (for_up 0 _ _ _) as [m3 |] eqn:H3 in H;
    cbn [mbind result_bind] in H; [| discriminate].
  destruct (for_up 2 _ _ _) as [m4 |] eqn:H4 in H;
    cbn [mbind result_bind] in H; [| discriminate].
  destruct (for_up 2 _ _ _) as [m5 |] eqn:H5 in H;
    cbn [mbind result_bind] in H; [| discriminate].
  apply (ByStore_border_loop store
           (fun row _ => mkPosition 0 row WALL_FACING_EAST)
           (fun row m => mkPosition (isub (width_ m) 1) row WALL_FACING_WEST))
    in H2.
  apply (ByStore_border_loop store
           (fun column _ => mkPosition column 0 WALL_FACING_SOUTH)
           (fun column m =>
              mkPosition column (isub (height_ m) 1) WALL_FACING_NORTH))
    in H3.
  apply (ByStore_border_loop store
           (fun column _ => mkPosition column 1 WALL_FACING_SOUTH)
           (fun column m =>
              mkPosition column (isub (height_ m) 2) WALL_FACING_SOUTH))
    in H4.
  apply (ByStore_border_loop store
           (fun row _ => mkPosition 1 row WALL_FACING_EAST)
           (fun row m => mkPosition (isub (width_ m) 2) row WALL_FACING_WEST))
    in H5.
  apply ByStore_RemoveWall_keeps_start in H.
  cbn [startingPoints_] in H2. congruence.
Qed.

Lemma mockup_unchecked_runs :
  exists m, ByStore.MakeMockup (@wr3_unchecked) Map_ctor = Ok m.
Proof. eexists. vm_compute. reflexivity. Qed.

(** C9: with the stores done as the machine does them, [StartNewGame]
    completes for every game state.  And whatever the stores of
    [MakeNormalWall] and [RemoveWall] do to the two tables, in the state a
    completed [StartNewGame] returns, [GetStartingPoint(0)] on the current
    map is the player's position in x, y and facing, which is column 1, row
    1, facing East; every index from 1 on gets the origin position
    (0, 0, North). *)
Theorem StartNewGame_round_trip (gs : GameState) :
  (exists gs', ByStore.StartNewGame (@wr3_unchecked) gs = Ok gs')
  /\ forall (store : forall A : Type,
                table A -> Z -> Z -> Z -> A -> result (table A))
       (gs' : GameState),
       ByStore.StartNewGame store gs = Ok gs' ->
       exists m,
         currentMap_ gs' = Some m
         /\ GetStartingPoint m 0 = Ok (playerPosition_ gs')
         /\ playerPosition_ gs' = mkPosition 1 1 PLAYER_FACING_EAST
         /\ forall which, 1 <= which ->
              GetStartingPoint m which
              = Ok (mkPosition 0 0 PLAYER_FACING_NORTH).
Proof.
  assert (Hany : forall store gs',
            ByStore.StartNewGame store gs = Ok gs' ->
            exists m,
              currentMap_ gs' = Some m
              /\ GetStartingPoint m 0 = Ok (playerPosition_ gs')
              /\ playerPosition_ gs' = mkPosition 1 1 PLAYER_FACING_EAST
              /\ forall which, 1 <= which ->
                   GetStartingPoint m which
                   = Ok (mkPosition 0 0 PLAYER_FACING_NORTH)).
  { intros store gs' H. unfold ByStore.StartNewGame in H.
    destruct (ByStore.MakeMockup store Map_ctor) as [m |] eqn:Hmock;
      cbn [mbind result_bind] in H; [| discriminate].
    apply ByStore_mockup_start in Hmock.
    rewrite (GetStartingPoint_first m _ _ Hmock) in H.
    cbn [mbind result_bind] in H. unfold Copy in H.
    cbn [x_ y_ facing_] in H.
    injection H as <-. exists m. cbn [currentMap_ playerPosition_].
    split; [reflexivity |].
    split; [exact (GetStartingPoint_first m _ _ Hmock) |].
    split; [reflexivity |].
    intros which Hwhich. apply GetStartingPoint_fallback. left. exact Hwhich. }
  split; [| exact Hany].
  destruct mockup_unchecked_runs as [m Hm].
  unfold ByStore.StartNewGame. rewrite Hm. cbn [mbind result_bind].
  rewrite (GetStartingPoint_first m _ _ (ByStore_mockup_start _ _ _ Hm)).
  cbn [mbind result_bind]. eexists. reflexivity.
Qed.

Lemma StartNewGame_round_trip_witness :
  exists gs' m,
    ByStore.StartNewGame (@wr3_unchecked) GameState_ctor = Ok gs'
    /\ currentMap_ gs' = Some m
    /\ GetStartingPoint m 0 = Ok (playerPosition_ gs')
    /\ playerPosition_ gs' = mkPosition 1 1 PLAYER_FACING_EAST.
Proof.
  destruct (StartNewGame_round_trip GameState_ctor) as [[gs' Hrun] Hany].
  destruct (Hany (@wr3_unchecked) gs' Hrun) as (m & Hmap & Hstart & Hpos & _).
  exists gs', m. repeat split; assumption.
Defined.

(** ** Map: [ClearMap] *)

Lemma shaped_row {A} (h w : Z) (t : table A) (y : Z) :
  shaped h w t -> 0 <= y < h ->
  exists r, idx t y = Ok r /\ Z.of_nat (length r) = w.
Proof.
  intros [Hlen Hrows] Hy.
  destruct (idx_in_range t y) as [r Hr]; [lia |].
  pose proof (idx_Ok_inv _ _ _ Hr) as [_ Hr'].
  pose proof (Forall_lookup_1 _ _ _ _ Hrows Hr') as [Hw _].
  exists r. auto.
Qed.

Lemma release_table_ok {A} (h w : Z) (t : table A) :
  0 <= h -> 0 <= w -> shaped h w t -> release_table h w t = Ok ().
Proof.
  intros Hh Hw Hs. unfold release_table.
  destruct (for_up_inv (fun _ (_ : unit) => True)
              (fun row (_ : unit) =>
                 r ← idx t row;
                 for_up 0 w (fun column (_ : unit) =>
                   _ ← idx r column; Ok ()) ()) 0 h () Hh I)
    as ([] & Hrun & _); [| exact Hrun].
  intros row [] Hrow _.
  destruct (shaped_row h w t row Hs Hrow) as (r & Hr & Hlen).
  rewrite Hr. cbn [mbind result_bind].
  destruct (for_up_inv (fun _ (_ : unit) => True)
              (fun column (_ : unit) => _ ← idx r column; Ok ())
              0 w () Hw I)
    as ([] & Hrun & _); [| exists (); auto].
  intros column [] Hcol _.
  destruct (idx_in_range r column) as [c Hc]; [lia |].
  rewrite Hc. exists (). auto.
Qed.

(** A loop that stores a value satisfying [Q] into each slot of an array
    in turn. *)
Lemma fill_loop {A} (Q : A -> Prop) (body : Z -> list A -> result (list A))
    (n : Z) (a0 : list A) :
  0 <= n -> Z.of_nat (length a0) = n ->
  (forall i a, 0 <= i < n -> Z.of_nat (length a) = n ->
     exists v, body i a = Ok (<[Z.to_nat i := v]> a) /\ Q v) ->
  exists a, for_up 0 n body a0 = Ok a
            /\ Z.of_nat (length a) = n /\ Forall Q a.
Proof.
  intros Hn Hlen Hbody.
  destruct (for_up_inv
              (fun i a => Z.of_nat (length a) = n
                          /\ forall j v, a !! j = Some v ->
                                         Z.of_nat j < i -> Q v)
              body 0 n a0 Hn) as (a & Hrun & Ha & HQ).
  - split; [exact Hlen |]. intros j v _ Hj. lia.
  - intros i a Hi [Ha HQ].
    destruct (Hbody i a Hi Ha) as (v & Hv & Qv).
    exists (<[Z.to_nat i := v]> a). split; [exact Hv |].
    split; [rewrite length_insert; exact Ha |].
    intros j u Hu Hj.
    destruct (decide (Z.to_nat i = j)) as [<- | Hne].
    + rewrite list_lookup_insert_eq in Hu by lia.
      inversion Hu. subst u. exact Qv.
    + rewrite list_lookup_insert_ne in Hu by exact Hne.
      apply (HQ j u Hu). lia.
  - exists a. split; [exact Hrun |]. split; [exact Ha |].
    apply Forall_lookup. intros j v Hv. apply (HQ j v Hv).
    pose proof (lookup_lt_Some _ _ _ Hv). lia.
Qed.

Lemma new_array_ok {A} (junk : A) (n : Z) :
  0 <= n -> new_array junk n = Ok (replicate (Z.to_nat n) junk).
Proof.
  intros Hn. unfold new_array.
  replace (n <? 0) with false by (symmetry; apply Z.ltb_ge; lia).
  reflexivity.
Qed.

Lemma alloc_table_ok {A} (junk : A) (h w : Z) :
  0 <= h -> 0 <= w ->
  exists t, alloc_table junk h w = Ok t /\ shaped h w t.
Proof.
  intros Hh Hw. unfold alloc_table.
  rewrite (new_array_ok (@nil (list A)) h Hh).
  cbn [mbind result_bind].
  destruct (fill_loop
              (fun r : list (list A) =>
                 Z.of_nat (length r) = w
                 /\ Forall (fun c => length c = 4%nat) r)
              (fun row t =>
                 r0 ← new_array [] w;
                 r ← for_up 0 w (fun column r =>
                       c ← new_array junk 4; upd r column c) r0;
                 upd t row r)
              h (replicate (Z.to_nat h) []) Hh)
    as (t & Hrun & Hlen & Hrows).
  - rewrite length_replicate. lia.
  - intros row t Hrow Hlen.
    rewrite (new_array_ok (@nil A) w Hw). cbn [mbind result_bind].
    destruct (fill_loop (fun c : list A => length c = 4%nat)
                (fun column r => c ← new_array junk 4; upd r column c)
                w (replicate (Z.to_nat w) []) Hw)
      as (r & Hr & Hrlen & Hcells).
    + rewrite length_replicate. lia.
    + intros column r Hcol Hrlen.
      exists (replicate 4 junk). split; [| reflexivity].
      rewrite (new_array_ok junk 4) by lia. cbn [mbind result_bind].
      apply upd_in_range. lia.
    + exists r. rewrite Hr. cbn [mbind result_bind].
      split; [apply upd_in_range; lia | auto].
  - exists t. split; [exact Hrun |]. split; assumption.
Qed.

(** One store of STEP #6, taken from the goal and replaced by its result. *)
Ltac wr3_step h w Hy Hx :=
  match goal with
  | Hs : shaped h w ?t |- context [wr3 ?t ?y ?x ?f ?v] =>
      let t' := fresh "t" in
      let Hrun := fresh "Hrun" in
      let Hs' := fresh "Hs" in
      let Hrd := fresh "Hrd" in
      destruct (wr3_ok h w t y x f v Hs Hy Hx ltac:(lia))
        as (t' & Hrun & Hs' & Hrd);
      rewrite Hrun; cbn [mbind result_bind]; clear Hrun
  end.

Lemma isub_one (n : Z) : 0 < n <= INT_MAX -> isub n 1 = n - 1.
Proof.
  intros Hn. unfold isub. apply wrap_id.
  unfold int_range, INT_MIN, INT_MAX in *. lia.
Qed.

(** The body of the column loop of STEP #6 sets the four faces of its cell
    and leaves every other cell as it was. *)
Lemma init_cell_ok (m : Map) (row column : Z) (w : table Z)
    (p : table bool) :
  0 <= width_ m <= INT_MAX -> 0 <= height_ m <= INT_MAX ->
  shaped (height_ m) (width_ m) w -> shaped (height_ m) (width_ m) p ->
  0 <= row < height_ m -> 0 <= column < width_ m ->
  exists w' p',
    init_cell m row column (w, p) = Ok (w', p')
    /\ shaped (height_ m) (width_ m) w'
    /\ shaped (height_ m) (width_ m) p'
    /\ forall y x f, 0 <= f < 4 ->
         rd3 w' y x f
         = (if (row =? y) && (column =? x) then Ok 0 else rd3 w y x f)
         /\ rd3 p' y x f
            = (if (row =? y) && (column =? x)
               then Ok (negb (is_border_face (width_ m) (height_ m) x y f))
               else rd3 p y x f).
Proof.
  intros HW HH Hsw Hsp Hrow Hcol.
  unfold init_cell, for_up.
  change (Z.to_nat (4 - 0)) with 4%nat. cbn [iter_loop mbind result_bind].
  change (0 + 1) with 1. change (1 + 1) with 2. change (2 + 1) with 3.
  do 12 (wr3_step (height_ m) (width_ m) Hrow Hcol).
  do 2 eexists. split; [reflexivity |].
  split; [assumption |]. split; [assumption |].
  intros y x f Hf. split.
  - repeat match goal with
           | H : forall y' x' f', rd3 _ y' x' f' = _ |- _ =>
               rewrite ?H; clear H
           end.
    destruct (row =? y), (column =? x); cbn [andb]; try reflexivity.
    destruct (facing_cases f Hf) as [-> | [-> | [-> | ->]]]; reflexivity.
  - repeat match goal with
           | H : forall y' x' f', rd3 _ y' x' f' = _ |- _ =>
               rewrite ?H; clear H
           end.
    destruct (Z.eqb_spec row y) as [<- |]; cbn [andb]; [| reflexivity].
    destruct (Z.eqb_spec column x) as [<- |]; cbn [andb]; [| reflexivity].
    unfold is_border_face.
    rewrite (isub_one (width_ m)), (isub_one (height_ m)) by lia.
    destruct (facing_cases f Hf) as [-> | [-> | [-> | ->]]];
      cbn [Z.eqb Pos.eqb andb orb]; rewrite ?orb_false_r;
      f_equal; rewrite Z.eqb_sym;
      match goal with |- context [?a =? ?b] => destruct (a =? b) end;
      reflexivity.
Qed.

(** STEP #6 as a whole: every face of every cell is set. *)
Lemma init_loops_ok (m : Map) (w : table Z) (p : table bool) :
  0 <= width_ m <= INT_MAX -> 0 <= height_ m <= INT_MAX ->
  shaped (height_ m) (width_ m) w -> shaped (height_ m) (width_ m) p ->
  exists w' p',
    for_up 0 (height_ m) (fun row =>
      for_up 0 (width_ m) (fun column => init_cell m row column)) (w, p)
    = Ok (w', p')
    /\ shaped (height_ m) (width_ m) w'
    /\ shaped (height_ m) (width_ m) p'
    /\ forall y x f, 0 <= y < height_ m -> 0 <= x < width_ m ->
         0 <= f < 4 ->
         rd3 w' y x f = Ok 0
         /\ rd3 p' y x f
            = Ok (negb (is_border_face (width_ m) (height_ m) x y f)).
Proof.
  intros HW HH Hsw Hsp.
  set (done := fun (s : list (list (list Z)) * list (list (list bool)))
                   (y x : Z) =>
         forall f, 0 <= f < 4 ->
           rd3 (fst s) y x f = Ok 0
           /\ rd3 (snd s) y x f
              = Ok (negb (is_border_face (width_ m) (height_ m) x y f))).
  set (ok := fun (s : list (list (list Z)) * list (list (list bool))) =>
         shaped (height_ m) (width_ m) (fst s)
         /\ shaped (height_ m) (width_ m) (snd s)).
  destruct (for_up_inv
              (fun i s => ok s
                 /\ forall y x, 0 <= y < i -> 0 <= x < width_ m -> done s y x)
              (fun row =>
                 for_up 0 (width_ m) (fun column => init_cell m row column))
              0 (height_ m) (w, p)) as ([w' p'] & Hrun & [Hw' Hp'] & Hdone).
  - lia.
  - split; [split; assumption |]. intros y x Hy. lia.
  - intros i s Hi [Hok Hrows].
    destruct (for_up_inv
                (fun j s => ok s
                   /\ (forall y x, 0 <= y < i -> 0 <= x < width_ m ->
                         done s y x)
                   /\ forall x, 0 <= x < j -> done s i x)
                (fun column => init_cell m i column)
                0 (width_ m) s) as (s' & Hrun & Hok' & Hrows' & Hrow').
    + lia.
    + split; [exact Hok |]. split; [exact Hrows |]. intros x Hx. lia.
    + intros j [w1 p1] Hj ([Hs1 Hs2] & Hprev & Hcur). simpl in Hs1, Hs2.
      destruct (init_cell_ok m i j w1 p1 HW HH Hs1 Hs2 Hi Hj)
        as (w2 & p2 & Hcell & Hs1' & Hs2' & Hrd).
      exists (w2, p2). split; [exact Hcell |].
      split; [split; assumption |]. split.
      * intros y x Hy Hx f Hf. simpl.
        destruct (Hrd y x f Hf) as [-> ->].
        replace (i =? y) with false by (symmetry; apply Z.eqb_neq; lia).
        apply (Hprev y x Hy Hx f Hf).
      * intros x Hx f Hf. simpl.
        destruct (Hrd i x f Hf) as [-> ->]. rewrite Z.eqb_refl.
        destruct (Z.eqb_spec j x) as [<- |]; cbn [andb]; [auto |].
        apply (Hcur x); [lia | exact Hf].
    + exists s'. split; [exact Hrun |]. split; [exact Hok' |].
      intros y x Hy Hx.
      destruct (Z.eq_dec y i) as [-> | Hne];
        [apply Hrow'; lia | apply Hrows'; lia].
  - exists w', p'. split; [exact Hrun |].
    split; [exact Hw' |]. split; [exact Hp' |].
    intros y x f Hy Hx Hf. apply (Hdone y x Hy Hx f Hf).
Qed.

(** C3: [ClearMap] on a [width_] x [height_] map returns a built map of
    the same dimensions in which every wall id is 0, passage is refused at
    the outward-facing border faces (face 3 of column 0, face 0 of row 0,
    face 1 of the last column, face 2 of the last row) and allowed at every
    other face of every cell. *)
Theorem ClearMap_border (m : Map) :
  clearable m ->
  exists m',
    ClearMap m = Ok m'
    /\ width_ m' = width_ m /\ height_ m' = height_ m
    /\ wf_map m'
    /\ forall x y f, 0 <= x < width_ m -> 0 <= y < height_ m ->
         0 <= f < 4 ->
         GetWallForCoordinate m' (mkPosition x y f) = Ok 0
         /\ CanPassWallForCoordinate m' (mkPosition x y f)
            = Ok (negb (is_border_face (width_ m) (height_ m) x y f)).
Proof.
  intros (HW & HH & Hwalls & Hpass & Hstart).
  destruct (alloc_table_ok uninit_int (height_ m) (width_ m))
    as (w0 & Hw0 & Hsw0); [lia | lia |].
  destruct (alloc_table_ok uninit_bool (height_ m) (width_ m))
    as (p0 & Hp0 & Hsp0); [lia | lia |].
  destruct (init_loops_ok m w0 p0 HW HH Hsw0 Hsp0)
    as (w' & p' & Hinit & Hsw' & Hsp' & Hrd).
  set (m' := mkMap (width_ m) (height_ m) (Some w') (Some p') None).
  exists m'. split; [| split; [reflexivity | split; [reflexivity | split]]].
  - unfold ClearMap.
    replace (match walls_ m with
             | Some t => release_table (height_ m) (width_ m) t
             | None => Ok ()
             end) with (Ok ()).
    2: { destruct (walls_ m) as [t |]; [| reflexivity].
         symmetry. apply release_table_ok; [lia | lia | exact Hwalls]. }
    cbn [mbind result_bind]. rewrite Hw0. cbn [mbind result_bind].
    replace (match passibility_ m with
             | Some t => release_table (height_ m) (width_ m) t
             | None => Ok ()
             end) with (Ok ()).
    2: { destruct (passibility_ m) as [t |]; [| reflexivity].
         symmetry. apply release_table_ok; [lia | lia | exact Hpass]. }
    cbn [mbind result_bind]. rewrite Hp0. cbn [mbind result_bind].
    replace (match startingPoints_ m with
             | Some sp => _ ← idx sp 0; Ok ()
             | None => Ok ()
             end) with (Ok ()).
    2: { destruct (startingPoints_ m) as [[| q sp] |];
           [contradiction | reflexivity | reflexivity]. }
    cbn [mbind result_bind]. rewrite Hinit. reflexivity.
  - unfold wf_map, m'. simpl. split; [lia | split; [lia |]].
    exists w', p'. auto.
  - intros x y f Hx Hy Hf.
    assert (Hin : in_grid m' (mkPosition x y f)) by (split; assumption).
    rewrite (GetWallForCoordinate_in_grid m' _ w' Hin eq_refl).
    rewrite (CanPassWallForCoordinate_in_grid m' _ p' Hin eq_refl).
    apply (Hrd y x f Hy Hx Hf).
Qed.

Lemma ClearMap_border_witness :
  clearable (mkMap 3 3 None None None)
  /\ exists m',
       ClearMap (mkMap 3 3 None None None) = Ok m'
       /\ CanPassWallForCoordinate m' (mkPosition 0 1 3) = Ok false
       /\ CanPassWallForCoordinate m' (mkPosition 1 1 3) = Ok true
       /\ GetWallForCoordinate m' (mkPosition 1 1 3) = Ok 0.
Proof.
  assert (Hc : clearable (mkMap 3 3 None None None)).
  { unfold clearable, INT_MAX. simpl. repeat split; lia. }
  split; [exact Hc |].
  destruct (ClearMap_border (mkMap 3 3 None None None) Hc)
    as (m' & Hrun & _ & _ & _ & Hfaces).
  exists m'. split; [exact Hrun |].
  simpl in Hfaces.
  split; [apply (Hfaces 0 1 3); lia |].
  split; [apply (Hfaces 1 1 3); lia |].
  apply (Hfaces 1 1 3); lia.
Defined.

(** ** WallSpriteSet: the depth bound of the image getters *)

Lemma sprintf_path_Ok (rootPath tag : string) (index : Z) (s : string) :
  sprintf_path rootPath tag index = Ok s -> s = image_path rootPath tag index.
Proof.
  unfold sprintf_path, image_path.
  destruct (_ <? 256); [| discriminate]. intros H. inversion H. reflexivity.
Qed.

(** What the constructor builds, when the nine file names fit the buffer. *)
Lemma WallSpriteSet_ctor_Ok (load : string -> option SDL_Surface)
    (rootPath : string) (s : WallSpriteSet) :
  WallSpriteSet_ctor load rootPath = Ok s ->
  s = mkWallSpriteSet
        [load (image_path rootPath "f" 0); load (image_path rootPath "f" 1);
         load (image_path rootPath "f" 2)]
        [load (image_path rootPath "l" 0); load (image_path rootPath "l" 1);
         load (image_path rootPath "l" 2)]
        [load (image_path rootPath "r" 0); load (image_path rootPath "r" 1);
         load (image_path rootPath "r" 2)]
        3.
Proof.
  unfold WallSpriteSet_ctor, for_up.
  change (Z.to_nat (3 - 0)) with 3%nat.
  cbn -[sprintf_path]. intros H.
  repeat match type of H with
         | context [sprintf_path ?a ?b ?c] =>
             let E := fresh "E" in
             destruct (sprintf_path a b c) eqn:E;
             [apply sprintf_path_Ok in E; subst;
              cbn -[sprintf_path] in H
             | discriminate H]
         end.
  inversion H. reflexivity.
Qed.

Lemma WallSpriteSet_ctor_wf (load : string -> option SDL_Surface)
    (rootPath : string) (s : WallSpriteSet) :
  WallSpriteSet_ctor load rootPath = Ok s -> wf_set s.
Proof.
  intros H. apply WallSpriteSet_ctor_Ok in H. subst s.
  repeat split.
Qed.

(** C7 (amended): for a constructed sprite set, whose [visibleDepth_] is 3,
    each getter returns null when range > visibleDepth and otherwise the
    element at index range of its array, which is what the loader gave for
    that file and so may itself be null; for 0 <= range < visibleDepth the
    access is in bounds, and range = visibleDepth passes the test and
    addresses one past the end of the three-element array. *)
Theorem sprite_getters_bound (load : string -> option SDL_Surface)
    (rootPath : string) (s : WallSpriteSet) (range : Z) :
  WallSpriteSet_ctor load rootPath = Ok s ->
  visibleDepth_ s = 3
  /\ (range > visibleDepth_ s ->
      GetFrontImage s range = Ok None
      /\ GetLeftImage s range = Ok None
      /\ GetRightImage s range = Ok None)
  /\ (range <= visibleDepth_ s ->
      GetFrontImage s range = idx (frontImages_ s) range
      /\ GetLeftImage s range = idx (leftImages_ s) range
      /\ GetRightImage s range = idx (rightImages_ s) range)
  /\ (0 <= range < visibleDepth_ s ->
      GetFrontImage s range = Ok (load (image_path rootPath "f" range))
      /\ GetLeftImage s range = Ok (load (image_path rootPath "l" range))
      /\ GetRightImage s range = Ok (load (image_path rootPath "r" range)))
  /\ (range = visibleDepth_ s ->
      GetFrontImage s range = Fault (OutOfRange 3 3)
      /\ GetLeftImage s range = Fault (OutOfRange 3 3)
      /\ GetRightImage s range = Fault (OutOfRange 3 3)).
Proof.
  intros H. apply WallSpriteSet_ctor_Ok in H. subst s.
  unfold GetFrontImage, GetLeftImage, GetRightImage.
  cbn [visibleDepth_ frontImages_ leftImages_ rightImages_].
  split; [reflexivity |]. split; [| split; [| split]].
  - intros Hr.
    replace (range >? 3) with true by (symmetry; apply Z.gtb_gt; lia).
    auto.
  - intros Hr.
    replace (range >? 3) with false
      by (symmetry; apply not_true_is_false; rewrite Z.gtb_gt; lia).
    auto.
  - intros Hr.
    assert (Hc : range = 0 \/ range = 1 \/ range = 2) by lia.
    destruct Hc as [-> | [-> | ->]]; auto.
  - intros ->. auto.
Qed.

Lemma sprite_getters_bound_witness :
  WallSpriteSet_ctor load_all "resources/stone_wall/"
  = Ok (mkWallSpriteSet
          [Some (Image "resources/stone_wall/f0.png");
           Some (Image "resources/stone_wall/f1.png");
           Some (Image "resources/stone_wall/f2.png")]
          [Some (Image "resources/stone_wall/l0.png");
           Some (Image "resources/stone_wall/l1.png");
           Some (Image "resources/stone_wall/l2.png")]
          [Some (Image "resources/stone_wall/r0.png");
           Some (Image "resources/stone_wall/r1.png");
           Some (Image "resources/stone_wall/r2.png")]
          3)
  /\ visibleDepth_
       (mkWallSpriteSet
          [Some (Image "resources/stone_wall/f0.png");
           Some (Image "resources/stone_wall/f1.png");
           Some (Image "resources/stone_wall/f2.png")]
          [Some (Image "resources/stone_wall/l0.png");
           Some (Image "resources/stone_wall/l1.png");
           Some (Image "resources/stone_wall/l2.png")]
          [Some (Image "resources/stone_wall/r0.png");
           Some (Image "resources/stone_wall/r1.png");
           Some (Image "resources/stone_wall/r2.png")]
          3) = 3.
Proof.
  split; [reflexivity |].
  apply (sprite_getters_bound load_all "resources/stone_wall/" _ 2).
  reflexivity.
Defined.

(** C7 as stated fails: with every image missing, [GetFrontImage] at rank 0
    returns null although 0 does not exceed [visibleDepth_]. *)
Lemma sprite_null_below_depth :
  WallSpriteSet_ctor load_none "resources/first_wall/" = Ok failed_set
  /\ ~ (GetFrontImage failed_set 0 = Ok None
        <-> 0 > visibleDepth_ failed_set).
Proof.
  split; [reflexivity |].
  intros [Hnull _]. specialize (Hnull eq_refl).
  vm_compute in Hnull. discriminate Hnull.
Qed.

(** ** MapView: the corridor renderer *)

Lemma Copy_eq (dst source : Position) : Copy dst source = source.
Proof. destruct source. reflexivity. Qed.

Lemma bind_ret_r {A} (r : result A) : (a ← r; Ok a) = r.
Proof. destruct r; reflexivity. Qed.

(** [DrawDistRank] with lateral spread 1 is five draws in a row. *)
Lemma DrawDistRank_spread_1 (v : MapView) (m : Map) (p : Position)
    (range : Z) (target : list DrawCmd) :
  DrawDistRank v m p range 1 target
  = (let basePoint := GetPositionAheadOfThis p range in
     t ← DrawStraightWall v m (GetPositionLeftOfThis basePoint 1) range (-1)
           target;
     t ← DrawStraightWall v m (GetPositionRightOfThis basePoint 1) range 1 t;
     t ← DrawLeftWall v m basePoint range 0 t;
     t ← DrawRightWall v m basePoint range 0 t;
     DrawStraightWall v m basePoint range 0 t).
Proof.
  unfold DrawDistRank, for_up, for_down.
  change (imul (-1) 1) with (-1).
  change (Z.to_nat (0 - -1)) with 1%nat. change (Z.to_nat (1 - 0)) with 1%nat.
  cbn [iter_loop]. change (imul (-1) (-1)) with 1.
  rewrite !Copy_eq. cbv zeta.
  destruct (DrawStraightWall v m _ range (-1) target) as [t1 | e];
    cbn [mbind result_bind]; [| reflexivity].
  destruct (DrawStraightWall v m _ range 1 t1) as [t2 | e];
    cbn [mbind result_bind]; reflexivity.
Qed.

Lemma GetWallSetNumber_zero (a : ArtManager) : GetWallSetNumber a 0 = None.
Proof. reflexivity. Qed.









Lemma rotations_valid (p : Position) :
  0 <= facing_ p < 4 ->
  0 <= facing_ (GetLeftFacingOfThis p) < 4
  /\ 0 <= facing_ (GetRightFacingOfThis p) < 4.
Proof.
  destruct p as [x y f]. simpl. intros Hf.
  destruct (facing_cases f Hf) as [-> | [-> | [-> | ->]]];
    vm_compute; repeat split; discriminate.
Qed.

Lemma GetPositionLeftOfThis_facing (p : Position) (n : Z) :
  facing_ (GetPositionLeftOfThis p n) = facing_ p.
Proof.
  unfold GetPositionLeftOfThis.
  destruct (facing_ p) as [|[[?|?|]|[?|?|]|]|?]; reflexivity.
Qed.

Lemma GetPositionRightOfThis_facing (p : Position) (n : Z) :
  facing_ (GetPositionRightOfThis p n) = facing_ p.
Proof.
  unfold GetPositionRightOfThis.
  destruct (facing_ p) as [|[[?|?|]|[?|?|]|]|?]; reflexivity.
Qed.









Lemma failed_art_built : ArtManager_ctor load_none = Ok failed_art.
Proof. reflexivity. Qed.


(** ** MiniMap *)

(** A loop whose body appends [g i] to the log appends them all, in order. *)
Lemma iter_loop_collect {X} (g : Z -> list X)
    (body : Z -> list X -> result (list X)) (n : nat) (i : Z) (s : list X) :
  (forall j s, i <= j < i + Z.of_nat n -> body j s = Ok (s ++ g j)) ->
  iter_loop n i 1 body s
  = Ok (s ++ concat (map g (seqZ i (Z.of_nat n)))).
Proof.
  revert i s. induction n as [| n IH]; intros i s Hbody.
  - cbn [iter_loop]. rewrite seqZ_nil by lia.
    cbn [map concat]. rewrite app_nil_r. reflexivity.
  - cbn [iter_loop]. rewrite Hbody by lia. cbn [mbind result_bind].
    rewrite IH by (intros j s' Hj; apply Hbody; lia).
    rewrite (seqZ_cons i (Z.of_nat (Datatypes.S n))) by lia.
    replace (Z.pred (Z.of_nat (Datatypes.S n))) with (Z.of_nat n) by lia.
    replace (Z.succ i) with (i + 1) by lia.
    simpl. rewrite <- app_assoc. reflexivity.
Qed.

Lemma for_up_collect {X} (g : Z -> list X)
    (body : Z -> list X -> result (list X)) (hi : Z) (s : list X) :
  (forall j s, 0 <= j < hi -> body j s = Ok (s ++ g j)) ->
  for_up 0 hi body s = Ok (s ++ concat (map g (seqZ 0 hi))).
Proof.
  intros Hbody. unfold for_up. rewrite Z.sub_0_r.
  rewrite (iter_loop_collect g) by (intros j s' Hj; apply Hbody; lia).
  destruct (Z.le_gt_cases 0 hi) as [Hpos | Hneg].
  - rewrite Z2Nat.id by exact Hpos. reflexivity.
  - rewrite !seqZ_nil by lia. reflexivity.
Qed.

Lemma idiv_ok (a b : Z) : b <> 0 -> idiv a b = Ok (wrap (Z.quot a b)).
Proof.
  intros Hb. unfold idiv.
  replace (b =? 0) with false by (symmetry; apply Z.eqb_neq; exact Hb).
  reflexivity.
Qed.

(** C8 (amended): on every [Update] of a mini-map with a surface, over a
    map with non-zero dimensions, the surface is cleared and then, row by
    row and column by column, each cell is filled with the player colour or
    the visited colour only inside the branch where [IsVisited] holds (the
    player colour when the cell is the player's), and with the unvisited
    colour otherwise; [IsVisited] is false for every argument, so every
    cell, the player's included, is filled with the unvisited colour. *)
Theorem Update_colors (created : bool) (gs : GameState) (mm : MiniMap)
    (m : Map) (s : list DrawCmd) :
  mm_currentMap_ mm = Some m -> surface_ready created mm s ->
  width_ m <> 0 -> height_ m <> 0 ->
  let cw := wrap (Z.quot (mm_width_ mm) (width_ m)) in
  let ch := wrap (Z.quot (mm_height_ mm) (height_ m)) in
  let px := x_ (playerPosition_ gs) in
  let pz := y_ (playerPosition_ gs) in
  let cells (color : Z -> Z -> Color) :=
    concat (map (fun row =>
      concat (map (fun column =>
        [FillRect (Some (cell_box cw ch column row)) (color column row)])
        (seqZ 0 (width_ m)))) (seqZ 0 (height_ m))) in
  Update created gs mm
  = Ok (mkMiniMap (Some m)
          (Some ((s ++ [FillRect None (SDL_MapRGB 0 0 0)])
                 ++ cells (fun column row =>
                      if IsVisited m column row
                      then if (row =? pz) && (column =? px)
                           then playerCellColor
                           else visitedCellColor
                      else notVisitedCellColor)))
          (mm_width_ mm) (mm_height_ mm))
  /\ (forall column row, IsVisited m column row = false)
  /\ cells (fun column row =>
        if IsVisited m column row
        then if (row =? pz) && (column =? px)
             then playerCellColor
             else visitedCellColor
        else notVisitedCellColor)
     = cells (fun _ _ => notVisitedCellColor).
Proof.
  intros Hmap Hsurf Hw Hh cw ch px pz cells.
  split; [| split; [reflexivity | reflexivity]].
  unfold Update, RecreateMiniMapSurface.
  assert (Hs : match miniMapSurface_ mm with
               | Some s0 => Some s0
               | None => if created then Some [] else None
               end = Some s).
  { destruct Hsurf as [-> | (-> & -> & ->)]; reflexivity. }
  rewrite Hs, Hmap. cbn [deref mbind result_bind].
  unfold GetWidth, GetHeight.
  rewrite (idiv_ok _ _ Hw), (idiv_ok _ _ Hh). cbn [mbind result_bind].
  fold cw ch px pz. unfold SDL_FillRect.
  rewrite (for_up_collect
             (fun row =>
                concat (map (fun column =>
                  [FillRect (Some (cell_box cw ch column row))
                     (cell_color m px pz column row)])
                  (seqZ 0 (width_ m))))).
  - reflexivity.
  - intros row s' _.
    apply (for_up_collect
             (fun column =>
                [FillRect (Some (cell_box cw ch column row))
                   (cell_color m px pz column row)])).
    intros column s'' _. reflexivity.
Qed.

Lemma Update_colors_witness :
  mm_currentMap_ demo_minimap = Some demo_map
  /\ surface_ready true demo_minimap []
  /\ width_ demo_map <> 0 /\ height_ demo_map <> 0
  /\ forall column row, IsVisited demo_map column row = false.
Proof.
  assert (Hs : surface_ready true demo_minimap [])
    by (right; repeat split; reflexivity).
  assert (Hw : width_ demo_map <> 0) by (simpl; lia).
  assert (Hh : height_ demo_map <> 0) by (simpl; lia).
  split; [reflexivity |]. split; [exact Hs |].
  split; [exact Hw |]. split; [exact Hh |].
  apply (Update_colors true demo_gs demo_minimap demo_map [] eq_refl Hs
           Hw Hh).
Defined.

(** C8 as stated fails: the player stands on cell (1, 1) of the 3 x 3 map,
    the stated rule gives that cell the player colour, and [Update] fills
    it, like all the others, with the unvisited colour. *)
Lemma Update_player_cell_unmarked :
  spec_cell_color demo_map 1 1 1 1 = playerCellColor
  /\ exists mm surface,
       Update true demo_gs demo_minimap = Ok mm
       /\ miniMapSurface_ mm = Some surface
       /\ surface !! 5%nat
          = Some (FillRect (Some (cell_box 46 46 1 1)) notVisitedCellColor)
       /\ ~ In (FillRect (Some (cell_box 46 46 1 1))
                  (spec_cell_color demo_map 1 1 1 1)) surface.
Proof.
  split; [reflexivity |].
  eexists. eexists. split; [vm_compute; reflexivity |].
  split; [reflexivity |]. split; [reflexivity |].
  vm_compute. intros H.
  repeat (destruct H as [H | H]; [discriminate H |]).
  exact H.
Qed.

(** * Further properties *)

(** ** Position: lateral steps *)

(** X1: for every facing value and every step count, a step to the left
    followed by the same step to the right gives back (x, y), and both
    steps keep the facing. *)
Theorem left_right_inverse (p : Position) (n : Z) :
  int_range (x_ p) -> int_range (y_ p) ->
  x_ (GetPositionRightOfThis (GetPositionLeftOfThis p n) n) = x_ p
  /\ y_ (GetPositionRightOfThis (GetPositionLeftOfThis p n) n) = y_ p
  /\ x_ (GetPositionLeftOfThis (GetPositionRightOfThis p n) n) = x_ p
  /\ y_ (GetPositionLeftOfThis (GetPositionRightOfThis p n) n) = y_ p
  /\ facing_ (GetPositionLeftOfThis p n) = facing_ p
  /\ facing_ (GetPositionRightOfThis p n) = facing_ p.
Proof.
  intros Hx Hy.
  repeat match goal with |- _ /\ _ => split end;
    [ | | | | apply GetPositionLeftOfThis_facing
            | apply GetPositionRightOfThis_facing ].
  all: destruct p as [x y f]; simpl in Hx, Hy;
    unfold GetPositionLeftOfThis, GetPositionRightOfThis;
    destruct f as [|[[?|?|]|[?|?|]|]|?]; simpl;
    apply iadd_cancel; auto using imul_neg1_cancel_l, imul_neg1_cancel_r.
Qed.

Lemma left_right_inverse_witness :
  int_range (x_ (mkPosition 4 2 2)) /\ int_range (y_ (mkPosition 4 2 2))
  /\ x_ (GetPositionRightOfThis
           (GetPositionLeftOfThis (mkPosition 4 2 2) 3) 3) = 4.
Proof.
  assert (Hx : int_range (x_ (mkPosition 4 2 2)))
    by (vm_compute; split; discriminate).
  assert (Hy : int_range (y_ (mkPosition 4 2 2)))
    by (vm_compute; split; discriminate).
  split; [exact Hx | split; [exact Hy |]].
  apply (left_right_inverse (mkPosition 4 2 2) 3 Hx Hy).
Defined.

Lemma left_step_as_ahead (p : Position) (n : Z) :
  0 <= facing_ p < 4 ->
  GetPositionAheadOfThis (GetLeftFacingOfThis p) n
  = mkPosition (x_ (GetPositionLeftOfThis p n))
      (y_ (GetPositionLeftOfThis p n)) (facing_ (GetLeftFacingOfThis p)).
Proof.
  destruct p as [x y f]. simpl. intros Hf.
  destruct (facing_cases f Hf) as [-> | [-> | [-> | ->]]]; reflexivity.
Qed.

Lemma right_step_as_ahead (p : Position) (n : Z) :
  0 <= facing_ p < 4 ->
  GetPositionAheadOfThis (GetRightFacingOfThis p) n
  = mkPosition (x_ (GetPositionRightOfThis p n))
      (y_ (GetPositionRightOfThis p n)) (facing_ (GetRightFacingOfThis p)).
Proof.
  destruct p as [x y f]. simpl. intros Hf.
  destruct (facing_cases f Hf) as [-> | [-> | [-> | ->]]]; reflexivity.
Qed.

Lemma behind_step_as_ahead (p : Position) (n : Z) :
  0 <= facing_ p < 4 ->
  GetPositionAheadOfThis (GetLeftFacingOfThis (GetLeftFacingOfThis p)) n
  = mkPosition (x_ (GetPositionBehindThis p n))
      (y_ (GetPositionBehindThis p n))
      (facing_ (GetLeftFacingOfThis (GetLeftFacingOfThis p))).
Proof.
  destruct p as [x y f]. simpl. intros Hf.
  destruct (facing_cases f Hf) as [-> | [-> | [-> | ->]]]; reflexivity.
Qed.

(** X2: for the four facings, the cell reached by a step to the left is the
    cell ahead after a left turn, the cell reached by a step to the right is
    the cell ahead after a right turn, and the cell behind is the cell ahead
    after two left turns. *)
Theorem lateral_steps_as_turned_ahead (p : Position) (n : Z) :
  0 <= facing_ p < 4 ->
  (x_ (GetPositionLeftOfThis p n) = x_ (GetPositionAheadOfThis
                                          (GetLeftFacingOfThis p) n)
   /\ y_ (GetPositionLeftOfThis p n) = y_ (GetPositionAheadOfThis
                                             (GetLeftFacingOfThis p) n))
  /\ (x_ (GetPositionRightOfThis p n) = x_ (GetPositionAheadOfThis
                                             (GetRightFacingOfThis p) n)
      /\ y_ (GetPositionRightOfThis p n) = y_ (GetPositionAheadOfThis
                                                (GetRightFacingOfThis p) n))
  /\ (x_ (GetPositionBehindThis p n)
      = x_ (GetPositionAheadOfThis
              (GetLeftFacingOfThis (GetLeftFacingOfThis p)) n)
      /\ y_ (GetPositionBehindThis p n)
         = y_ (GetPositionAheadOfThis
                 (GetLeftFacingOfThis (GetLeftFacingOfThis p)) n)).
Proof.
  intros Hf.
  rewrite (left_step_as_ahead p n Hf), (right_step_as_ahead p n Hf),
    (behind_step_as_ahead p n Hf).
  simpl. auto.
Qed.

Lemma lateral_steps_as_turned_ahead_witness :
  0 <= facing_ (mkPosition 5 5 0) < 4
  /\ x_ (GetPositionLeftOfThis (mkPosition 5 5 0) 2)
     = x_ (GetPositionAheadOfThis
             (GetLeftFacingOfThis (mkPosition 5 5 0)) 2).
Proof.
  split; [simpl; lia |].
  apply (lateral_steps_as_turned_ahead (mkPosition 5 5 0) 2). simpl. lia.
Defined.

(** ** GameState: turning and the other three moves *)

Lemma left_then_right (p : Position) :
  0 <= facing_ p < 4 ->
  GetRightFacingOfThis (GetLeftFacingOfThis p) = p
  /\ GetLeftFacingOfThis (GetRightFacingOfThis p) = p.
Proof.
  destruct p as [x y f]. simpl. intros Hf.
  destruct (facing_cases f Hf) as [-> | [-> | [-> | ->]]];
    split; reflexivity.
Qed.

(** X3: for the four facings, [TurnPlayerLeft] and [TurnPlayerRight] undo
    each other and four left turns change nothing; a turn never changes the
    map or the cell, and leaves a facing among the four. *)
Theorem turns_inverse (gs : GameState) :
  0 <= facing_ (playerPosition_ gs) < 4 ->
  TurnPlayerRight (TurnPlayerLeft gs) = gs
  /\ TurnPlayerLeft (TurnPlayerRight gs) = gs
  /\ TurnPlayerLeft (TurnPlayerLeft (TurnPlayerLeft (TurnPlayerLeft gs))) = gs
  /\ currentMap_ (TurnPlayerLeft gs) = currentMap_ gs
  /\ currentMap_ (TurnPlayerRight gs) = currentMap_ gs
  /\ x_ (playerPosition_ (TurnPlayerLeft gs)) = x_ (playerPosition_ gs)
  /\ y_ (playerPosition_ (TurnPlayerLeft gs)) = y_ (playerPosition_ gs)
  /\ x_ (playerPosition_ (TurnPlayerRight gs)) = x_ (playerPosition_ gs)
  /\ y_ (playerPosition_ (TurnPlayerRight gs)) = y_ (playerPosition_ gs)
  /\ 0 <= facing_ (playerPosition_ (TurnPlayerLeft gs)) < 4
  /\ 0 <= facing_ (playerPosition_ (TurnPlayerRight gs)) < 4.
Proof.
  destruct gs as [cm [x y f]]. simpl. intros Hf.
  destruct (facing_cases f Hf) as [-> | [-> | [-> | ->]]];
    vm_compute; repeat split; discriminate.
Qed.

Lemma turns_inverse_witness :
  0 <= facing_ (playerPosition_ demo_gs) < 4
  /\ TurnPlayerRight (TurnPlayerLeft demo_gs) = demo_gs.
Proof.
  split; [simpl; unfold PLAYER_FACING_EAST; lia |].
  apply (turns_inverse demo_gs). simpl. unfold PLAYER_FACING_EAST. lia.
Defined.

(** X4: for the four facings, a step to the left is a left turn, a step
    forward and a right turn; a step to the right is a right turn, a step
    forward and a left turn; a step back is two left turns, a step forward
    and two more left turns.  Answers, states and faults all agree. *)
Theorem moves_as_turn_forward_turn (gs : GameState) :
  0 <= facing_ (playerPosition_ gs) < 4 ->
  MovePlayerLeft gs
  = ('(moved, gs1) ← MovePlayerForward (TurnPlayerLeft gs);
     Ok (moved, TurnPlayerRight gs1))
  /\ MovePlayerRight gs
     = ('(moved, gs1) ← MovePlayerForward (TurnPlayerRight gs);
        Ok (moved, TurnPlayerLeft gs1))
  /\ MovePlayerBack gs
     = ('(moved, gs1) ←
          MovePlayerForward (TurnPlayerLeft (TurnPlayerLeft gs));
        Ok (moved, TurnPlayerLeft (TurnPlayerLeft gs1))).
Proof.
  destruct gs as [[m |] [x y f]]; simpl; intros Hf;
    [| repeat split; reflexivity].
  destruct (facing_cases f Hf) as [-> | [-> | [-> | ->]]];
    unfold MovePlayerLeft, MovePlayerRight, MovePlayerBack,
      MovePlayerForward, TurnPlayerLeft, TurnPlayerRight;
    cbn [currentMap_ playerPosition_ deref mbind result_bind];
    rewrite !Copy_eq;
    repeat split;
    match goal with
    | |- context [CanPassWallForCoordinate m ?q] =>
        change (CanPassWallForCoordinate m q)
          with (CanPassWallForCoordinate m
                  (mkPosition (x_ q) (y_ q) (facing_ q)));
        cbn [x_ y_ facing_ GetLeftFacingOfThis GetRightFacingOfThis];
        match goal with
        | |- context [CanPassWallForCoordinate m ?q'] =>
            destruct (CanPassWallForCoordinate m q') as [[|] | e]
        end
    end;
    reflexivity.
Qed.

Lemma moves_as_turn_forward_turn_witness :
  0 <= facing_ (playerPosition_ demo_gs) < 4
  /\ MovePlayerLeft demo_gs
     = ('(moved, gs1) ← MovePlayerForward (TurnPlayerLeft demo_gs);
        Ok (moved, TurnPlayerRight gs1)).
Proof.
  split; [simpl; unfold PLAYER_FACING_EAST; lia |].
  apply (moves_as_turn_forward_turn demo_gs).
  simpl. unfold PLAYER_FACING_EAST. lia.
Defined.

Lemma rotations_keep_cell (m : Map) (p : Position) :
  (in_grid m (GetLeftFacingOfThis p) <-> in_grid m p)
  /\ (in_grid m (GetRightFacingOfThis p) <-> in_grid m p).
Proof. split; reflexivity. Qed.

(** X5: a player who is not on a cell of the grid cannot move: each of the
    four moves answers false and changes nothing, whatever the facing. *)
Theorem outside_grid_no_move (gs : GameState) (m : Map) :
  currentMap_ gs = Some m -> ~ in_grid m (playerPosition_ gs) ->
  MovePlayerForward gs = Ok (false, gs)
  /\ MovePlayerBack gs = Ok (false, gs)
  /\ MovePlayerLeft gs = Ok (false, gs)
  /\ MovePlayerRight gs = Ok (false, gs).
Proof.
  intros Hmap Hout.
  unfold MovePlayerForward, MovePlayerBack, MovePlayerLeft, MovePlayerRight.
  rewrite Hmap. cbn [deref mbind result_bind]. rewrite !Copy_eq.
  rewrite !CanPassWallForCoordinate_outside; auto.
Qed.

Lemma outside_grid_no_move_witness :
  currentMap_ (mkGameState (Some demo_map) (mkPosition (-1) 1 3))
  = Some demo_map
  /\ ~ in_grid demo_map
         (playerPosition_ (mkGameState (Some demo_map) (mkPosition (-1) 1 3)))
  /\ MovePlayerBack (mkGameState (Some demo_map) (mkPosition (-1) 1 3))
     = Ok (false, mkGameState (Some demo_map) (mkPosition (-1) 1 3)).
Proof.
  assert (Hout : ~ in_grid demo_map
                     (playerPosition_
                        (mkGameState (Some demo_map) (mkPosition (-1) 1 3))))
    by (unfold in_grid; simpl; lia).
  split; [reflexivity |]. split; [exact Hout |].
  apply (outside_grid_no_move
           (mkGameState (Some demo_map) (mkPosition (-1) 1 3)) demo_map
           eq_refl Hout).
Defined.

(** ** Map: what the wall operations store and what they leave *)

Lemma wr3_Ok_inv {A} (h w : Z) (t t' : table A) (y x f : Z) (v : A) :
  shaped h w t -> wr3 t y x f v = Ok t' ->
  0 <= y < h /\ 0 <= x < w /\ 0 <= f < 4.
Proof.
  intros [Hlen Hrows] H. unfold wr3 in H.
  apply bind_Ok in H as (r & Hr & H).
  apply bind_Ok in H as (c & Hc & H).
  apply bind_Ok in H as (c' & Hc' & H).
  apply idx_Ok_inv in Hr as [Hy Hr]. apply idx_Ok_inv in Hc as [Hx Hc].
  pose proof (Forall_lookup_1 _ _ _ _ Hrows Hr) as [Hw Hcells].
  pose proof (Forall_lookup_1 _ _ _ _ Hcells Hc) as H4.
  unfold upd in Hc'.
  destruct ((0 <=? f) && (f <? Z.of_nat (length c))) eqn:Hf;
    [| discriminate].
  apply andb_prop in Hf as [Hf0 Hf1].
  apply Z.leb_le in Hf0. apply Z.ltb_lt in Hf1. cbv beta in H4. lia.
Qed.

Lemma same_face_spec (a b : Position) : same_face a b = true <-> a = b.
Proof.
  destruct a as [ax ay af], b as [bx by_ bf]. unfold same_face. simpl.
  split.
  - intros H. repeat (apply andb_prop in H as [H ?]).
    repeat match goal with
           | Hb : (_ =? _) = true |- _ => apply Z.eqb_eq in Hb
           end.
    subst. reflexivity.
  - intros H. inversion H. subst. rewrite !Z.eqb_refl. reflexivity.
Qed.

(** The two stores of a wall operation at a grid cell [p] with a facing
    among the four, written with value [v] for a table [t]: the outcome, as
    seen by the reads at grid cells. *)
Lemma wall_stores_spec {A} (m : Map) (t t1 : table A) (p : Position)
    (v : A) :
  0 <= width_ m <= INT_MAX -> 0 <= height_ m <= INT_MAX ->
  shaped (height_ m) (width_ m) t -> in_grid m p -> 0 <= facing_ p < 4 ->
  wr3 t (y_ p) (x_ p) (facing_ p) v = Ok t1 ->
  shaped (height_ m) (width_ m) t1
  /\ (forall q, rd3 t1 (y_ q) (x_ q) (facing_ q)
               = if same_face p q then Ok v
                 else rd3 t (y_ q) (x_ q) (facing_ q))
  /\ forall t2,
       wr3 t1 (y_ (GetPositionAheadOfThis p 1))
         (x_ (GetPositionAheadOfThis p 1)) (irem (iadd (facing_ p) 2) 4) v
       = Ok t2 ->
       in_grid m (GetPositionAheadOfThis p 1)
       /\ shaped (height_ m) (width_ m) t2
       /\ forall q, rd3 t2 (y_ q) (x_ q) (facing_ q)
                    = if touched p q then Ok v
                      else rd3 t (y_ q) (x_ q) (facing_ q).
Proof.
  intros HW HH Hs [Hx Hy] Hf Hrun.
  destruct (wr3_ok _ _ t _ _ _ v Hs Hy Hx Hf) as (t1' & Hrun' & Hs1 & Hr1).
  rewrite Hrun in Hrun'. inversion Hrun'. subst t1'. clear Hrun'.
  assert (Hsame : forall a b, same_face a b
                  = (y_ a =? y_ b) && (x_ a =? x_ b)
                    && (facing_ a =? facing_ b)).
  { intros a b. unfold same_face.
    destruct (x_ a =? x_ b), (y_ a =? y_ b); reflexivity. }
  split; [exact Hs1 |]. split.
  - intros q. rewrite Hr1, Hsame. reflexivity.
  - intros t2 Hrun2.
    destruct (opposite_face _ Hf) as [Hopp Hoppr]. rewrite Hopp in Hrun2.
    destruct (wr3_Ok_inv _ _ _ _ _ _ _ _ Hs1 Hrun2) as (Hqy & Hqx & _).
    destruct (wr3_ok _ _ t1 _ _ _ v Hs1 Hqy Hqx Hoppr)
      as (t2' & Hrun2' & Hs2 & Hr2).
    rewrite Hrun2 in Hrun2'. inversion Hrun2'. subst t2'. clear Hrun2'.
    split; [split; assumption |]. split; [exact Hs2 |].
    intros q. rewrite Hr2, Hr1. unfold touched.
    rewrite (Hsame p q), (Hsame (opposite p) q). unfold opposite.
    cbn [x_ y_ facing_].
    destruct ((y_ p =? y_ q) && (x_ p =? x_ q) && (facing_ p =? facing_ q));
      cbn [orb];
      destruct (_ && _); reflexivity.
Qed.

Lemma MakeNormalWall_as_store (m : Map) (p : Position) (wallID : Z) :
  MakeNormalWall m p wallID = store_wall m p wallID false.
Proof. reflexivity. Qed.

Lemma RemoveWall_as_store (m : Map) (p : Position) :
  RemoveWall m p = store_wall m p 0 true.
Proof. reflexivity. Qed.

Lemma opposite_outside (m : Map) (p q : Position) :
  ~ in_grid m (GetPositionAheadOfThis p 1) -> in_grid m q ->
  same_face (opposite p) q = false.
Proof.
  intros Hout Hq. apply not_true_is_false. intros H.
  apply same_face_spec in H. subst q. apply Hout. exact Hq.
Qed.

Lemma InBounds_false_outside (m : Map) (q : Position) :
  InBounds q 0 0 (width_ m) (height_ m) true = false -> ~ in_grid m q.
Proof.
  unfold InBounds, in_grid. cbn [negb]. intros H [Hx Hy].
  apply not_true_iff_false in H. apply H.
  repeat (apply andb_true_intro; split); apply Z.leb_le; lia.
Qed.

(** What a wall operation that completes leaves behind. *)
Lemma store_wall_spec (m m' : Map) (p : Position) (wv : Z) (pv : bool) :
  wf_map m -> in_grid m p -> 0 <= facing_ p < 4 ->
  store_wall m p wv pv = Ok m' ->
  width_ m' = width_ m /\ height_ m' = height_ m
  /\ startingPoints_ m' = startingPoints_ m
  /\ wf_map m'
  /\ forall q, in_grid m q ->
       GetWallForCoordinate m' q
       = (if touched p q then Ok wv else GetWallForCoordinate m q)
       /\ CanPassWallForCoordinate m' q
          = (if touched p q then Ok pv else CanPassWallForCoordinate m q).
Proof.
  intros (HW & HH & w & t & Hwalls & Hpass & Hsw & Hst) Hin Hf Hrun.
  unfold store_wall in Hrun. rewrite Hwalls, Hpass in Hrun.
  cbn [deref mbind result_bind] in Hrun.
  apply bind_Ok in Hrun as (w1 & Hw1 & Hrun).
  apply bind_Ok in Hrun as (t1 & Ht1 & Hrun).
  rewrite Copy_eq in Hrun.
  destruct (wall_stores_spec m w w1 p wv HW HH Hsw Hin Hf Hw1)
    as (Hsw1 & Hrw1 & Hw2).
  destruct (wall_stores_spec m t t1 p pv HW HH Hst Hin Hf Ht1)
    as (Hst1 & Hrt1 & Ht2).
  destruct (InBounds _ 0 0 (width_ m) (height_ m) true) eqn:Hb.
  - apply bind_Ok in Hrun as (w2 & Hrw2 & Hrun).
    apply bind_Ok in Hrun as (t2 & Hrt2 & Hrun).
    inversion Hrun. subst m'. clear Hrun. cbn [width_ height_ startingPoints_].
    destruct (Hw2 w2 Hrw2) as (Hq & Hsw2 & Hr2).
    destruct (Ht2 t2 Hrt2) as (_ & Hst2 & Hq2).
    split; [reflexivity |]. split; [reflexivity |]. split; [reflexivity |].
    split.
    + split; [exact HW | split; [exact HH |]]. exists w2, t2. auto.
    + intros q Hinq.
      rewrite (GetWallForCoordinate_in_grid
                 (mkMap (width_ m) (height_ m) (Some w2) (Some t2)
                    (startingPoints_ m)) q w2 Hinq eq_refl).
      rewrite (CanPassWallForCoordinate_in_grid
                 (mkMap (width_ m) (height_ m) (Some w2) (Some t2)
                    (startingPoints_ m)) q t2 Hinq eq_refl).
      rewrite (GetWallForCoordinate_in_grid m q w Hinq Hwalls).
      rewrite (CanPassWallForCoordinate_in_grid m q t Hinq Hpass).
      rewrite Hr2, Hq2. auto.
  - inversion Hrun. subst m'. clear Hrun. cbn [width_ height_ startingPoints_].
    apply InBounds_false_outside in Hb.
    split; [reflexivity |]. split; [reflexivity |]. split; [reflexivity |].
    split.
    + split; [exact HW | split; [exact HH |]]. exists w1, t1. auto.
    + intros q Hinq.
      rewrite (GetWallForCoordinate_in_grid
                 (mkMap (width_ m) (height_ m) (Some w1) (Some t1)
                    (startingPoints_ m)) q w1 Hinq eq_refl).
      rewrite (CanPassWallForCoordinate_in_grid
                 (mkMap (width_ m) (height_ m) (Some w1) (Some t1)
                    (startingPoints_ m)) q t1 Hinq eq_refl).
      rewrite (GetWallForCoordinate_in_grid m q w Hinq Hwalls).
      rewrite (CanPassWallForCoordinate_in_grid m q t Hinq Hpass).
      rewrite Hrw1, Hrt1. unfold touched.
      rewrite (opposite_outside m p q Hb Hinq), orb_false_r. auto.
Qed.

(** When a wall operation completes: the neighbour ahead is a grid cell or
    fails the inclusive bounds test. *)
Lemma store_wall_runs (m : Map) (p : Position) (wv : Z) (pv : bool) :
  wf_map m -> in_grid m p -> 0 <= facing_ p < 4 ->
  in_grid m (GetPositionAheadOfThis p 1)
  \/ InBounds (GetPositionAheadOfThis p 1) 0 0 (width_ m) (height_ m) true
     = false ->
  exists m', store_wall m p wv pv = Ok m'.
Proof.
  intros (HW & HH & w & t & Hwalls & Hpass & Hsw & Hst) [Hx Hy] Hf Hahead.
  unfold store_wall. rewrite Hwalls, Hpass.
  cbn [deref mbind result_bind].
  destruct (wr3_ok _ _ w _ _ _ wv Hsw Hy Hx Hf) as (w1 & -> & Hsw1 & _).
  cbn [mbind result_bind].
  destruct (wr3_ok _ _ t _ _ _ pv Hst Hy Hx Hf) as (t1 & -> & Hst1 & _).
  cbn [mbind result_bind]. rewrite Copy_eq.
  destruct Hahead as [[Hqx Hqy] | ->]; [| eexists; reflexivity].
  destruct (InBounds _ 0 0 (width_ m) (height_ m) true);
    [| eexists; reflexivity].
  destruct (opposite_face _ Hf) as [-> Hoppr].
  destruct (wr3_ok _ _ w1 _ _ _ wv Hsw1 Hqy Hqx Hoppr) as (w2 & -> & _).
  cbn [mbind result_bind].
  destruct (wr3_ok _ _ t1 _ _ _ pv Hst1 Hqy Hqx Hoppr) as (t2 & -> & _).
  eexists. reflexivity.
Qed.

(** Two tables of the same shape with the same content at every face are
    the same table. *)
Lemma table_ext {A} (h w : Z) (t1 t2 : table A) :
  shaped h w t1 -> shaped h w t2 ->
  (forall y x f, 0 <= y < h -> 0 <= x < w -> 0 <= f < 4 ->
     rd3 t1 y x f = rd3 t2 y x f) ->
  t1 = t2.
Proof.
  intros Hs1 Hs2 Hrd.
  pose proof Hs1 as [Hl1 Hr1]. pose proof Hs2 as [Hl2 Hr2].
  apply list_eq. intros i.
  destruct (decide (i < length t1)%nat) as [Hi | Hi].
  2: { rewrite !lookup_ge_None_2 by lia. reflexivity. }
  assert (Hy : 0 <= Z.of_nat i < h) by lia.
  destruct (shaped_row h w t1 _ Hs1 Hy) as (r1 & Hi1 & Hw1).
  destruct (shaped_row h w t2 _ Hs2 Hy) as (r2 & Hi2 & Hw2).
  apply idx_Ok_inv in Hi1 as [_ Hi1]. apply idx_Ok_inv in Hi2 as [_ Hi2].
  rewrite Nat2Z.id in Hi1, Hi2. rewrite Hi1, Hi2. f_equal.
  pose proof (Forall_lookup_1 _ _ _ _ Hr1 Hi1) as [_ Hc1].
  pose proof (Forall_lookup_1 _ _ _ _ Hr2 Hi2) as [_ Hc2].
  apply list_eq. intros j.
  destruct (decide (j < length r1)%nat) as [Hj | Hj].
  2: { rewrite !lookup_ge_None_2 by lia. reflexivity. }
  assert (Hx : 0 <= Z.of_nat j < w) by lia.
  destruct (lookup_lt_is_Some_2 r1 j) as [c1 Hj1]; [lia |].
  destruct (lookup_lt_is_Some_2 r2 j) as [c2 Hj2]; [lia |].
  rewrite Hj1, Hj2. f_equal.
  pose proof (Forall_lookup_1 _ _ _ _ Hc1 Hj1) as H41.
  pose proof (Forall_lookup_1 _ _ _ _ Hc2 Hj2) as H42.
  cbv beta in H41, H42.
  apply list_eq. intros k.
  destruct (decide (k < 4)%nat) as [Hk | Hk].
  2: { rewrite !lookup_ge_None_2 by lia. reflexivity. }
  assert (Hf : 0 <= Z.of_nat k < 4) by lia.
  specialize (Hrd _ _ _ Hy Hx Hf). unfold rd3 in Hrd.
  rewrite (idx_lookup t1 _ r1), (idx_lookup t2 _ r2) in Hrd
    by (try lia; rewrite Nat2Z.id; assumption).
  cbn [mbind result_bind] in Hrd.
  rewrite (idx_lookup r1 _ c1), (idx_lookup r2 _ c2) in Hrd
    by (try lia; rewrite Nat2Z.id; assumption).
  cbn [mbind result_bind] in Hrd.
  destruct (lookup_lt_is_Some_2 c1 k) as [v1 Hk1]; [lia |].
  destruct (lookup_lt_is_Some_2 c2 k) as [v2 Hk2]; [lia |].
  rewrite (idx_lookup c1 _ v1), (idx_lookup c2 _ v2) in Hrd
    by (try lia; rewrite Nat2Z.id; assumption).
  rewrite Hk1, Hk2. inversion Hrd. reflexivity.
Qed.

(** Two built maps with the same dimensions, starting points and answers
    at every face of every cell are the same map. *)
Lemma map_ext (m1 m2 : Map) :
  wf_map m1 -> wf_map m2 ->
  width_ m1 = width_ m2 -> height_ m1 = height_ m2 ->
  startingPoints_ m1 = startingPoints_ m2 ->
  (forall q, in_grid m1 q -> 0 <= facing_ q < 4 ->
     GetWallForCoordinate m1 q = GetWallForCoordinate m2 q
     /\ CanPassWallForCoordinate m1 q = CanPassWallForCoordinate m2 q) ->
  m1 = m2.
Proof.
  intros (HW1 & HH1 & w1 & t1 & Hw1 & Ht1 & Hsw1 & Hst1)
         (HW2 & HH2 & w2 & t2 & Hw2 & Ht2 & Hsw2 & Hst2) Hw Hh Hsp Hrd.
  destruct m1 as [wd1 ht1 ow1 ot1 sp1], m2 as [wd2 ht2 ow2 ot2 sp2].
  cbn [width_ height_ walls_ passibility_ startingPoints_] in *.
  subst. f_equal.
  - f_equal. apply (table_ext ht2 wd2); [assumption | assumption |].
    intros y x f Hy Hx Hf.
    destruct (Hrd (mkPosition x y f)) as [Hwall _];
      [split; assumption | exact Hf |].
    rewrite (GetWallForCoordinate_in_grid _ _ w1) in Hwall
      by (try reflexivity; split; assumption).
    rewrite (GetWallForCoordinate_in_grid _ _ w2) in Hwall
      by (try reflexivity; split; assumption).
    exact Hwall.
  - f_equal. apply (table_ext ht2 wd2); [assumption | assumption |].
    intros y x f Hy Hx Hf.
    destruct (Hrd (mkPosition x y f)) as [_ Hcan];
      [split; assumption | exact Hf |].
    rewrite (CanPassWallForCoordinate_in_grid _ _ t1) in Hcan
      by (try reflexivity; split; assumption).
    rewrite (CanPassWallForCoordinate_in_grid _ _ t2) in Hcan
      by (try reflexivity; split; assumption).
    exact Hcan.
Qed.

Lemma demo_walled_built :
  MakeNormalWall demo_map (mkPosition 1 1 WALL_FACING_EAST) WALL_TYPE_STONE
  = Ok demo_walled.
Proof. reflexivity. Qed.

(** X6: a [MakeNormalWall] that completes keeps the dimensions and the
    starting points, stores the wall id and "no passage" at the faces it
    addresses, leaves the wall id and passability of every other face of
    every cell as they were, and so never opens a passage. *)
Theorem MakeNormalWall_frame (m m' : Map) (p : Position) (wallID : Z) :
  wf_map m -> in_grid m p -> 0 <= facing_ p < 4 ->
  MakeNormalWall m p wallID = Ok m' ->
  width_ m' = width_ m /\ height_ m' = height_ m
  /\ startingPoints_ m' = startingPoints_ m
  /\ wf_map m'
  /\ (forall q, in_grid m q -> touched p q = true ->
        GetWallForCoordinate m' q = Ok wallID
        /\ CanPassWallForCoordinate m' q = Ok false)
  /\ (forall q, in_grid m q -> touched p q = false ->
        GetWallForCoordinate m' q = GetWallForCoordinate m q
        /\ CanPassWallForCoordinate m' q = CanPassWallForCoordinate m q)
  /\ (forall q, in_grid m q ->
        CanPassWallForCoordinate m' q = Ok true ->
        CanPassWallForCoordinate m q = Ok true).
Proof.
  intros Hwf Hin Hf Hrun. rewrite MakeNormalWall_as_store in Hrun.
  destruct (store_wall_spec m m' p wallID false Hwf Hin Hf Hrun)
    as (HW & HH & Hsp & Hwf' & Hrd).
  repeat match goal with |- _ /\ _ => split end; try assumption.
  - intros q Hq Ht. destruct (Hrd q Hq) as [Hw Hc].
    rewrite Hw, Hc, Ht. auto.
  - intros q Hq Ht. destruct (Hrd q Hq) as [Hw Hc].
    rewrite Hw, Hc, Ht. auto.
  - intros q Hq. destruct (Hrd q Hq) as [_ ->].
    destruct (touched p q); [discriminate | auto].
Qed.

Lemma MakeNormalWall_frame_witness :
  wf_map demo_map
  /\ in_grid demo_map (mkPosition 1 1 WALL_FACING_EAST)
  /\ 0 <= facing_ (mkPosition 1 1 WALL_FACING_EAST) < 4
  /\ MakeNormalWall demo_map (mkPosition 1 1 WALL_FACING_EAST)
       WALL_TYPE_STONE = Ok demo_walled
  /\ startingPoints_ demo_walled = startingPoints_ demo_map.
Proof.
  assert (Hin : in_grid demo_map (mkPosition 1 1 WALL_FACING_EAST))
    by (unfold in_grid; simpl; lia).
  assert (Hf : 0 <= facing_ (mkPosition 1 1 WALL_FACING_EAST) < 4)
    by (simpl; unfold WALL_FACING_EAST; lia).
  split; [exact demo_map_wf |]. split; [exact Hin |]. split; [exact Hf |].
  split; [exact demo_walled_built |].
  apply (MakeNormalWall_frame demo_map demo_walled
           (mkPosition 1 1 WALL_FACING_EAST) WALL_TYPE_STONE
           demo_map_wf Hin Hf demo_walled_built).
Defined.

Lemma wr3_column_fault {A} (h w : Z) (t : table A) (y x f : Z) (v : A) :
  shaped h w t -> 0 <= y < h -> ~ 0 <= x < w ->
  wr3 t y x f v = Fault (OutOfRange x (Z.to_nat w)).
Proof.
  intros Hs Hy Hx.
  destruct (shaped_row h w t y Hs Hy) as (r & Hr & Hw).
  unfold wr3. rewrite Hr. cbn [mbind result_bind].
  rewrite idx_out_of_range by lia. cbn [mbind result_bind].
  do 2 f_equal. lia.
Qed.

Lemma wr3_row_fault {A} (h w : Z) (t : table A) (y x f : Z) (v : A) :
  shaped h w t -> ~ 0 <= y < h ->
  wr3 t y x f v = Fault (OutOfRange y (Z.to_nat h)).
Proof.
  intros [Hlen Hrows] Hy. unfold wr3.
  rewrite idx_out_of_range by lia. cbn [mbind result_bind].
  do 2 f_equal. lia.
Qed.

(** The second store of a wall operation at the last column, facing East,
    and at the last row, facing South. *)
Lemma store_wall_edge_fault (m : Map) (p : Position) (wv : Z) (pv : bool) :
  wf_map m -> in_grid m p ->
  (facing_ p = 1 -> x_ p = width_ m - 1 ->
   store_wall m p wv pv
   = Fault (OutOfRange (width_ m) (Z.to_nat (width_ m))))
  /\ (facing_ p = 2 -> y_ p = height_ m - 1 ->
      store_wall m p wv pv
      = Fault (OutOfRange (height_ m) (Z.to_nat (height_ m)))).
Proof.
  intros (HW & HH & w & t & Hwalls & Hpass & Hsw & Hst) [Hx Hy].
  destruct p as [x y f]. cbn [x_ y_ facing_] in *.
  unfold INT_MAX in *.
  split; intros -> Hedge; unfold store_wall; rewrite Hwalls, Hpass;
    cbn [deref mbind result_bind x_ y_ facing_].
  - destruct (wr3_ok _ _ w y x 1 wv Hsw Hy Hx ltac:(lia))
      as (w1 & -> & Hsw1 & _).
    cbn [mbind result_bind].
    destruct (wr3_ok _ _ t y x 1 pv Hst Hy Hx ltac:(lia))
      as (t1 & -> & Hst1 & _).
    cbn [mbind result_bind].
    rewrite Copy_eq, ahead_one by (unfold INT_MIN, INT_MAX; lia).
    cbn [facing_dx facing_dy x_ y_]. unfold InBounds. cbn [negb x_ y_].
    replace ((0 <=? x + 1) && (0 <=? y + 0) && (x + 1 <=? width_ m)
             && (y + 0 <=? height_ m)) with true
      by (symmetry; repeat (apply andb_true_intro; split);
          apply Z.leb_le; lia).
    rewrite (wr3_column_fault (height_ m) (width_ m) w1)
      by (try assumption; lia).
    cbn [mbind result_bind]. do 2 f_equal; lia.
  - destruct (wr3_ok _ _ w y x 2 wv Hsw Hy Hx ltac:(lia))
      as (w1 & -> & Hsw1 & _).
    cbn [mbind result_bind].
    destruct (wr3_ok _ _ t y x 2 pv Hst Hy Hx ltac:(lia))
      as (t1 & -> & Hst1 & _).
    cbn [mbind result_bind].
    rewrite Copy_eq, ahead_one by (unfold INT_MIN, INT_MAX; lia).
    cbn [facing_dx facing_dy x_ y_]. unfold InBounds. cbn [negb x_ y_].
    replace ((0 <=? x + 0) && (0 <=? y + 1) && (x + 0 <=? width_ m)
             && (y + 1 <=? height_ m)) with true
      by (symmetry; repeat (apply andb_true_intro; split);
          apply Z.leb_le; lia).
    rewrite (wr3_row_fault (height_ m) (width_ m) w1)
      by (try assumption; lia).
    cbn [mbind result_bind]. do 2 f_equal; lia.
Qed.

(** X7: in a built map, [MakeNormalWall] and [RemoveWall] called at a cell
    of the last column facing East, or of the last row facing South, pass
    the inclusive [InBounds(0, 0, width_, height_)] test and address column
    [width_] (row [height_]) of the table, one past its end. *)
Theorem wall_operations_edge_fault (m : Map) (p : Position) (wallID : Z) :
  wf_map m -> in_grid m p ->
  (facing_ p = WALL_FACING_EAST -> x_ p = width_ m - 1 ->
   MakeNormalWall m p wallID
   = Fault (OutOfRange (width_ m) (Z.to_nat (width_ m)))
   /\ RemoveWall m p = Fault (OutOfRange (width_ m) (Z.to_nat (width_ m))))
  /\ (facing_ p = WALL_FACING_SOUTH -> y_ p = height_ m - 1 ->
      MakeNormalWall m p wallID
      = Fault (OutOfRange (height_ m) (Z.to_nat (height_ m)))
      /\ RemoveWall m p
         = Fault (OutOfRange (height_ m) (Z.to_nat (height_ m)))).
Proof.
  intros Hwf Hin.
  rewrite MakeNormalWall_as_store, RemoveWall_as_store.
  destruct (store_wall_edge_fault m p wallID false Hwf Hin) as [Hme Hms].
  destruct (store_wall_edge_fault m p 0 true Hwf Hin) as [Hre Hrs].
  split; intros Hf Hedge; split; auto.
Qed.

Lemma wall_operations_edge_fault_witness :
  wf_map demo_map
  /\ in_grid demo_map (mkPosition 0 2 WALL_FACING_SOUTH)
  /\ RemoveWall demo_map (mkPosition 0 2 WALL_FACING_SOUTH)
     = Fault (OutOfRange 3 3).
Proof.
  assert (Hin : in_grid demo_map (mkPosition 0 2 WALL_FACING_SOUTH))
    by (unfold in_grid; simpl; lia).
  split; [exact demo_map_wf |]. split; [exact Hin |].
  destruct (wall_operations_edge_fault demo_map
              (mkPosition 0 2 WALL_FACING_SOUTH) 0 demo_map_wf Hin)
    as [_ Hsouth].
  apply Hsouth; reflexivity.
Defined.

Lemma in_grid_InBounds (m : Map) (q : Position) :
  in_grid m q -> InBounds q 0 0 (width_ m) (height_ m) true = true.
Proof.
  intros [Hx Hy]. unfold InBounds. cbn [negb].
  repeat (apply andb_true_intro; split); apply Z.leb_le; lia.
Qed.

Lemma wr3_outside_fault {A} (m : Map) (t : table A) (q : Position) (f : Z)
    (v : A) :
  shaped (height_ m) (width_ m) t -> ~ in_grid m q ->
  exists e, wr3 t (y_ q) (x_ q) f v = Fault e.
Proof.
  intros Hs Hout.
  assert (Hd : 0 <= y_ q < height_ m \/ ~ 0 <= y_ q < height_ m) by lia.
  destruct Hd as [Hy | Hy].
  - eexists. apply (wr3_column_fault (height_ m) (width_ m));
      [assumption | assumption |].
    intros Hx. apply Hout. split; assumption.
  - eexists. apply (wr3_row_fault (height_ m) (width_ m)); assumption.
Qed.

(** X8: the [MakeNormalWall] of the single-file build, which tests the
    neighbour against the grid, completes at every cell of a built map for
    each of the four facings and returns a built map; whenever the
    [MakeNormalWall] of Map.cpp completes it returns that same map. *)
Theorem SingleFile_MakeNormalWall_total (m : Map) (p : Position)
    (wallID : Z) :
  wf_map m -> in_grid m p -> 0 <= facing_ p < 4 ->
  exists m',
    SingleFile.MakeNormalWall m p wallID = Ok m'
    /\ wf_map m'
    /\ forall m1, MakeNormalWall m p wallID = Ok m1 -> m1 = m'.
Proof.
  intros (HW & HH & w & t & Hwalls & Hpass & Hsw & Hst) Hin Hf.
  pose proof Hin as [Hx Hy].
  unfold SingleFile.MakeNormalWall, MakeNormalWall.
  rewrite Hwalls, Hpass. cbn [deref mbind result_bind].
  destruct (wr3_ok _ _ w _ _ _ wallID Hsw Hy Hx Hf) as (w1 & -> & Hsw1 & _).
  cbn [mbind result_bind].
  destruct (wr3_ok _ _ t _ _ _ false Hst Hy Hx Hf) as (t1 & -> & Hst1 & _).
  cbn [mbind result_bind]. rewrite Copy_eq. cbv zeta.
  assert (Hd : in_grid m (GetPositionAheadOfThis p 1)
               \/ ~ in_grid m (GetPositionAheadOfThis p 1))
    by (unfold in_grid; lia).
  destruct Hd as [Hq | Hq].
  - rewrite (grid_guard m _ Hq), (in_grid_InBounds m _ Hq).
    destruct Hq as [Hqx Hqy].
    destruct (opposite_face _ Hf) as [-> Hoppr].
    destruct (wr3_ok _ _ w1 _ _ _ wallID Hsw1 Hqy Hqx Hoppr)
      as (w2 & -> & Hsw2 & _).
    cbn [mbind result_bind].
    destruct (wr3_ok _ _ t1 _ _ _ false Hst1 Hqy Hqx Hoppr)
      as (t2 & -> & Hst2 & _).
    cbn [mbind result_bind].
    eexists. split; [reflexivity |]. split.
    + split; [exact HW | split; [exact HH |]]. exists w2, t2. auto.
    + intros m1 H1. inversion H1. reflexivity.
  - rewrite (grid_guard_false m _ Hq).
    eexists. split; [reflexivity |]. split.
    + split; [exact HW | split; [exact HH |]]. exists w1, t1. auto.
    + intros m1 H1.
      destruct (InBounds _ 0 0 (width_ m) (height_ m) true).
      * destruct (wr3_outside_fault m w1 _ (irem (iadd (facing_ p) 2) 4)
                    wallID Hsw1 Hq) as [e He].
        rewrite He in H1. discriminate H1.
      * inversion H1. reflexivity.
Qed.

Lemma SingleFile_MakeNormalWall_total_witness :
  wf_map demo_map
  /\ in_grid demo_map (mkPosition 2 1 WALL_FACING_EAST)
  /\ 0 <= facing_ (mkPosition 2 1 WALL_FACING_EAST) < 4
  /\ exists m',
       SingleFile.MakeNormalWall demo_map (mkPosition 2 1 WALL_FACING_EAST)
         WALL_TYPE_STONE = Ok m'
       /\ wf_map m'.
Proof.
  assert (Hin : in_grid demo_map (mkPosition 2 1 WALL_FACING_EAST))
    by (unfold in_grid; simpl; lia).
  assert (Hf : 0 <= facing_ (mkPosition 2 1 WALL_FACING_EAST) < 4)
    by (simpl; unfold WALL_FACING_EAST; lia).
  split; [exact demo_map_wf |]. split; [exact Hin |]. split; [exact Hf |].
  destruct (SingleFile_MakeNormalWall_total demo_map
              (mkPosition 2 1 WALL_FACING_EAST) WALL_TYPE_STONE
              demo_map_wf Hin Hf) as (m' & Hrun & Hwf & _).
  exists m'. split; assumption.
Defined.

Lemma store_wall_Ok_ahead (m m' : Map) (p : Position) (wv : Z) (pv : bool) :
  wf_map m -> in_grid m p -> 0 <= facing_ p < 4 ->
  store_wall m p wv pv = Ok m' ->
  in_grid m (GetPositionAheadOfThis p 1)
  \/ InBounds (GetPositionAheadOfThis p 1) 0 0 (width_ m) (height_ m) true
     = false.
Proof.
  intros (HW & HH & w & t & Hwalls & Hpass & Hsw & Hst) Hin Hf Hrun.
  unfold store_wall in Hrun. rewrite Hwalls, Hpass in Hrun.
  cbn [deref mbind result_bind] in Hrun.
  apply bind_Ok in Hrun as (w1 & Hw1 & Hrun).
  apply bind_Ok in Hrun as (t1 & Ht1 & Hrun).
  rewrite Copy_eq in Hrun.
  destruct (wall_stores_spec m w w1 p wv HW HH Hsw Hin Hf Hw1)
    as (_ & _ & Hw2).
  destruct (InBounds _ 0 0 (width_ m) (height_ m) true); [| auto].
  apply bind_Ok in Hrun as (w2 & Hrw2 & _).
  left. apply (Hw2 w2 Hrw2).
Qed.

(** X9: a wall placed on faces that were empty and passable is taken away
    again by [RemoveWall] at the same position: the map is exactly the one
    before [MakeNormalWall]. *)
Theorem RemoveWall_undoes_MakeNormalWall (m m' : Map) (p : Position)
    (wallID : Z) :
  wf_map m -> in_grid m p -> 0 <= facing_ p < 4 ->
  GetWallForCoordinate m p = Ok 0 ->
  CanPassWallForCoordinate m p = Ok true ->
  (in_grid m (GetPositionAheadOfThis p 1) ->
   GetWallForCoordinate m (opposite p) = Ok 0
   /\ CanPassWallForCoordinate m (opposite p) = Ok true) ->
  MakeNormalWall m p wallID = Ok m' ->
  RemoveWall m' p = Ok m.
Proof.
  intros Hwf Hin Hf Hw0 Hc0 Hopp Hrun.
  rewrite MakeNormalWall_as_store in Hrun. rewrite RemoveWall_as_store.
  destruct (store_wall_spec m m' p wallID false Hwf Hin Hf Hrun)
    as (HW & HH & Hsp & Hwf' & Hrd).
  pose proof (store_wall_Ok_ahead m m' p wallID false Hwf Hin Hf Hrun)
    as Hahead.
  assert (Hin' : in_grid m' p) by (unfold in_grid; rewrite HW, HH; exact Hin).
  destruct (store_wall_runs m' p 0 true Hwf' Hin' Hf) as [m2 Hrun2].
  { unfold in_grid. rewrite HW, HH. exact Hahead. }
  rewrite Hrun2. f_equal.
  destruct (store_wall_spec m' m2 p 0 true Hwf' Hin' Hf Hrun2)
    as (HW2 & HH2 & Hsp2 & Hwf2 & Hrd2).
  apply map_ext; try assumption; try congruence.
  intros q Hq2 Hfq.
  assert (Hq' : in_grid m' q)
    by (unfold in_grid in *; rewrite <- HW2, <- HH2; exact Hq2).
  assert (Hq : in_grid m q)
    by (unfold in_grid in *; rewrite <- HW, <- HH; exact Hq').
  destruct (Hrd2 q Hq') as [-> ->]. destruct (Hrd q Hq) as [-> ->].
  destruct (touched p q) eqn:Ht; [| auto].
  unfold touched in Ht. apply orb_prop in Ht as [Ht | Ht];
    apply same_face_spec in Ht; subst q.
  - rewrite Hw0, Hc0. auto.
  - destruct Hopp as [-> ->]; [exact Hq | auto].
Qed.

Lemma RemoveWall_undoes_MakeNormalWall_witness :
  wf_map demo_map
  /\ in_grid demo_map (mkPosition 1 1 WALL_FACING_EAST)
  /\ MakeNormalWall demo_map (mkPosition 1 1 WALL_FACING_EAST)
       WALL_TYPE_STONE = Ok demo_walled
  /\ RemoveWall demo_walled (mkPosition 1 1 WALL_FACING_EAST) = Ok demo_map.
Proof.
  assert (Hin : in_grid demo_map (mkPosition 1 1 WALL_FACING_EAST))
    by (unfold in_grid; simpl; lia).
  assert (Hf : 0 <= facing_ (mkPosition 1 1 WALL_FACING_EAST) < 4)
    by (simpl; unfold WALL_FACING_EAST; lia).
  split; [exact demo_map_wf |]. split; [exact Hin |].
  split; [exact demo_walled_built |].
  apply (RemoveWall_undoes_MakeNormalWall demo_map demo_walled
           (mkPosition 1 1 WALL_FACING_EAST) WALL_TYPE_STONE
           demo_map_wf Hin Hf eq_refl eq_refl).
  - intros _. split; reflexivity.
  - exact demo_walled_built.
Defined.

(** ** Map: [ClearMap] and the invariants of the passability table *)

(** The run of [ClearMap], with the tables it builds. *)
Lemma ClearMap_run (m : Map) :
  clearable m ->
  exists w' p',
    ClearMap m
    = Ok (mkMap (width_ m) (height_ m) (Some w') (Some p') None)
    /\ shaped (height_ m) (width_ m) w'
    /\ shaped (height_ m) (width_ m) p'
    /\ forall y x f, 0 <= y < height_ m -> 0 <= x < width_ m ->
         0 <= f < 4 ->
         rd3 w' y x f = Ok 0
         /\ rd3 p' y x f
            = Ok (negb (is_border_face (width_ m) (height_ m) x y f)).
Proof.
  intros (HW & HH & Hwalls & Hpass & Hstart).
  destruct (alloc_table_ok uninit_int (height_ m) (width_ m))
    as (w0 & Hw0 & Hsw0); [lia | lia |].
  destruct (alloc_table_ok uninit_bool (height_ m) (width_ m))
    as (p0 & Hp0 & Hsp0); [lia | lia |].
  destruct (init_loops_ok m w0 p0 HW HH Hsw0 Hsp0)
    as (w' & p' & Hinit & Hsw' & Hsp' & Hrd).
  exists w', p'. split; [| auto].
  unfold ClearMap.
  replace (match walls_ m with
           | Some t => release_table (height_ m) (width_ m) t
           | None => Ok ()
           end) with (Ok ()).
  2: { destruct (walls_ m) as [t |]; [| reflexivity].
       symmetry. apply release_table_ok; [lia | lia | exact Hwalls]. }
  cbn [mbind result_bind]. rewrite Hw0. cbn [mbind result_bind].
  replace (match passibility_ m with
           | Some t => release_table (height_ m) (width_ m) t
           | None => Ok ()
           end) with (Ok ()).
  2: { destruct (passibility_ m) as [t |]; [| reflexivity].
       symmetry. apply release_table_ok; [lia | lia | exact Hpass]. }
  cbn [mbind result_bind]. rewrite Hp0. cbn [mbind result_bind].
  replace (match startingPoints_ m with
           | Some sp => _ ← idx sp 0; Ok ()
           | None => Ok ()
           end) with (Ok ()).
  2: { destruct (startingPoints_ m) as [[| q sp] |];
         [contradiction | reflexivity | reflexivity]. }
  cbn [mbind result_bind]. rewrite Hinit. reflexivity.
Qed.

Lemma wf_map_clearable (m : Map) :
  wf_map m -> startingPoints_ m <> Some [] -> clearable m.
Proof.
  intros (HW & HH & w & t & Hwalls & Hpass & Hsw & Hst) Hsp.
  unfold clearable. rewrite Hwalls, Hpass. cbn [table_reclaimable].
  split; [exact HW |]. split; [exact HH |].
  split; [exact Hsw |]. split; [exact Hst |].
  destruct (startingPoints_ m) as [[|] |]; [congruence | exact I | exact I].
Qed.

(** X10: the map [ClearMap] returns depends on [width_] and [height_]
    only: walls, passability and starting points of the map it is called on
    are forgotten; clearing the result again returns it unchanged, and it
    has no starting point, so [GetStartingPoint] answers the origin for
    every index. *)
Theorem ClearMap_canonical (m1 m2 : Map) :
  clearable m1 -> clearable m2 ->
  width_ m1 = width_ m2 -> height_ m1 = height_ m2 ->
  ClearMap m1 = ClearMap m2
  /\ exists m', ClearMap m1 = Ok m'
       /\ ClearMap m' = Ok m'
       /\ startingPoints_ m' = None
       /\ forall which, GetStartingPoint m' which = Ok (mkPosition 0 0 0).
Proof.
  intros Hc1 Hc2 HW HH.
  assert (Hsame : forall a b, clearable a -> clearable b ->
            width_ a = width_ b -> height_ a = height_ b ->
            ClearMap a = ClearMap b).
  { intros a b Ha Hb Hwab Hhab.
    destruct (ClearMap_run a Ha) as (wa & pa & -> & Hswa & Hspa & Hra).
    destruct (ClearMap_run b Hb) as (wb & pb & -> & Hswb & Hspb & Hrb).
    rewrite Hwab, Hhab in *.
    assert (wa = wb) as ->.
    { apply (table_ext (height_ b) (width_ b)); try assumption.
      intros y x f Hy Hx Hf.
      destruct (Hra y x f Hy Hx Hf) as [-> _].
      destruct (Hrb y x f Hy Hx Hf) as [-> _]. reflexivity. }
    assert (pa = pb) as ->.
    { apply (table_ext (height_ b) (width_ b)); try assumption.
      intros y x f Hy Hx Hf.
      destruct (Hra y x f Hy Hx Hf) as [_ ->].
      destruct (Hrb y x f Hy Hx Hf) as [_ ->]. reflexivity. }
    reflexivity. }
  split; [apply Hsame; assumption |].
  destruct (ClearMap_run m1 Hc1) as (w' & p' & Hrun & Hsw & Hsp & _).
  set (m' := mkMap (width_ m1) (height_ m1) (Some w') (Some p') None) in *.
  exists m'. split; [exact Hrun |].
  assert (Hc' : clearable m').
  { destruct Hc1 as (HW1 & HH1 & _). unfold clearable, m'.
    cbn [width_ height_ walls_ passibility_ startingPoints_
         table_reclaimable].
    auto. }
  split; [| split; [reflexivity |]].
  - rewrite <- Hrun. apply Hsame; auto.
  - intros which. reflexivity.
Qed.

Lemma ClearMap_canonical_witness :
  clearable demo_walled /\ clearable (mkMap 3 3 None None None)
  /\ width_ demo_walled = width_ (mkMap 3 3 None None None)
  /\ height_ demo_walled = height_ (mkMap 3 3 None None None)
  /\ ClearMap demo_walled = ClearMap (mkMap 3 3 None None None).
Proof.
  assert (H1 : clearable demo_walled).
  { apply wf_map_clearable; [| discriminate].
    apply wf_mapb_sound. reflexivity. }
  assert (H2 : clearable (mkMap 3 3 None None None)).
  { unfold clearable, INT_MAX. simpl. repeat split; lia. }
  split; [exact H1 |]. split; [exact H2 |].
  split; [reflexivity |]. split; [reflexivity |].
  apply (ClearMap_canonical demo_walled (mkMap 3 3 None None None) H1 H2
           eq_refl eq_refl).
Defined.

Lemma ahead_in_grid_iff (m : Map) (p : Position) :
  0 <= width_ m <= INT_MAX -> 0 <= height_ m <= INT_MAX ->
  in_grid m p -> 0 <= facing_ p < 4 ->
  (in_grid m (GetPositionAheadOfThis p 1)
   <-> is_border_face (width_ m) (height_ m) (x_ p) (y_ p) (facing_ p)
       = false).
Proof.
  intros HW HH [Hx Hy] Hf. destruct p as [x y f].
  cbn [x_ y_ facing_] in *.
  rewrite ahead_one by (unfold INT_MIN, INT_MAX in *; lia).
  unfold in_grid, is_border_face. cbn [x_ y_].
  destruct (facing_cases f Hf) as [-> | [-> | [-> | ->]]];
    cbn [facing_dx facing_dy Z.eqb Pos.eqb andb orb];
    rewrite ?orb_false_r, Z.eqb_neq; lia.
Qed.

Lemma opposite_involutive (m : Map) (p : Position) :
  0 <= width_ m <= INT_MAX -> 0 <= height_ m <= INT_MAX ->
  in_grid m p -> 0 <= facing_ p < 4 ->
  in_grid m (GetPositionAheadOfThis p 1) ->
  opposite (opposite p) = p
  /\ in_grid m (opposite p)
  /\ 0 <= facing_ (opposite p) < 4
  /\ in_grid m (GetPositionAheadOfThis (opposite p) 1).
Proof.
  intros HW HH [Hx Hy] Hf. destruct p as [x y f].
  cbn [x_ y_ facing_] in *. unfold opposite.
  rewrite ahead_one by (unfold INT_MIN, INT_MAX in *; lia).
  cbn [x_ y_ facing_]. intros [Hqx Hqy]. cbn [x_ y_] in Hqx, Hqy.
  destruct (facing_cases f Hf) as [-> | [-> | [-> | ->]]];
    cbn [facing_dx facing_dy] in *;
    match goal with
    | |- context [(?a + 2) mod 4] =>
        let v := eval vm_compute in ((a + 2) mod 4) in
        change ((a + 2) mod 4) with v
    end;
    rewrite ahead_one by (unfold INT_MIN, INT_MAX in *; lia);
    cbn [x_ y_ facing_ facing_dx facing_dy];
    (split; [f_equal; lia |]); unfold in_grid; cbn [x_ y_]; lia.
Qed.

(** The passability of a cleared map. *)
Lemma ClearMap_invariants (m m' : Map) :
  clearable m -> ClearMap m = Ok m' ->
  wf_map m' /\ width_ m' = width_ m /\ height_ m' = height_ m
  /\ border_closed m' /\ pass_symmetric m'.
Proof.
  intros Hc Hrun.
  destruct (ClearMap_run m Hc) as (w' & p' & Hrun' & Hsw & Hsp & Hrd).
  rewrite Hrun in Hrun'. inversion Hrun'. subst m'. clear Hrun'.
  destruct Hc as (HW & HH & _).
  set (m' := mkMap (width_ m) (height_ m) (Some w') (Some p') None) in *.
  assert (Hwf : wf_map m').
  { split; [exact HW | split; [exact HH |]]. exists w', p'. auto. }
  assert (Hcan : forall q, in_grid m' q -> 0 <= facing_ q < 4 ->
            CanPassWallForCoordinate m' q
            = Ok (negb (is_border_face (width_ m) (height_ m)
                          (x_ q) (y_ q) (facing_ q)))).
  { intros q Hq Hfq.
    rewrite (CanPassWallForCoordinate_in_grid m' q p' Hq eq_refl).
    destruct Hq as [Hqx Hqy]. apply (Hrd _ _ _ Hqy Hqx Hfq). }
  split; [exact Hwf |]. split; [reflexivity |]. split; [reflexivity |].
  split.
  - intros q Hq Hfq Hb. rewrite (Hcan q Hq Hfq).
    cbn [width_ height_ m'] in Hb. rewrite Hb. reflexivity.
  - intros q Hq Hfq Hahead.
    destruct (opposite_involutive m' q HW HH Hq Hfq Hahead)
      as (_ & Hoq & Hof & Hoa).
    rewrite (Hcan q Hq Hfq), (Hcan _ Hoq Hof).
    apply (ahead_in_grid_iff m' q HW HH Hq Hfq) in Hahead.
    apply (ahead_in_grid_iff m' _ HW HH Hoq Hof) in Hoa.
    cbn [width_ height_ m'] in Hahead, Hoa. rewrite Hahead, Hoa.
    reflexivity.
Qed.

(** X11: in the map [ClearMap] returns no outward-facing border face can be
    passed, and every face between two cells is passable from both sides
    alike. *)
Theorem ClearMap_passability (m m' : Map) :
  clearable m -> ClearMap m = Ok m' ->
  border_closed m' /\ pass_symmetric m'.
Proof.
  intros Hc Hrun.
  destruct (ClearMap_invariants m m' Hc Hrun) as (_ & _ & _ & Hb & Hs).
  auto.
Qed.

Lemma demo_map_invariants : border_closed demo_map /\ pass_symmetric demo_map.
Proof.
  assert (Hc : clearable (mkMap 3 3 None None None)).
  { unfold clearable, INT_MAX. simpl. repeat split; lia. }
  destruct (ClearMap_invariants _ _ Hc demo_map_built) as (_ & _ & _ & H).
  exact H.
Qed.

Lemma ClearMap_passability_witness :
  clearable (mkMap 3 3 None None None)
  /\ ClearMap (mkMap 3 3 None None None) = Ok demo_map
  /\ border_closed demo_map.
Proof.
  assert (Hc : clearable (mkMap 3 3 None None None)).
  { unfold clearable, INT_MAX. simpl. repeat split; lia. }
  split; [exact Hc |]. split; [exact demo_map_built |].
  apply (ClearMap_passability (mkMap 3 3 None None None) demo_map Hc
           demo_map_built).
Defined.

Lemma touched_opposite (m : Map) (p q : Position) :
  0 <= width_ m <= INT_MAX -> 0 <= height_ m <= INT_MAX ->
  in_grid m p -> 0 <= facing_ p < 4 ->
  in_grid m q -> 0 <= facing_ q < 4 ->
  in_grid m (GetPositionAheadOfThis q 1) ->
  touched p q = touched p (opposite q).
Proof.
  intros HW HH Hp Hfp Hq Hfq Hqa.
  destruct (opposite_involutive m q HW HH Hq Hfq Hqa)
    as (Hqq & Hoq & Hof & Hoa).
  assert (Hfwd : forall r, in_grid m r -> 0 <= facing_ r < 4 ->
            in_grid m (GetPositionAheadOfThis r 1) ->
            touched p r = true -> touched p (opposite r) = true).
  { intros r Hr Hfr Hra Ht. unfold touched in *.
    apply orb_prop in Ht as [Ht | Ht]; apply same_face_spec in Ht.
    - subst r. apply orb_true_intro. right. apply same_face_spec.
      reflexivity.
    - subst r. apply orb_true_intro. left. apply same_face_spec.
      assert (Hpa : in_grid m (GetPositionAheadOfThis p 1)) by exact Hr.
      destruct (opposite_involutive m p HW HH Hp Hfp Hpa) as [-> _].
      reflexivity. }
  destruct (touched p q) eqn:Hq1.
  - symmetry. apply Hfwd; assumption.
  - destruct (touched p (opposite q)) eqn:Hq2; [| reflexivity].
    pose proof (Hfwd (opposite q) Hoq Hof Hoa Hq2) as Hback.
    rewrite Hqq in Hback. congruence.
Qed.

(** What a wall operation that completes does to the two invariants. *)
Lemma store_wall_invariants (m m' : Map) (p : Position) (wv : Z)
    (pv : bool) :
  wf_map m -> in_grid m p -> 0 <= facing_ p < 4 ->
  store_wall m p wv pv = Ok m' ->
  (pass_symmetric m -> pass_symmetric m')
  /\ (pv = false -> border_closed m -> border_closed m').
Proof.
  intros Hwf Hin Hf Hrun.
  destruct (store_wall_spec m m' p wv pv Hwf Hin Hf Hrun)
    as (HW & HH & _ & _ & Hrd).
  destruct Hwf as (Hw & Hh & _).
  assert (Hgrid : forall q, in_grid m' q <-> in_grid m q)
    by (intros q; unfold in_grid; rewrite HW, HH; reflexivity).
  split.
  - intros Hsym q Hq Hfq Hqa.
    apply Hgrid in Hq. apply Hgrid in Hqa.
    destruct (opposite_involutive m q Hw Hh Hq Hfq Hqa) as (_ & Hoq & _).
    destruct (Hrd q Hq) as [_ ->]. destruct (Hrd _ Hoq) as [_ ->].
    rewrite <- (touched_opposite m p q Hw Hh Hin Hf Hq Hfq Hqa).
    rewrite (Hsym q Hq Hfq Hqa). reflexivity.
  - intros -> Hborder q Hq Hfq Hb.
    apply Hgrid in Hq. rewrite HW, HH in Hb.
    destruct (Hrd q Hq) as [_ ->].
    destruct (touched p q); [reflexivity |].
    apply Hborder; assumption.
Qed.

(** X12: a [MakeNormalWall] that completes keeps both invariants of the
    passability table (closed border, same answer on both sides of a face
    between two cells); a [RemoveWall] that completes keeps the second. *)
Theorem wall_operations_keep_invariants (m m' : Map) (p : Position)
    (wallID : Z) :
  wf_map m -> in_grid m p -> 0 <= facing_ p < 4 ->
  (MakeNormalWall m p wallID = Ok m' ->
   (border_closed m -> border_closed m')
   /\ (pass_symmetric m -> pass_symmetric m'))
  /\ (RemoveWall m p = Ok m' -> pass_symmetric m -> pass_symmetric m').
Proof.
  intros Hwf Hin Hf. split.
  - rewrite MakeNormalWall_as_store. intros Hrun.
    destruct (store_wall_invariants m m' p wallID false Hwf Hin Hf Hrun)
      as [Hs Hb].
    auto.
  - rewrite RemoveWall_as_store. intros Hrun.
    apply (store_wall_invariants m m' p 0 true Hwf Hin Hf Hrun).
Qed.

Lemma wall_operations_keep_invariants_witness :
  wf_map demo_map
  /\ in_grid demo_map (mkPosition 1 1 WALL_FACING_EAST)
  /\ 0 <= facing_ (mkPosition 1 1 WALL_FACING_EAST) < 4
  /\ border_closed demo_walled /\ pass_symmetric demo_walled.
Proof.
  assert (Hin : in_grid demo_map (mkPosition 1 1 WALL_FACING_EAST))
    by (unfold in_grid; simpl; lia).
  assert (Hf : 0 <= facing_ (mkPosition 1 1 WALL_FACING_EAST) < 4)
    by (simpl; unfold WALL_FACING_EAST; lia).
  split; [exact demo_map_wf |]. split; [exact Hin |]. split; [exact Hf |].
  destruct (wall_operations_keep_invariants demo_map demo_walled
              (mkPosition 1 1 WALL_FACING_EAST) WALL_TYPE_STONE
              demo_map_wf Hin Hf) as [Hmake _].
  destruct (Hmake demo_walled_built) as [Hb Hs].
  destruct demo_map_invariants as [Hb0 Hs0].
  split; [apply Hb; exact Hb0 | apply Hs; exact Hs0].
Defined.

(** X13: [RemoveWall] at an outward-facing face of column 0 (facing West)
    or of row 0 (facing North) completes and opens that face: the player
    standing there then steps forward off the grid. *)
Theorem RemoveWall_opens_border (m : Map) (p : Position) :
  wf_map m -> in_grid m p ->
  (facing_ p = WALL_FACING_WEST /\ x_ p = 0)
  \/ (facing_ p = PLAYER_FACING_NORTH /\ y_ p = 0) ->
  exists m',
    RemoveWall m p = Ok m'
    /\ CanPassWallForCoordinate m' p = Ok true
    /\ exists gs',
         MovePlayerForward (mkGameState (Some m') p) = Ok (true, gs')
         /\ ~ in_grid m' (playerPosition_ gs').
Proof.
  intros Hwf Hin Hedge.
  pose proof Hwf as (HW & HH & _). pose proof Hin as [Hx Hy].
  assert (Hf : 0 <= facing_ p < 4)
    by (unfold WALL_FACING_WEST, PLAYER_FACING_NORTH in Hedge; lia).
  assert (Hahead : GetPositionAheadOfThis p 1
                   = mkPosition (x_ p + facing_dx (facing_ p))
                       (y_ p + facing_dy (facing_ p)) (facing_ p)).
  { destruct p as [x y f]. cbn [x_ y_ facing_] in *.
    apply ahead_one; unfold INT_MIN, INT_MAX in *; lia. }
  assert (Hout : ~ in_grid m (GetPositionAheadOfThis p 1)).
  { rewrite Hahead. unfold in_grid. cbn [x_ y_].
    unfold WALL_FACING_WEST, PLAYER_FACING_NORTH in Hedge.
    destruct Hedge as [[-> ->] | [-> ->]]; cbn [facing_dx facing_dy]; lia. }
  assert (Hb : InBounds (GetPositionAheadOfThis p 1) 0 0 (width_ m)
                 (height_ m) true = false).
  { rewrite Hahead. unfold InBounds. cbn [negb x_ y_].
    unfold WALL_FACING_WEST, PLAYER_FACING_NORTH in Hedge.
    destruct Hedge as [[-> ->] | [-> ->]]; cbn [facing_dx facing_dy].
    - replace (0 <=? 0 + -1) with false by reflexivity. reflexivity.
    - replace (0 <=? 0 + -1) with false by reflexivity.
      rewrite andb_false_r. reflexivity. }
  rewrite RemoveWall_as_store.
  destruct (store_wall_runs m p 0 true Hwf Hin Hf (or_intror Hb))
    as [m' Hrun].
  destruct (store_wall_spec m m' p 0 true Hwf Hin Hf Hrun)
    as (HW' & HH' & _ & _ & Hrd).
  assert (Hcan : CanPassWallForCoordinate m' p = Ok true).
  { destruct (Hrd p Hin) as [_ ->]. unfold touched.
    replace (same_face p p) with true
      by (symmetry; apply same_face_spec; reflexivity).
    reflexivity. }
  exists m'. split; [exact Hrun |]. split; [exact Hcan |].
  eexists. split.
  - unfold MovePlayerForward. cbn [currentMap_ playerPosition_ deref].
    cbn [mbind result_bind]. rewrite Hcan. cbn [mbind result_bind].
    reflexivity.
  - cbn [playerPosition_]. rewrite Copy_eq.
    unfold in_grid. rewrite HW', HH'. exact Hout.
Qed.

Lemma RemoveWall_opens_border_witness :
  wf_map demo_map /\ in_grid demo_map (mkPosition 0 1 WALL_FACING_WEST)
  /\ exists m',
       RemoveWall demo_map (mkPosition 0 1 WALL_FACING_WEST) = Ok m'
       /\ CanPassWallForCoordinate m' (mkPosition 0 1 WALL_FACING_WEST)
          = Ok true.
Proof.
  assert (Hin : in_grid demo_map (mkPosition 0 1 WALL_FACING_WEST))
    by (unfold in_grid; simpl; lia).
  split; [exact demo_map_wf |]. split; [exact Hin |].
  destruct (RemoveWall_opens_border demo_map
              (mkPosition 0 1 WALL_FACING_WEST) demo_map_wf Hin)
    as (m' & Hrun & Hcan & _).
  - left. split; reflexivity.
  - exists m'. split; assumption.
Defined.

(** ** GameState: the player and the invariants of the map *)

(** In a map with a closed border, a passable face of a grid cell leads to
    a grid cell. *)
Lemma passable_leads_inside (m : Map) (q : Position) :
  wf_map m -> border_closed m -> in_grid m q -> 0 <= facing_ q < 4 ->
  exists b, CanPassWallForCoordinate m q = Ok b
            /\ (b = true -> in_grid m (GetPositionAheadOfThis q 1)).
Proof.
  intros Hwf Hborder Hq Hf.
  destruct (CanPassWallForCoordinate_total m q Hwf Hf) as [b Hb].
  exists b. split; [exact Hb |]. intros ->.
  destruct Hwf as (HW & HH & _).
  apply (ahead_in_grid_iff m q HW HH Hq Hf).
  apply not_true_is_false. intros Hbf.
  rewrite (Hborder q Hq Hf Hbf) in Hb. discriminate Hb.
Qed.

(** X14: in a built map whose border is closed, a player on a grid cell
    with one of the four facings is still on a grid cell, with the same
    facing and the same map, after any of the four moves, whether the move
    was made or refused. *)
Theorem moves_stay_in_grid (gs : GameState) (m : Map) :
  currentMap_ gs = Some m -> wf_map m -> border_closed m ->
  in_grid m (playerPosition_ gs) -> 0 <= facing_ (playerPosition_ gs) < 4 ->
  forall move,
    move = MovePlayerForward \/ move = MovePlayerBack
    \/ move = MovePlayerLeft \/ move = MovePlayerRight ->
    exists b gs',
      move gs = Ok (b, gs')
      /\ currentMap_ gs' = Some m
      /\ in_grid m (playerPosition_ gs')
      /\ facing_ (playerPosition_ gs') = facing_ (playerPosition_ gs).
Proof.
  intros Hmap Hwf Hborder Hin Hf move Hmove.
  destruct gs as [cm p]. cbn [currentMap_ playerPosition_] in *. subst cm.
  destruct (rotations_valid p Hf) as [Hfl Hfr].
  destruct (rotations_valid _ Hfl) as [Hfll _].
  destruct Hmove as [-> | [-> | [-> | ->]]];
    unfold MovePlayerForward, MovePlayerBack, MovePlayerLeft,
      MovePlayerRight;
    cbn [currentMap_ playerPosition_ deref mbind result_bind];
    rewrite ?Copy_eq.
  - destruct (passable_leads_inside m p Hwf Hborder Hin Hf)
      as (b & -> & Hb).
    cbn [mbind result_bind]. destruct b; do 2 eexists;
      (split; [reflexivity |]); cbn [currentMap_ playerPosition_];
      rewrite ?Copy_eq, ?GetPositionAheadOfThis_facing; auto.
  - destruct (passable_leads_inside m
                (GetLeftFacingOfThis (GetLeftFacingOfThis p)) Hwf Hborder
                Hin Hfll) as (b & -> & Hb).
    cbn [mbind result_bind]. destruct b; do 2 eexists;
      (split; [reflexivity |]); cbn [currentMap_ playerPosition_];
      rewrite ?Copy_eq, ?GetPositionBehindThis_facing; auto.
    split; [reflexivity |]. split; [| reflexivity].
    specialize (Hb eq_refl). rewrite behind_step_as_ahead in Hb by exact Hf.
    exact Hb.
  - destruct (passable_leads_inside m (GetLeftFacingOfThis p) Hwf Hborder
                Hin Hfl) as (b & -> & Hb).
    cbn [mbind result_bind]. destruct b; do 2 eexists;
      (split; [reflexivity |]); cbn [currentMap_ playerPosition_];
      rewrite ?Copy_eq, ?GetPositionLeftOfThis_facing; auto.
    split; [reflexivity |]. split; [| reflexivity].
    specialize (Hb eq_refl). rewrite left_step_as_ahead in Hb by exact Hf.
    exact Hb.
  - destruct (passable_leads_inside m (GetRightFacingOfThis p) Hwf Hborder
                Hin Hfr) as (b & -> & Hb).
    cbn [mbind result_bind]. destruct b; do 2 eexists;
      (split; [reflexivity |]); cbn [currentMap_ playerPosition_];
      rewrite ?Copy_eq, ?GetPositionRightOfThis_facing; auto.
    split; [reflexivity |]. split; [| reflexivity].
    specialize (Hb eq_refl). rewrite right_step_as_ahead in Hb by exact Hf.
    exact Hb.
Qed.

Lemma moves_stay_in_grid_witness :
  currentMap_ demo_gs = Some demo_map /\ wf_map demo_map
  /\ border_closed demo_map /\ in_grid demo_map (playerPosition_ demo_gs)
  /\ 0 <= facing_ (playerPosition_ demo_gs) < 4
  /\ exists b gs',
       MovePlayerLeft demo_gs = Ok (b, gs')
       /\ currentMap_ gs' = Some demo_map
       /\ in_grid demo_map (playerPosition_ gs')
       /\ facing_ (playerPosition_ gs') = facing_ (playerPosition_ demo_gs).
Proof.
  assert (Hin : in_grid demo_map (playerPosition_ demo_gs))
    by (unfold in_grid; simpl; lia).
  assert (Hf : 0 <= facing_ (playerPosition_ demo_gs) < 4)
    by (simpl; unfold PLAYER_FACING_EAST; lia).
  destruct demo_map_invariants as [Hb _].
  split; [reflexivity |]. split; [exact demo_map_wf |].
  split; [exact Hb |]. split; [exact Hin |]. split; [exact Hf |].
  apply (moves_stay_in_grid demo_gs demo_map eq_refl demo_map_wf Hb Hin Hf
           MovePlayerLeft).
  right. right. left. reflexivity.
Defined.

Ltac wrap_small :=
  unfold iadd, imul;
  change (wrap (-1 * 1)) with (-1);
  repeat match goal with
         | |- context [wrap ?z] =>
             rewrite (wrap_id z)
               by (unfold int_range, INT_MIN, INT_MAX in *; lia)
         end.

(** After one step from a cell away from the ends of the [int] range, the
    look back and the step back. *)
Lemma step_and_back (x y f : Z) :
  0 <= f < 4 -> INT_MIN < x < INT_MAX -> INT_MIN < y < INT_MAX ->
  let p := mkPosition x y f in
  (GetLeftFacingOfThis (GetLeftFacingOfThis (GetPositionAheadOfThis p 1))
   = opposite p
   /\ GetPositionBehindThis (GetPositionAheadOfThis p 1) 1 = p)
  /\ (GetRightFacingOfThis (GetPositionLeftOfThis p 1)
      = opposite (GetLeftFacingOfThis p)
      /\ GetPositionRightOfThis (GetPositionLeftOfThis p 1) 1 = p)
  /\ (GetLeftFacingOfThis (GetPositionRightOfThis p 1)
      = opposite (GetRightFacingOfThis p)
      /\ GetPositionLeftOfThis (GetPositionRightOfThis p 1) 1 = p).
Proof.
  intros Hf Hx Hy p. subst p.
  destruct (facing_cases f Hf) as [-> | [-> | [-> | ->]]];
    unfold opposite, GetLeftFacingOfThis, GetRightFacingOfThis,
      GetPositionAheadOfThis, GetPositionBehindThis, GetPositionLeftOfThis,
      GetPositionRightOfThis;
    cbn [x_ y_ facing_];
    repeat match goal with
           | |- context [irem (iadd ?a ?b) 4] =>
               let v := eval vm_compute in (irem (iadd a b) 4) in
               change (irem (iadd a b) 4) with v
           | |- context [(?a + 2) mod 4] =>
               let v := eval vm_compute in ((a + 2) mod 4) in
               change ((a + 2) mod 4) with v
           end;
    cbv iota beta; cbn [x_ y_ facing_];
    wrap_small;
    repeat split; f_equal; lia.
Qed.

(** X15: in a built map whose passability is the same on both sides of a
    face, a step forward that was made and ended on a grid cell is undone by
    a step back, and a step to the left by a step to the right: the second
    move is made and the game state is the one before the first. *)
Theorem moves_round_trip (gs gs' : GameState) (m : Map) :
  currentMap_ gs = Some m -> wf_map m -> pass_symmetric m ->
  in_grid m (playerPosition_ gs) -> 0 <= facing_ (playerPosition_ gs) < 4 ->
  in_grid m (playerPosition_ gs') ->
  (MovePlayerForward gs = Ok (true, gs') -> MovePlayerBack gs' = Ok (true, gs))
  /\ (MovePlayerLeft gs = Ok (true, gs') ->
      MovePlayerRight gs' = Ok (true, gs)).
Proof.
  intros Hmap Hwf Hsym Hin Hf Hin'.
  destruct gs as [cm [x y f]]. cbn [currentMap_ playerPosition_] in *.
  subst cm. pose proof Hwf as (HW & HH & _). pose proof Hin as [Hx Hy].
  cbn [x_ y_ facing_] in Hx, Hy, Hf.
  destruct (step_and_back x y f Hf)
    as ((Hlook & Hback) & (Hlookl & Hbackl) & _);
    [unfold INT_MIN, INT_MAX in *; lia
    | unfold INT_MIN, INT_MAX in *; lia |].
  destruct (rotations_valid (mkPosition x y f) Hf) as [Hfl _].
  split; intros Hmove.
  - unfold MovePlayerForward in Hmove.
    cbn [currentMap_ playerPosition_ deref mbind result_bind] in Hmove.
    destruct (CanPassWallForCoordinate m (mkPosition x y f))
      as [[|] | e] eqn:Hcan; cbn [mbind result_bind] in Hmove;
      try discriminate Hmove.
    rewrite Copy_eq in Hmove.
    match type of Hmove with
    | Ok (true, ?g) = _ => assert (Hgs : gs' = g) by congruence
    end.
    subst gs'. clear Hmove.
    cbn [playerPosition_] in Hin'.
    unfold MovePlayerBack.
    cbn [currentMap_ playerPosition_ deref mbind result_bind].
    rewrite !Copy_eq, Hlook, Hback.
    rewrite <- (Hsym (mkPosition x y f) Hin Hf Hin'), Hcan.
    reflexivity.
  - unfold MovePlayerLeft in Hmove.
    cbn [currentMap_ playerPosition_ deref mbind result_bind] in Hmove.
    rewrite !Copy_eq in Hmove.
    destruct (CanPassWallForCoordinate m
                (GetLeftFacingOfThis (mkPosition x y f)))
      as [[|] | e] eqn:Hcan; cbn [mbind result_bind] in Hmove;
      try discriminate Hmove.
    match type of Hmove with
    | Ok (true, ?g) = _ => assert (Hgs : gs' = g) by congruence
    end.
    subst gs'. clear Hmove.
    cbn [playerPosition_] in Hin'.
    unfold MovePlayerRight.
    cbn [currentMap_ playerPosition_ deref mbind result_bind].
    rewrite !Copy_eq, Hlookl, Hbackl.
    rewrite <- (Hsym (GetLeftFacingOfThis (mkPosition x y f))), Hcan.
    + reflexivity.
    + exact Hin.
    + exact Hfl.
    + rewrite (left_step_as_ahead (mkPosition x y f) 1 Hf). exact Hin'.
Qed.

Lemma moves_round_trip_witness :
  currentMap_ demo_gs = Some demo_map /\ wf_map demo_map
  /\ pass_symmetric demo_map /\ in_grid demo_map (playerPosition_ demo_gs)
  /\ MovePlayerForward demo_gs
     = Ok (true, mkGameState (Some demo_map) (mkPosition 2 1 1))
  /\ MovePlayerBack (mkGameState (Some demo_map) (mkPosition 2 1 1))
     = Ok (true, demo_gs).
Proof.
  assert (Hin : in_grid demo_map (playerPosition_ demo_gs))
    by (unfold in_grid; simpl; lia).
  assert (Hf : 0 <= facing_ (playerPosition_ demo_gs) < 4)
    by (simpl; unfold PLAYER_FACING_EAST; lia).
  assert (Hin' : in_grid demo_map
                   (playerPosition_
                      (mkGameState (Some demo_map) (mkPosition 2 1 1))))
    by (unfold in_grid; simpl; lia).
  destruct demo_map_invariants as [_ Hs].
  split; [reflexivity |]. split; [exact demo_map_wf |].
  split; [exact Hs |]. split; [exact Hin |]. split; [reflexivity |].
  apply (moves_round_trip demo_gs
           (mkGameState (Some demo_map) (mkPosition 2 1 1)) demo_map
           eq_refl demo_map_wf Hs Hin Hf Hin').
  reflexivity.
Defined.

(** ** Map: starting points *)

(** X16: [GetStartingPoint] tests only [which < 1]: without a table of
    starting points, or with [which] >= 1, the answer is a new origin
    position; index 0 gives the first starting point; a negative index is
    let through and addresses the table before its first element. *)
Theorem GetStartingPoint_cases (m : Map) (sp : list Position) (which : Z) :
  startingPoints_ m = Some sp ->
  (1 <= which -> GetStartingPoint m which = Ok (mkPosition 0 0 0))
  /\ (which = 0 -> forall p rest, sp = p :: rest ->
        GetStartingPoint m which = Ok p)
  /\ (which < 0 ->
      GetStartingPoint m which = Fault (OutOfRange which (length sp)))
  /\ GetStartingPoint
       (mkMap (width_ m) (height_ m) (walls_ m) (passibility_ m) None) which
     = Ok (mkPosition 0 0 0).
Proof.
  intros Hsp. unfold GetStartingPoint. rewrite Hsp.
  split; [| split; [| split]].
  - intros Hw.
    replace (which <? 1) with false by (symmetry; apply Z.ltb_ge; lia).
    reflexivity.
  - intros -> p rest ->. reflexivity.
  - intros Hw.
    replace (which <? 1) with true by (symmetry; apply Z.ltb_lt; lia).
    apply idx_out_of_range. lia.
  - reflexivity.
Qed.

Lemma GetStartingPoint_cases_witness :
  startingPoints_
    (mkMap 3 3 None None (Some [mkPosition 1 1 PLAYER_FACING_EAST]))
  = Some [mkPosition 1 1 PLAYER_FACING_EAST]
  /\ GetStartingPoint
       (mkMap 3 3 None None (Some [mkPosition 1 1 PLAYER_FACING_EAST])) (-1)
     = Fault (OutOfRange (-1) 1).
Proof.
  split; [reflexivity |].
  destruct (GetStartingPoint_cases
              (mkMap 3 3 None None (Some [mkPosition 1 1 PLAYER_FACING_EAST]))
              [mkPosition 1 1 PLAYER_FACING_EAST] (-1) eq_refl)
    as (_ & _ & Hneg & _).
  apply Hneg. lia.
Defined.

(** ** ArtManager and WallSpriteSet *)

(** X17: with fewer than 2^31 sprite sets, [GetWallSetNumber] answers a set
    exactly for the wall numbers 1 .. count, namely the set at position
    which - 1; wall number 0 and every negative number (which the
    [unsigned int] parameter turns into a large one) get null. *)
Theorem GetWallSetNumber_range (a : ArtManager) (which : Z)
    (s : WallSpriteSet) :
  int_range which -> Z.of_nat (length (allWallSprites_ a)) <= INT_MAX ->
  (GetWallSetNumber a which = Some s
   <-> 1 <= which <= Z.of_nat (length (allWallSprites_ a))
       /\ allWallSprites_ a !! Z.to_nat (which - 1) = Some s)
  /\ (which <= 0 -> GetWallSetNumber a which = None)
  /\ (1 <= which <= Z.of_nat (length (allWallSprites_ a)) ->
      exists s', GetWallSetNumber a which = Some s').
Proof.
  unfold int_range, INT_MIN, INT_MAX, GetWallSetNumber, to_unsigned.
  intros Hw Hlen.
  assert (Hd : 1 <= which \/ which = 0 \/ which < 0) by lia.
  destruct Hd as [Hpos | [-> | Hneg]].
  - rewrite Z.mod_small by lia.
    replace (0 <? which) with true by (symmetry; apply Z.ltb_lt; lia).
    cbn [andb].
    destruct (which <=? Z.of_nat (length (allWallSprites_ a))) eqn:Hle.
    + apply Z.leb_le in Hle. split; [| split].
      * split; [intros H; split; [lia | exact H] | intros [_ H]; exact H].
      * lia.
      * intros _. apply lookup_lt_is_Some_2. lia.
    + apply Z.leb_gt in Hle. split; [| split].
      * split; [discriminate | lia].
      * lia.
      * lia.
  - cbn. split; [| split].
    + split; [discriminate | lia].
    + reflexivity.
    + lia.
  - assert (Hm : which mod 2 ^ 32 = which + 2 ^ 32).
    { symmetry. apply (Z.mod_unique which (2 ^ 32) (-1)); lia. }
    rewrite Hm.
    replace (which + 2 ^ 32 <=? Z.of_nat (length (allWallSprites_ a)))
      with false by (symmetry; apply Z.leb_gt; lia).
    rewrite andb_false_r. split; [| split].
    + split; [discriminate | lia].
    + reflexivity.
    + lia.
Qed.

Lemma GetWallSetNumber_range_witness :
  int_range 1 /\ Z.of_nat (length (allWallSprites_ failed_art)) <= INT_MAX
  /\ exists s', GetWallSetNumber failed_art 1 = Some s'.
Proof.
  assert (H1 : int_range 1) by (vm_compute; split; discriminate).
  assert (H2 : Z.of_nat (length (allWallSprites_ failed_art)) <= INT_MAX)
    by (vm_compute; discriminate).
  split; [exact H1 |]. split; [exact H2 |].
  destruct (GetWallSetNumber_range failed_art 1 failed_set H1 H2)
    as (_ & _ & Hsome).
  apply Hsome. simpl. lia.
Defined.

(** X18: whatever the image loader answers, also when no file can be
    decoded, building the art catalog completes, reports success through
    [DidArtLoadSuccessfully], and holds four sprite sets of three images per
    family: wall numbers 1 to 4 have a set (the images asked for under
    first_wall, stone_wall, wood_wall and metal_wall), 0 and 5 have none. *)
Theorem ArtManager_ctor_always_succeeds
    (load : string -> option SDL_Surface) :
  exists a,
    ArtManager_ctor load = Ok a
    /\ DidArtLoadSuccessfully a = true
    /\ length (allWallSprites_ a) = 4%nat
    /\ wf_art a
    /\ (exists s, GetWallSetNumber a WALL_TYPE_BRICK = Some s
          /\ WallSpriteSet_ctor load "resources/first_wall/" = Ok s)
    /\ (exists s, GetWallSetNumber a WALL_TYPE_STONE = Some s
          /\ WallSpriteSet_ctor load "resources/stone_wall/" = Ok s)
    /\ (exists s, GetWallSetNumber a WALL_TYPE_WOOD = Some s
          /\ WallSpriteSet_ctor load "resources/wood_wall/" = Ok s)
    /\ (exists s, GetWallSetNumber a WALL_TYPE_METAL = Some s
          /\ WallSpriteSet_ctor load "resources/metal_wall/" = Ok s)
    /\ GetWallSetNumber a 0 = None
    /\ GetWallSetNumber a 5 = None.
Proof.
  eexists. split; [vm_compute; reflexivity |].
  split; [reflexivity |]. split; [reflexivity |].
  split; [repeat constructor |].
  split; [eexists; split; [reflexivity | vm_compute; reflexivity] |].
  split; [eexists; split; [reflexivity | vm_compute; reflexivity] |].
  split; [eexists; split; [reflexivity | vm_compute; reflexivity] |].
  split; [eexists; split; [reflexivity | vm_compute; reflexivity] |].
  split; reflexivity.
Qed.

Lemma string_length_app (a b : string) :
  String.length (a +:+ b) = (String.length a + String.length b)%nat.
Proof. induction a as [| c a IH]; simpl; [reflexivity | rewrite IH; lia]. Qed.

Lemma sprintf_path_fits (rootPath tag : string) (index : Z) :
  String.length tag = 1%nat -> 0 <= index < 3 ->
  sprintf_path rootPath tag index
  = if (String.length rootPath <? 250)%nat
    then Ok (image_path rootPath tag index)
    else Fault (OutOfRange 256 256).
Proof.
  intros Htag Hi. unfold sprintf_path. fold (image_path rootPath tag index).
  assert (Hlen : String.length (image_path rootPath tag index)
                 = (String.length rootPath + 6)%nat).
  { unfold image_path. rewrite !string_length_app, Htag.
    assert (Hc : index = 0 \/ index = 1 \/ index = 2) by lia.
    destruct Hc as [-> | [-> | ->]]; vm_compute String.length at 2 3; lia. }
  rewrite Hlen.
  destruct (Nat.ltb_spec (String.length rootPath) 250) as [Hs | Hs].
  - replace (Z.of_nat (String.length rootPath + 6) <? 256) with true
      by (symmetry; apply Z.ltb_lt; lia).
    reflexivity.
  - replace (Z.of_nat (String.length rootPath + 6) <? 256) with false
      by (symmetry; apply Z.ltb_ge; lia).
    reflexivity.
Qed.

(** X19: the constructor formats each file name into a 256-byte buffer.
    With a root path shorter than 250 characters it completes, whatever the
    loader answers, with three slots per family holding the loader's
    answers for f0..f2, l0..l2 and r0..r2; with a root path of 250
    characters or more the first file name already overruns the buffer. *)
Theorem WallSpriteSet_ctor_buffer (load : string -> option SDL_Surface)
    (rootPath : string) :
  ((String.length rootPath < 250)%nat ->
   WallSpriteSet_ctor load rootPath
   = Ok (mkWallSpriteSet
           [load (image_path rootPath "f" 0);
            load (image_path rootPath "f" 1);
            load (image_path rootPath "f" 2)]
           [load (image_path rootPath "l" 0);
            load (image_path rootPath "l" 1);
            load (image_path rootPath "l" 2)]
           [load (image_path rootPath "r" 0);
            load (image_path rootPath "r" 1);
            load (image_path rootPath "r" 2)]
           3))
  /\ ((250 <= String.length rootPath)%nat ->
      WallSpriteSet_ctor load rootPath = Fault (OutOfRange 256 256)).
Proof.
  split; intros Hlen; unfold WallSpriteSet_ctor, for_up;
    change (Z.to_nat (3 - 0)) with 3%nat;
    cbn -[sprintf_path];
    rewrite !sprintf_path_fits by (try reflexivity; lia).
  - replace (String.length rootPath <? 250)%nat with true
      by (symmetry; apply Nat.ltb_lt; exact Hlen).
    reflexivity.
  - replace (String.length rootPath <? 250)%nat with false
      by (symmetry; apply Nat.ltb_ge; exact Hlen).
    reflexivity.
Qed.

Lemma WallSpriteSet_ctor_buffer_witness :
  (String.length "resources/stone_wall/" < 250)%nat
  /\ exists s, WallSpriteSet_ctor load_none "resources/stone_wall/" = Ok s.
Proof.
  assert (H : (String.length "resources/stone_wall/" < 250)%nat)
    by (vm_compute; lia).
  split; [exact H |].
  eexists.
  apply (WallSpriteSet_ctor_buffer load_none "resources/stone_wall/").
  exact H.
Defined.

(** ** MapView: order of the frame *)

Lemma appender_bind (f g : list DrawCmd -> result (list DrawCmd)) :
  appender f -> appender g -> appender (fun t => t' ← f t; g t').
Proof.
  intros Hf Hg target. cbv beta. rewrite (Hf target).
  destruct (f []) as [b1 | e]; cbn [mbind result_bind]; [| reflexivity].
  rewrite (Hg (target ++ b1)), (Hg b1).
  destruct (g []) as [b2 | e]; cbn [mbind result_bind]; [| reflexivity].
  rewrite app_assoc. reflexivity.
Qed.

Lemma DrawStraightWall_appender (v : MapView) (m : Map) (q : Position)
    (range offset : Z) : appender (DrawStraightWall v m q range offset).
Proof.
  intros target. unfold DrawStraightWall.
  destruct (GetWallForCoordinate m q) as [n | e];
    cbn [mbind result_bind]; [| reflexivity].
  destruct (GetWallSetNumber (artManager_ v) n) as [set |];
    [| cbn; rewrite app_nil_r; reflexivity].
  destruct (GetFrontImage set range) as [[img |] | e];
    cbn [mbind result_bind BlitSprite]; rewrite ?app_nil_r; reflexivity.
Qed.

Lemma DrawLeftWall_appender (v : MapView) (m : Map) (q : Position)
    (range offset : Z) : appender (DrawLeftWall v m q range offset).
Proof.
  intros target. unfold DrawLeftWall.
  destruct (GetWallForCoordinate m _) as [n | e];
    cbn [mbind result_bind]; [| reflexivity].
  destruct (GetWallSetNumber (artManager_ v) n) as [set |];
    [| cbn; rewrite app_nil_r; reflexivity].
  destruct (GetLeftImage set range) as [[img |] | e];
    cbn [mbind result_bind BlitSprite]; rewrite ?app_nil_r; reflexivity.
Qed.

Lemma DrawRightWall_appender (v : MapView) (m : Map) (q : Position)
    (range offset : Z) : appender (DrawRightWall v m q range offset).
Proof.
  intros target. unfold DrawRightWall.
  destruct (GetWallForCoordinate m _) as [n | e];
    cbn [mbind result_bind]; [| reflexivity].
  destruct (GetWallSetNumber (artManager_ v) n) as [set |];
    [| cbn; rewrite app_nil_r; reflexivity].
  destruct (GetRightImage set range) as [[img |] | e];
    cbn [mbind result_bind BlitSprite]; rewrite ?app_nil_r; reflexivity.
Qed.

Lemma DrawDistRank_appender (v : MapView) (m : Map) (p : Position)
    (range : Z) : appender (fun t => DrawDistRank v m p range 1 t).
Proof.
  intros target. rewrite !DrawDistRank_spread_1. cbv zeta.
  apply (appender_bind _ _ (DrawStraightWall_appender v m _ range (-1))).
  apply (appender_bind _ _ (DrawStraightWall_appender v m _ range 1)).
  apply (appender_bind _ _ (DrawLeftWall_appender v m _ range 0)).
  apply (appender_bind _ _ (DrawRightWall_appender v m _ range 0)).
  apply DrawStraightWall_appender.
Qed.

(** X20: a frame is what the target held, then the sky and ground fills,
    then what the far rank (2) draws, then the middle rank (1), then the
    near rank (0), each rank drawing the same commands as on an empty
    target; a fault of a rank is the fault of the frame. *)
Theorem RenderMap_far_to_near (v : MapView) (target : list DrawCmd)
    (m : Map) (p : Position) :
  RenderMap v target m p
  = (far ← DrawDistRank v m p 2 1 [];
     mid ← DrawDistRank v m p 1 1 [];
     near ← DrawDistRank v m p 0 1 [];
     Ok (DrawGround v (DrawSky v target) ++ far ++ mid ++ near)).
Proof.
  unfold RenderMap. cbv zeta.
  rewrite (DrawDistRank_appender v m p 2 (DrawGround v (DrawSky v target))).
  destruct (DrawDistRank v m p 2 1 []) as [far | e];
    cbn [mbind result_bind]; [| reflexivity].
  rewrite (DrawDistRank_appender v m p 1 (_ ++ far)).
  destruct (DrawDistRank v m p 1 1 []) as [mid | e];
    cbn [mbind result_bind]; [| reflexivity].
  rewrite (DrawDistRank_appender v m p 0 (_ ++ mid)).
  destruct (DrawDistRank v m p 0 1 []) as [near | e];
    cbn [mbind result_bind]; [| reflexivity].
  rewrite <- !app_assoc. reflexivity.
Qed.

Lemma ahead_zero (p : Position) :
  int_range (x_ p) -> int_range (y_ p) -> GetPositionAheadOfThis p 0 = p.
Proof.
  destruct p as [x y f]. cbn [x_ y_]. intros Hx Hy.
  unfold GetPositionAheadOfThis. cbn [x_ y_ facing_].
  destruct f as [|[[?|?|]|[?|?|]|]|?]; cbv iota beta;
    unfold iadd, imul; change (wrap (-1 * 0)) with 0;
    rewrite !Z.add_0_r, !wrap_id by assumption; reflexivity.
Qed.

(** X21: when the face the player looks at holds a wall whose sprite set
    has a front image for rank 0, a frame that completes ends with the blit
    of that image at (24, 32): the nearest wall ahead is painted last, over
    everything else. *)
Theorem RenderMap_front_wall_last (v : MapView) (target out : list DrawCmd)
    (m : Map) (p : Position) (wall : Z) (set : WallSpriteSet)
    (img : SDL_Surface) :
  int_range (x_ p) -> int_range (y_ p) ->
  GetWallForCoordinate m p = Ok wall ->
  GetWallSetNumber (artManager_ v) wall = Some set ->
  GetFrontImage set 0 = Ok (Some img) ->
  RenderMap v target m p = Ok out ->
  exists before, out = before ++ [Blit img 24 32].
Proof.
  intros Hx Hy Hwall Hset Himg Hrun. unfold RenderMap in Hrun.
  cbv zeta in Hrun.
  apply bind_Ok in Hrun as (t2 & _ & Hrun).
  apply bind_Ok in Hrun as (t1 & _ & Hrun).
  rewrite DrawDistRank_spread_1 in Hrun. cbv zeta in Hrun.
  apply bind_Ok in Hrun as (a1 & _ & Hrun).
  apply bind_Ok in Hrun as (a2 & _ & Hrun).
  apply bind_Ok in Hrun as (a3 & _ & Hrun).
  apply bind_Ok in Hrun as (a4 & _ & Hrun).
  rewrite (ahead_zero p Hx Hy) in Hrun.
  unfold DrawStraightWall in Hrun. rewrite Hwall in Hrun.
  cbn [mbind result_bind] in Hrun. rewrite Hset, Himg in Hrun.
  cbn [mbind result_bind] in Hrun.
  exists a4. inversion Hrun. reflexivity.
Qed.

Lemma RenderMap_front_wall_last_witness :
  int_range (x_ (mkPosition 1 1 PLAYER_FACING_EAST))
  /\ RenderMap (MapView_ctor demo_art) [] demo_walled
       (mkPosition 1 1 PLAYER_FACING_EAST) = Ok demo_frame
  /\ exists before,
       demo_frame
       = before ++ [Blit (Image "resources/stone_wall/f0.png") 24 32].
Proof.
  assert (Hx : int_range (x_ (mkPosition 1 1 PLAYER_FACING_EAST)))
    by (vm_compute; split; discriminate).
  assert (Hy : int_range (y_ (mkPosition 1 1 PLAYER_FACING_EAST)))
    by (vm_compute; split; discriminate).
  split; [exact Hx |]. split; [reflexivity |].
  apply (RenderMap_front_wall_last (MapView_ctor demo_art) [] demo_frame
           demo_walled (mkPosition 1 1 PLAYER_FACING_EAST) WALL_TYPE_STONE
           (mkWallSpriteSet
              [Some (Image "resources/stone_wall/f0.png");
               Some (Image "resources/stone_wall/f1.png");
               Some (Image "resources/stone_wall/f2.png")]
              [Some (Image "resources/stone_wall/l0.png");
               Some (Image "resources/stone_wall/l1.png");
               Some (Image "resources/stone_wall/l2.png")]
              [Some (Image "resources/stone_wall/r0.png");
               Some (Image "resources/stone_wall/r1.png");
               Some (Image "resources/stone_wall/r2.png")]
              3)
           (Image "resources/stone_wall/f0.png") Hx Hy);
    reflexivity.
Defined.

(** ** MiniMap: failures and the number of fills *)

(** X22: an [Update] that cannot create the surface returns without
    touching the mini-map, even one without a map; with a surface, a
    mini-map without a map faults on the null pointer, and a map of width 0
    or height 0 (a [Map] before [MakeMockup]) faults on the division that
    computes the cell size. *)
Theorem Update_failures (created : bool) (gs : GameState) (mm : MiniMap)
    (s : list DrawCmd) :
  (miniMapSurface_ mm = None -> Update false gs mm = Ok mm)
  /\ (surface_ready created mm s ->
      (mm_currentMap_ mm = None -> Update created gs mm = Fault NullPointer)
      /\ forall m, mm_currentMap_ mm = Some m ->
           width_ m = 0 \/ height_ m = 0 ->
           Update created gs mm = Fault DivideByZero).
Proof.
  unfold Update, RecreateMiniMapSurface. split.
  - intros ->. reflexivity.
  - intros Hs.
    assert (Hsurf : match miniMapSurface_ mm with
                    | Some s0 => Some s0
                    | None => if created then Some [] else None
                    end = Some s).
    { destruct Hs as [-> | (-> & -> & ->)]; reflexivity. }
    rewrite Hsurf. split.
    + intros ->. reflexivity.
    + intros m -> Hzero. cbn [deref mbind result_bind].
      unfold GetWidth, GetHeight, idiv.
      destruct Hzero as [-> | ->]; [reflexivity |].
      destruct (width_ m =? 0); reflexivity.
Qed.

Lemma Update_failures_witness :
  surface_ready true (mkMiniMap (Some Map_ctor) None 140 140) []
  /\ Update true GameState_ctor (mkMiniMap (Some Map_ctor) None 140 140)
     = Fault DivideByZero.
Proof.
  assert (Hs : surface_ready true (mkMiniMap (Some Map_ctor) None 140 140)
                 [])
    by (right; repeat split; reflexivity).
  split; [exact Hs |].
  destruct (Update_failures true GameState_ctor
              (mkMiniMap (Some Map_ctor) None 140 140) []) as [_ Hfail].
  destruct (Hfail Hs) as [_ Hdiv].
  apply (Hdiv Map_ctor eq_refl). left. reflexivity.
Defined.

Lemma concat_const_length {X} (g : Z -> list X) (k : nat) (l : list Z) :
  (forall i, length (g i) = k) ->
  length (concat (map g l)) = (length l * k)%nat.
Proof.
  intros Hg. induction l as [| i l IH]; [reflexivity |].
  cbn [map concat length]. rewrite length_app, Hg, IH. lia.
Qed.

Lemma seqZ_length (m n : Z) : length (seqZ m n) = Z.to_nat n.
Proof. unfold seqZ. rewrite length_fmap, length_seq. reflexivity. Qed.

(** X23: an [Update] with a surface over a map of positive width and height
    keeps what the surface held and adds one clearing fill and one fill per
    cell, width x height of them; the map and the size of the mini-map stay
    as they were. *)
Theorem Update_fill_count (created : bool) (gs : GameState) (mm : MiniMap)
    (m : Map) (s : list DrawCmd) :
  mm_currentMap_ mm = Some m -> surface_ready created mm s ->
  0 < width_ m -> 0 < height_ m ->
  exists cells,
    Update created gs mm
    = Ok (mkMiniMap (Some m)
            (Some ((s ++ [FillRect None (SDL_MapRGB 0 0 0)]) ++ cells))
            (mm_width_ mm) (mm_height_ mm))
    /\ Z.of_nat (length cells) = width_ m * height_ m
    /\ Forall (fun c => exists box, c = FillRect (Some box) notVisitedCellColor)
         cells.
Proof.
  intros Hmap Hsurf Hw Hh.
  unfold Update, RecreateMiniMapSurface.
  assert (Hs : match miniMapSurface_ mm with
               | Some s0 => Some s0
               | None => if created then Some [] else None
               end = Some s).
  { destruct Hsurf as [-> | (-> & -> & ->)]; reflexivity. }
  rewrite Hs, Hmap. cbn [deref mbind result_bind].
  unfold GetWidth, GetHeight.
  rewrite !idiv_ok by lia. cbn [mbind result_bind]. unfold SDL_FillRect.
  set (cw := wrap (Z.quot (mm_width_ mm) (width_ m))).
  set (ch := wrap (Z.quot (mm_height_ mm) (height_ m))).
  set (row_cells := fun row : Z =>
         concat (map (fun column : Z =>
           [FillRect (Some (cell_box cw ch column row)) notVisitedCellColor])
           (seqZ 0 (width_ m)))).
  rewrite (for_up_collect row_cells).
  2: { intros row s' _.
       apply (for_up_collect
                (fun column =>
                   [FillRect (Some (cell_box cw ch column row))
                      notVisitedCellColor])).
       intros column s'' _. reflexivity. }
  cbn [mbind result_bind].
  exists (concat (map row_cells (seqZ 0 (height_ m)))).
  split; [reflexivity |]. split.
  - rewrite (concat_const_length row_cells (Z.to_nat (width_ m))).
    + rewrite seqZ_length. nia.
    + intros row. unfold row_cells.
      rewrite (concat_const_length _ 1%nat) by reflexivity.
      rewrite seqZ_length. lia.
  - apply Forall_concat, Forall_map, Forall_forall. intros row _.
    apply Forall_concat, Forall_map, Forall_forall. intros column _.
    apply Forall_singleton. eexists. reflexivity.
Qed.

Lemma Update_fill_count_witness :
  mm_currentMap_ demo_minimap = Some demo_map
  /\ surface_ready true demo_minimap []
  /\ 0 < width_ demo_map /\ 0 < height_ demo_map
  /\ exists cells,
       Update true demo_gs demo_minimap
       = Ok (mkMiniMap (Some demo_map)
               (Some (([] ++ [FillRect None (SDL_MapRGB 0 0 0)]) ++ cells))
               (mm_width_ demo_minimap) (mm_height_ demo_minimap))
       /\ Z.of_nat (length cells) = width_ demo_map * height_ demo_map.
Proof.
  assert (Hs : surface_ready true demo_minimap [])
    by (right; repeat split; reflexivity).
  assert (Hw : 0 < width_ demo_map) by (simpl; lia).
  assert (Hh : 0 < height_ demo_map) by (simpl; lia).
  split; [reflexivity |]. split; [exact Hs |].
  split; [exact Hw |]. split; [exact Hh |].
  destruct (Update_fill_count true demo_gs demo_minimap demo_map []
              eq_refl Hs Hw Hh) as (cells & Hrun & Hlen & _).
  exists cells. split; assumption.
Defined.

(** ** BitmapFont: the layout of a printed text *)

Lemma wrap_mod16 (z : Z) : wrap z mod 2 ^ 16 = z mod 2 ^ 16.
Proof.
  unfold wrap.
  replace ((z + 2 ^ 31) mod 2 ^ 32 - 2 ^ 31)
    with (z + (- ((z + 2 ^ 31) / 2 ^ 32) * 2 ^ 16) * 2 ^ 16).
  - apply Z_mod_plus_full.
  - pose proof (Z.div_mod (z + 2 ^ 31) (2 ^ 32) ltac:(lia)). lia.
Qed.

Lemma mod16_add (a b c : Z) :
  a mod 2 ^ 16 = b mod 2 ^ 16 -> (a + c) mod 2 ^ 16 = (b + c) mod 2 ^ 16.
Proof.
  intros H. rewrite (Z.add_mod a c), H, <- Z.add_mod by lia. reflexivity.
Qed.

Lemma iadd_mod16 (a b c : Z) :
  a mod 2 ^ 16 = b mod 2 ^ 16 -> iadd a c mod 2 ^ 16 = (b + c) mod 2 ^ 16.
Proof.
  intros H. unfold iadd. rewrite wrap_mod16. apply mod16_add, H.
Qed.

Lemma iadd_congr16 (a b c : Z) :
  a mod 2 ^ 16 = b mod 2 ^ 16 -> iadd a c mod 2 ^ 16 = iadd b c mod 2 ^ 16.
Proof.
  intros H. rewrite (iadd_mod16 a b c H). symmetry.
  apply iadd_mod16. reflexivity.
Qed.

Lemma to_sint16_congr (a b : Z) :
  a mod 2 ^ 16 = b mod 2 ^ 16 -> to_sint16 a = to_sint16 b.
Proof.
  intros H. unfold to_sint16. f_equal. apply mod16_add, H.
Qed.

Lemma to_sint16_imul (a b : Z) : to_sint16 (imul a b) = to_sint16 (a * b).
Proof. apply to_sint16_congr, wrap_mod16. Qed.

Lemma until_nul_id (l : list Z) : Forall (fun c => c <> 0) l -> until_nul l = l.
Proof.
  induction 1 as [| c l Hc _ IH]; [reflexivity |].
  cbn [until_nul]. destruct (Z.eqb_spec c 0); [contradiction |].
  rewrite IH. reflexivity.
Qed.

Lemma textBuffer_of_id (l : list Z) :
  Forall (fun c => c <> 0) l -> (length l <= 1022)%nat ->
  textBuffer_of l = l.
Proof.
  intros Hnul Hlen. unfold textBuffer_of.
  rewrite take_ge by (vm_compute Z.to_nat; lia).
  apply until_nul_id, Hnul.
Qed.

Lemma print_char_letter (font : BitmapFont) (image : SDL_Surface)
    (originX cursorX cursorY : Z) (d : list RectBlit) (c : Z) :
  fontImage_ font = Some image -> c <> 9 -> c <> 10 ->
  print_char font originX (cursorX, cursorY, d) c
  = (iadd (iadd cursorX (letterWidth_ font)) (spacing_ font), cursorY,
     d ++ [glyph font image c cursorX cursorY]).
Proof.
  intros Himg H9 H10. unfold print_char.
  destruct (Z.eqb_spec c 10); [contradiction |].
  destruct (Z.eqb_spec c 9); [contradiction |].
  rewrite Himg. unfold Blit_rect, glyph. rewrite !to_sint16_imul.
  reflexivity.
Qed.

(** A run of letters: one blit per letter, each one letter width and one
    spacing to the right of the one before, all on the line of the cursor. *)
Lemma print_letters (font : BitmapFont) (image : SDL_Surface) (originX : Z)
    (l : list Z) :
  fontImage_ font = Some image -> Forall printable l ->
  forall cursorX cursorY d,
  exists cursorX',
    fold_left (print_char font originX) l (cursorX, cursorY, d)
    = (cursorX', cursorY,
       d ++ imap (fun k c =>
                    glyph font image c
                      (cursorX
                       + Z.of_nat k * (letterWidth_ font + spacing_ font))
                      cursorY) l)
    /\ cursorX' mod 2 ^ 16
       = (cursorX
          + Z.of_nat (length l) * (letterWidth_ font + spacing_ font))
         mod 2 ^ 16.
Proof.
  intros Himg. induction 1 as [| c l (_ & H9 & H10) _ IH];
    intros cursorX cursorY d.
  - exists cursorX. cbn [fold_left imap length]. rewrite app_nil_r.
    split; [reflexivity |]. f_equal. lia.
  - cbn [fold_left]. rewrite (print_char_letter font image) by assumption.
    destruct (IH (iadd (iadd cursorX (letterWidth_ font)) (spacing_ font))
                cursorY (d ++ [glyph font image c cursorX cursorY]))
      as (cursorX' & -> & Hmod).
    assert (Hstep : iadd (iadd cursorX (letterWidth_ font)) (spacing_ font)
                    mod 2 ^ 16
                    = (cursorX + letterWidth_ font + spacing_ font)
                      mod 2 ^ 16).
    { apply iadd_mod16. apply iadd_mod16. reflexivity. }
    exists cursorX'. split.
    + f_equal. rewrite <- app_assoc. f_equal. cbn [app imap].
      f_equal.
      * unfold glyph. f_equal. apply to_sint16_congr. f_equal. lia.
      * apply imap_ext. intros k c' _. unfold compose, glyph. f_equal.
        apply to_sint16_congr.
        rewrite (mod16_add _ _ _ Hstep). f_equal. lia.
    + rewrite Hmod, (mod16_add _ _ _ Hstep). f_equal.
      cbn [length]. lia.
Qed.

Lemma print_no_newline (font : BitmapFont) (originX : Z) (l : list Z) :
  Forall (fun c => c <> 10) l ->
  forall cursorX cursorY d,
  exists cursorX' d',
    fold_left (print_char font originX) l (cursorX, cursorY, d)
    = (cursorX', cursorY, d').
Proof.
  induction 1 as [| c l H10 _ IH]; intros cursorX cursorY d.
  - exists cursorX, d. reflexivity.
  - cbn [fold_left]. unfold print_char at 2.
    destruct (Z.eqb_spec c 10); [contradiction |].
    destruct (c =? 9); apply IH.
Qed.

(** Without a newline the origin plays no part, and only the low 16 bits of
    the cursor reach the destination. *)
Lemma print_cursor_congr (font : BitmapFont) (originX originX' : Z)
    (l : list Z) :
  Forall (fun c => c <> 10) l ->
  forall cursorX cursorX' cursorY d,
  cursorX mod 2 ^ 16 = cursorX' mod 2 ^ 16 ->
  snd (fold_left (print_char font originX) l (cursorX, cursorY, d))
  = snd (fold_left (print_char font originX') l (cursorX', cursorY, d)).
Proof.
  induction 1 as [| c l H10 _ IH]; intros cursorX cursorX' cursorY d Hc.
  - reflexivity.
  - cbn [fold_left]. unfold print_char at 2 4.
    destruct (Z.eqb_spec c 10); [contradiction |].
    destruct (c =? 9).
    + apply IH. apply iadd_congr16, Hc.
    + assert (Hblit : forall sx sy w h,
                Blit_rect (fontImage_ font) d sx sy cursorX cursorY w h
                = Blit_rect (fontImage_ font) d sx sy cursorX' cursorY w h).
      { intros. unfold Blit_rect. destruct (fontImage_ font); [| reflexivity].
        rewrite (to_sint16_congr _ _ Hc). reflexivity. }
      rewrite Hblit. apply IH. apply iadd_congr16, iadd_congr16, Hc.
Qed.

(** X24: a font without an image prints nothing.  A font with an image,
    given a text without terminator, tab or newline, adds one blit per
    character for the first 1022 characters and none for the rest: character
    [k] is drawn at [x + k * (letterWidth + spacing)] on the line [y], from
    the cell of the font image in column [c / 16], row [c % 16] (the place as
    the 16-bit coordinate of the rectangle). *)
Theorem Print_line (font : BitmapFont) (dest : list RectBlit) (x y : Z)
    (text : list Z) :
  (fontImage_ font = None -> Print font dest x y text = dest)
  /\ forall image,
       fontImage_ font = Some image -> Forall printable text ->
       Print font dest x y text
       = dest ++ imap (fun k c =>
                         glyph font image c
                           (x + Z.of_nat k
                                * (letterWidth_ font + spacing_ font)) y)
                   (take 1022 text).
Proof.
  unfold Print. split; [intros ->; reflexivity |].
  intros image Himg Hprint. rewrite Himg.
  assert (Hbuf : textBuffer_of text = take 1022 text).
  { unfold textBuffer_of.
    change (Z.to_nat (BITFNT_MAX_STRING_LENGTH - 1 - 1)) with 1022%nat.
    apply until_nul_id. apply Forall_take.
    eapply Forall_impl; [exact Hprint |]. intros c (H0 & _). exact H0. }
  rewrite Hbuf.
  destruct (print_letters font image x (take 1022 text) Himg
              (Forall_take _ _ _ Hprint) x y dest) as (cx & -> & _).
  reflexivity.
Qed.

Lemma Print_line_witness :
  fontImage_ demo_font = Some (Image "font.png")
  /\ Forall printable [72; 105]
  /\ Print demo_font [] 10 20 [72; 105]
     = [glyph demo_font (Image "font.png") 72 10 20;
        glyph demo_font (Image "font.png") 105 19 20].
Proof.
  assert (Hp : Forall printable [72; 105])
    by (repeat constructor; unfold printable; lia).
  split; [reflexivity |]. split; [exact Hp |].
  destruct (Print_line demo_font [] 10 20 [72; 105]) as [_ Hline].
  rewrite (Hline (Image "font.png") eq_refl Hp). reflexivity.
Defined.

(** X25: a newline starts a new line at the column the text began at, one
    letter height and one spacing lower: printing [a], a newline and [b]
    (no terminator in them, no newline in [a], at most 1022 characters in
    all) is printing [a] at [(x, y)] and then [b] at
    [(x, y + letterHeight + spacing)]. *)
Theorem Print_newline (font : BitmapFont) (dest : list RectBlit) (x y : Z)
    (a b : list Z) :
  Forall (fun c => c <> 0 /\ c <> 10) a -> Forall (fun c => c <> 0) b ->
  (length a + 1 + length b <= 1022)%nat ->
  Print font dest x y (a ++ 10 :: b)
  = Print font (Print font dest x y a) x
      (iadd (iadd y (letterHeight_ font)) (spacing_ font)) b.
Proof.
  intros Ha Hb Hlen. unfold Print.
  destruct (fontImage_ font) as [image |] eqn:Himg; [| reflexivity].
  assert (Ha0 : Forall (fun c => c <> 0) a)
    by (eapply Forall_impl; [exact Ha |]; intros c (H0 & _); exact H0).
  assert (Ha10 : Forall (fun c => c <> 10) a)
    by (eapply Forall_impl; [exact Ha |]; intros c (_ & H10); exact H10).
  rewrite (textBuffer_of_id (a ++ 10 :: b)).
  2: { apply Forall_app. split; [exact Ha0 |].
       constructor; [lia | exact Hb]. }
  2: { rewrite length_app. cbn [length]. lia. }
  rewrite (textBuffer_of_id a) by (assumption || lia).
  rewrite (textBuffer_of_id b) by (assumption || lia).
  rewrite fold_left_app. cbn [fold_left].
  destruct (print_no_newline font x a Ha10 x y dest) as (cx & d' & ->).
  reflexivity.
Qed.

Lemma Print_newline_witness :
  Forall (fun c => c <> 0 /\ c <> 10) [72; 105]
  /\ Forall (fun c => c <> 0) [9; 33]
  /\ Print demo_font [] 10 20 ([72; 105] ++ 10 :: [9; 33])
     = Print demo_font (Print demo_font [] 10 20 [72; 105]) 10 29 [9; 33].
Proof.
  assert (Ha : Forall (fun c => c <> 0 /\ c <> 10) [72; 105])
    by (repeat constructor; lia).
  assert (Hb : Forall (fun c => c <> 0) [9; 33])
    by (repeat constructor; lia).
  split; [exact Ha |]. split; [exact Hb |].
  apply (Print_newline demo_font [] 10 20 [72; 105] [9; 33] Ha Hb).
  simpl. lia.
Defined.

(** X26: a tab is no tab stop: it moves the cursor right by eight letter
    widths and seven spacings, whatever the column.  Printing letters [a], a
    tab and [b] (no terminator or newline in [b], at most 1022 characters in
    all) is printing [a] at [x] and then [b] on the same line at
    [x + length a * (letterWidth + spacing) + 8 * letterWidth + 7 * spacing],
    one spacing short of where eight more letters would have ended. *)
Theorem Print_tab (font : BitmapFont) (dest : list RectBlit) (x y : Z)
    (a b : list Z) :
  Forall printable a -> Forall (fun c => c <> 0 /\ c <> 10) b ->
  (length a + 1 + length b <= 1022)%nat ->
  Print font dest x y (a ++ 9 :: b)
  = Print font (Print font dest x y a)
      (x + Z.of_nat (length a) * (letterWidth_ font + spacing_ font)
       + 8 * letterWidth_ font + 7 * spacing_ font) y b.
Proof.
  intros Ha Hb Hlen. unfold Print.
  destruct (fontImage_ font) as [image |] eqn:Himg; [| reflexivity].
  assert (Ha0 : Forall (fun c => c <> 0) a)
    by (eapply Forall_impl; [exact Ha |]; intros c (H0 & _); exact H0).
  assert (Hb0 : Forall (fun c => c <> 0) b)
    by (eapply Forall_impl; [exact Hb |]; intros c (H0 & _); exact H0).
  assert (Hb10 : Forall (fun c => c <> 10) b)
    by (eapply Forall_impl; [exact Hb |]; intros c (_ & H10); exact H10).
  rewrite (textBuffer_of_id (a ++ 9 :: b)).
  2: { apply Forall_app. split; [exact Ha0 |].
       constructor; [lia | exact Hb0]. }
  2: { rewrite length_app. cbn [length]. lia. }
  rewrite (textBuffer_of_id a) by (assumption || lia).
  rewrite (textBuffer_of_id b) by (assumption || lia).
  rewrite fold_left_app. cbn [fold_left].
  destruct (print_letters font image x a Himg Ha x y dest)
    as (cx & -> & Hcx).
  cbn [snd]. unfold print_char at 2. cbn [Z.eqb Pos.eqb].
  apply print_cursor_congr; [exact Hb10 |].
  set (tab := iadd (imul 8 (letterWidth_ font)) (imul 7 (spacing_ font))).
  assert (Htab : tab mod 2 ^ 16
                 = (8 * letterWidth_ font + 7 * spacing_ font) mod 2 ^ 16).
  { unfold tab, imul, iadd.
    rewrite wrap_mod16, Z.add_mod, !wrap_mod16, <- Z.add_mod by lia.
    reflexivity. }
  rewrite (iadd_mod16 _ _ tab Hcx).
  set (column := x + Z.of_nat (length a)
                     * (letterWidth_ font + spacing_ font)).
  replace (column + 8 * letterWidth_ font + 7 * spacing_ font)
    with (8 * letterWidth_ font + 7 * spacing_ font + column) by lia.
  rewrite (Z.add_comm column tab). apply mod16_add, Htab.
Qed.

Lemma Print_tab_witness :
  Forall printable [72; 105]
  /\ Forall (fun c => c <> 0 /\ c <> 10) [33]
  /\ Print demo_font [] 10 20 ([72; 105] ++ 9 :: [33])
     = Print demo_font (Print demo_font [] 10 20 [72; 105])
         (10 + 2 * (8 + 1) + 8 * 8 + 7 * 1) 20 [33].
Proof.
  assert (Ha : Forall printable [72; 105])
    by (repeat constructor; unfold printable; lia).
  assert (Hb : Forall (fun c => c <> 0 /\ c <> 10) [33])
    by (repeat constructor; lia).
  split; [exact Ha |]. split; [exact Hb |].
  apply (Print_tab demo_font [] 10 20 [72; 105] [33] Ha Hb).
  simpl. lia.
Defined.

(** X27: a [Load] whose image file cannot be read answers false and leaves
    a font that prints nothing, also when the font had an image before: the
    old image is gone, while the letter size and spacing are the old ones. *)
Theorem Load_failure_prints_nothing (load : string -> option SDL_Surface)
    (font : BitmapFont) (filePath : string) (letterWidth letterHeight
    spacing : Z) (dest : list RectBlit) (x y : Z) (text : list Z) :
  load filePath = None ->
  let after := Load load font filePath letterWidth letterHeight spacing in
  fst after = false
  /\ Print (snd after) dest x y text = dest
  /\ letterWidth_ (snd after) = letterWidth_ font
  /\ letterHeight_ (snd after) = letterHeight_ font
  /\ spacing_ (snd after) = spacing_ font.
Proof.
  intros Hload. unfold Load. rewrite Hload. cbn. unfold Print. cbn.
  repeat split; reflexivity.
Qed.

Lemma Load_failure_prints_nothing_witness :
  Print (snd (Load (fun _ => None) demo_font "missing.png" 16 16 2))
    [] 10 20 [72; 105] = [].
Proof.
  destruct (Load_failure_prints_nothing (fun _ => None) demo_font
              "missing.png" 16 16 2 [] 10 20 [72; 105] eq_refl)
    as (_ & Hprint & _).
  exact Hprint.
Defined.
